(** * Blood-Flow-Analyzer: shallow embedding of the analysis core

    The numeric code of the repository works on NumPy float arrays.  The
    embedding represents a finite float by the rational it denotes ([Q]),
    uses an explicit [nan] sentinel where the code produces [float('nan')],
    and an explicit [res] type for Python exceptions, so that every
    [try/except] of the source is visible in the model.  Where a result of
    the code depends on rounding, the rounding is written out: [f32] and
    [f64] round to the nearest binary32 and binary64 number, and a
    component whose float format is that of its input takes the rounding
    (and NumPy's own reductions) as parameters. *)

From Stdlib Require Import String Ascii DecimalString.
From Stdlib Require Import List Arith ZArith QArith Qabs Qround Qminmax Qpower Bool
  Lia Lqa.
From Stdlib Require Import Sorting.Permutation.
Import ListNotations.

Open Scope Q_scope.

(** ** Python-level helpers shared by all components *)

(** Outcome of a Python expression: a value, or a raised exception. *)
Inductive res (A : Type) : Type :=
| Val (a : A)
| Raised.
Arguments Val {A} a.
Arguments Raised {A}.

Definition bind {A B} (r : res A) (k : A -> res B) : res B :=
  match r with Val a => k a | Raised => Raised end.

Notation "'do' x <- r ; k" := (bind r (fun x => k))
  (at level 10, x name, r at level 100, k at level 200).

(** [try: body / except Exception: handler]. *)
Definition try_except {A} (body : res A) (handler : A) : A :=
  match body with Val a => a | Raised => handler end.

Definition Qlt_bool (a b : Q) : bool := negb (Qle_bool b a).

(** ** Floating point

    IEEE 754 arithmetic returns the exact result rounded to the nearest
    number of the format, ties to even.  [round_float prec q] is that
    rounding for a format with [prec] significant bits; the exponent range
    is not bounded here (no overflow to infinity, no subnormal numbers). *)

Definition pow2 (e : Z) : Q :=
  match e with
  | Z0 => 1
  | Zpos p => inject_Z (2 ^ Zpos p)
  | Zneg p => 1 # (2 ^ p)
  end.

(** The integer nearest to [q], the even one of two equally near. *)
Definition round_half_even (q : Q) : Z :=
  let f := Qfloor q in
  match Qcompare (q - inject_Z f) (1 # 2) with
  | Lt => f
  | Gt => (f + 1)%Z
  | Eq => if Z.even f then f else (f + 1)%Z
  end.

(** [floor (log2 q)] for [q > 0]: the difference of the bit lengths of
    numerator and denominator, or one less. *)
Definition ilog2 (q : Q) : Z :=
  let e0 := (Z.log2 (Qnum q) - Z.log2 (Zpos (Qden q)))%Z in
  if Qle_bool (pow2 e0) q then e0 else (e0 - 1)%Z.

Definition round_float (prec : Z) (q : Q) : Q :=
  let q := Qred q in
  if Qeq_bool q 0 then 0
  else
    let e := (ilog2 (Qabs q) - (prec - 1))%Z in
    Qred (inject_Z (round_half_even (q / pow2 e)) * pow2 e).

(** [np.float32] and Python's [float] / [np.float64]. *)
Definition f32 : Q -> Q := round_float 24.
Definition f64 : Q -> Q := round_float 53.

Fixpoint qsum (l : list Q) : Q :=
  match l with
  | [] => 0
  | x :: r => x + qsum r
  end.

(** [np.diff] on a 1-D array. *)
Fixpoint diff (l : list Q) : list Q :=
  match l with
  | a :: ((b :: _) as r) => (b - a) :: diff r
  | _ => []
  end.

(** NumPy broadcasting of a binary operation over two 1-D arrays: equal
    lengths combine pointwise, a length-1 operand is stretched, anything
    else raises [ValueError]. *)
Fixpoint zip_with {A B C} (f : A -> B -> C) (a : list A) (b : list B) : list C :=
  match a, b with
  | x :: a', y :: b' => f x y :: zip_with f a' b'
  | _, _ => []
  end.

Definition broadcast2 (f : Q -> Q -> Q) (a b : list Q) : res (list Q) :=
  if Nat.eqb (length a) (length b) then Val (zip_with f a b)
  else match a, b with
       | [x], _ => Val (map (f x) b)
       | _, [y] => Val (map (fun x => f x y) a)
       | _, _ => Raised
       end.

(** [np.argmax]: index of the first occurrence of the maximum. *)
Fixpoint argmax_from (best_i : nat) (best : Q) (i : nat) (l : list Q) : nat :=
  match l with
  | [] => best_i
  | x :: r => if Qlt_bool best x then argmax_from i x (S i) r
              else argmax_from best_i best (S i) r
  end.

Definition argmax (l : list Q) : res nat :=
  match l with
  | [] => Raised
  | x :: r => Val (argmax_from 0%nat x 1%nat r)
  end.

(** [np.argmin]: index of the first occurrence of the minimum. *)
Fixpoint argmin_from (best_i : nat) (best : Q) (i : nat) (l : list Q) : nat :=
  match l with
  | [] => best_i
  | x :: r => if Qlt_bool x best then argmin_from i x (S i) r
              else argmin_from best_i best (S i) r
  end.

Definition argmin (l : list Q) : res nat :=
  match l with
  | [] => Raised
  | x :: r => Val (argmin_from 0%nat x 1%nat r)
  end.

(** A loop that computes one value per element and stops at the first
    exception. *)
Fixpoint map_res {A B} (f : A -> res B) (l : list A) : res (list B) :=
  match l with
  | [] => Val []
  | a :: r =>
      do b <- f a;
      do bs <- map_res f r;
      Val (b :: bs)
  end.

(** Stable insertion sort; [before a b] says that [a] may precede [b]. *)
Fixpoint insert_by {A} (before : A -> A -> bool) (a : A) (l : list A) : list A :=
  match l with
  | [] => [a]
  | b :: r => if before a b then a :: b :: r else b :: insert_by before a r
  end.

Definition sort_by {A} (before : A -> A -> bool) (l : list A) : list A :=
  fold_right (insert_by before) [] l.

(** Ascending sort of a float array. *)
Definition sortQ (l : list Q) : list Q := sort_by Qle_bool l.

(** Indexing [a[i]] with a non-negative index: [IndexError] out of range. *)
Definition getitem (a : list Q) (i : nat) : res Q :=
  match nth_error a i with
  | Some v => Val v
  | None => Raised
  end.

(** A Python dict with string keys, as the list of its items in insertion
    order: [d[k] = v] replaces the value of a key that is present and
    appends a new key at the end. *)
Definition dict (V : Type) : Type := list (string * V).

Fixpoint dict_set {V} (k : string) (v : V) (d : dict V) : dict V :=
  match d with
  | [] => [(k, v)]
  | (k', v') :: r =>
      if String.eqb k' k then (k', v) :: r else (k', v') :: dict_set k v r
  end.

Fixpoint dict_get {V} (k : string) (d : dict V) : option V :=
  match d with
  | [] => None
  | (k', v) :: r => if String.eqb k' k then Some v else dict_get k r
  end.

Definition dict_keys {V} (d : dict V) : list string := map fst d.

(** ** MetricsEngine: [_metrics_from_curve] (src/src/ui/napari_main_window.py) *)

Module Metrics.

(** A metric is a finite number or the not-a-number sentinel. *)
Inductive metric : Type :=
| nan
| num (q : Q).

(** The arguments as the caller passes them: something [np.asarray(_, float)]
    converts to a 1-D float array, or something it rejects. *)
Inductive curve_arg : Type :=
| numeric (a : list Q)
| non_numeric.

Definition asarray_float (a : curve_arg) : res (list Q) :=
  match a with
  | numeric l => Val l
  | non_numeric => Raised
  end.

(** The returned Python dict, as its list of items in insertion order. *)
Definition metric_dict := list (string * metric).

Fixpoint lookup (k : string) (d : metric_dict) : option metric :=
  match d with
  | [] => None
  | (k', v) :: r => if String.eqb k k' then Some v else lookup k r
  end.



(** [np.trapz(y, x)] on 1-D arrays:
    [(diff(x) * (y[1:] + y[:-1]) / 2.0).sum()]. *)
Definition trapz (y x : list Q) : res Q :=
  let d := diff x in
  let s := zip_with Qplus (tl y) (removelast y) in
  do p <- broadcast2 Qmult d s;
  Val (qsum (map (fun v => v / 2) p)).

(** [np.where((y >= y10) & (y <= y90))[0]]. *)
Fixpoint where_between (lo hi : Q) (i : nat) (y : list Q) : list nat :=
  match y with
  | [] => []
  | v :: r =>
      if Qle_bool lo v && Qle_bool v hi then i :: where_between lo hi (S i) r
      else where_between lo hi (S i) r
  end.

(** Fancy indexing [a[idx]]: [IndexError] if any index is out of range. *)
Fixpoint take_indices (a : list Q) (idx : list nat) : res (list Q) :=
  match idx with
  | [] => Val []
  | i :: r =>
      do v <- getitem a i;
      do vs <- take_indices a r;
      Val (v :: vs)
  end.

(** [np.nanmax] of an array of finite values; [ValueError] on an empty one. *)
Definition nanmax (l : list Q) : res Q :=
  match l with
  | [] => Raised
  | x :: r => Val (fold_left Qmax r x)
  end.

(** [np.nanmin] of an array of finite values. *)
Definition nanmin (l : list Q) : res Q :=
  match l with
  | [] => Raised
  | x :: r => Val (fold_left Qmin r x)
  end.

(** "Peak by magnitude" as the export path of the same file computes it
    (napari_main_window.py, lines 2366-2372): the signed value of greatest
    absolute magnitude. *)
Definition peak_by_magnitude (y_inc : list Q) : metric :=
  try_except
    (do max_pos <- nanmax y_inc;
     do min_neg <- nanmin y_inc;
     Val (num (if Qle_bool (Qabs min_neg) (Qabs max_pos) then max_pos
               else min_neg)))
    nan.

Section WithPolyfit.

(** [np.polyfit(x, y, 1)[0]]: the slope of the least-squares line.  It is
    library code; it may return a number, return NaN, or raise. *)
Variable polyfit_slope : list Q -> list Q -> res metric.

Definition nan_dict5 : metric_dict :=
  [("AUC", nan); ("MTT", nan); ("Peak", nan); ("TTP", nan);
   ("Slope_10_90", nan)]%string.

Definition compute_auc (t y_pos : list Q) : metric :=
  try_except (do a <- trapz y_pos t; Val (num a)) nan.

Definition compute_mtt (t y_pos : list Q) (auc : metric) : metric :=
  try_except
    (match auc with
     | num a =>
         if Qlt_bool 0 a then
           do ty <- broadcast2 Qmult t y_pos;
           do m <- trapz ty t;
           Val (num (m / a))
         else Val nan
     | nan => Val nan
     end) nan.

Definition compute_peak_ttp (t y : list Q) : metric * metric :=
  try_except
    (match y with
     | [] => Val (nan, nan)
     | _ =>
         do i_max <- argmax y;
         do peak <- getitem y i_max;
         do ttp <- getitem t i_max;
         Val (num peak, num ttp)
     end) (nan, nan).

Definition compute_slope (t y : list Q) (peak : metric) : metric :=
  try_except
    (match peak with
     | num p =>
         if Qlt_bool 0 p then
           let y10 := (1 # 10) * p in
           let y90 := (9 # 10) * p in
           let idx := where_between y10 y90 0 y in
           if (2 <=? length idx)%nat then
             do ti <- take_indices t idx;
             do yi <- take_indices y idx;
             polyfit_slope ti yi
           else Val nan
         else Val nan
     | nan => Val nan
     end) nan.

Definition compute_maxdiff (t y : list Q) : metric :=
  try_except
    (if (2 <=? length t)%nat then
       let dt := diff t in
       let dy := diff y in
       let dt := map (fun d => if Qeq_bool d 0 then 1 # 1000000000 else d) dt in
       do q <- broadcast2 Qdiv dy dt;
       do m <- nanmax (map Qabs q);
       Val (num m)
     else Val nan) nan.

Definition _metrics_from_curve (t_arg y_arg : curve_arg) : res metric_dict :=
  match (do t <- asarray_float t_arg;
         do y <- asarray_float y_arg;
         Val (t, y)) with
  | Raised => Val nan_dict5
  | Val (t, y) =>
      if (Nat.eqb (length t) 0 || Nat.eqb (length y) 0)%bool then Val nan_dict5
      else
        let y_pos := map (fun v => Qmax v 0) y in
        let auc := compute_auc t y_pos in
        let mtt := compute_mtt t y_pos auc in
        let '(peak, ttp) := compute_peak_ttp t y in
        let slope := compute_slope t y peak in
        let maxdiff := compute_maxdiff t y in
        Val [("AUC", auc); ("MTT", mtt); ("Peak", peak); ("TTP", ttp);
             ("Slope_10_90", slope); ("MaxDiff", maxdiff)]%string
  end.

End WithPolyfit.

End Metrics.

(** ** EventDetector: [detect_flash_ceus_refined]
    (src/ceus_app_pyqt/src/core/flash_detection.py) *)

Module Flash.

(** A stack is the list of its frames; a frame is the flat list of its
    samples, which is all that [mean(axis=(1, 2))] and
    [mean(axis=(1, 2, 3))] look at. *)
Definition frame := list Q.
Definition stack := list frame.

(** Python slice [a[lo:hi]] with integer bounds: negative bounds count from
    the end, and both are clamped to the array. *)
Definition slice_bound (n : nat) (i : Z) : nat :=
  if (i <? 0)%Z then Z.to_nat (Z.max 0 (Z.of_nat n + i))
  else Nat.min n (Z.to_nat i).

Definition slice {A} (a : list A) (lo hi : Z) : list A :=
  let l := slice_bound (length a) lo in
  let h := slice_bound (length a) hi in
  firstn (h - l) (skipn l a).

(** [a[lo:]] *)
Definition slice_from {A} (a : list A) (lo : Z) : list A :=
  skipn (slice_bound (length a) lo) a.

Section WithTrace.

(** [ndarray.mean] over the samples of one frame: NumPy's reduction, in the
    float format that the dtype of the stack gives the trace. *)
Variable mean : frame -> Q.

(** Rounding to the float format of the trace. *)
Variable rnd : Q -> Q.

(** [np.diff] on the trace: [a[1:] - a[:-1]], each difference rounded. *)
Fixpoint np_diff (l : list Q) : list Q :=
  match l with
  | a :: ((b :: _) as r) => rnd (b - a) :: np_diff r
  | _ => []
  end.

Definition detect_flash_ceus_refined
    (ceus_stack : stack) (exclude_first_n search_window : Z)
  : res (Z * Z * list Q) :=
  let intensities := map mean ceus_stack in
  let T := Z.of_nat (length intensities) in
  let start_frame := Z.min exclude_first_n (T / 10) in
  let gradients := np_diff intensities in
  do k <- argmin (slice_from gradients start_frame);
  let flash_idx := (start_frame + Z.of_nat k)%Z in
  let search_start := flash_idx in
  let search_end := Z.min T (flash_idx + search_window) in
  do j <- argmin (slice intensities search_start search_end);
  let washout_idx := (search_start + Z.of_nat j)%Z in
  Val (flash_idx, washout_idx, intensities).

End WithTrace.



End Flash.

(** ** Smoother: [loess_smooth] (src/src/utils/loess.py) *)

Module Loess.

(** [np.clip(v, lo, hi)] is [minimum(maximum(v, lo), hi)]. *)
Definition clip (v lo hi : Q) : Q := Qmin (Qmax v lo) hi.

Definition _tricube (u : Q) : Q :=
  let a := 1 - (clip (Qabs u) 0 1) ^ 3 in
  a ^ 3.

(** *** Sorting and deduplication *)

(** [a[idx]] for an index array. *)
Definition take (a : list Q) (idx : list nat) : list Q :=
  map (fun i => nth i a 0) idx.

(** Boolean-mask indexing [a[mask]]. *)
Fixpoint compress {A} (mask : list bool) (a : list A) : list A :=
  match mask, a with
  | m :: mask', v :: a' =>
      if m then v :: compress mask' a' else compress mask' a'
  | _, _ => []
  end.

(** A stable argsort, as an insertion sort of the indices by key: the
    [argsort(kind='mergesort')] that [np.unique(..., return_index=True)]
    runs. *)
Fixpoint insert_index (key : list Q) (i : nat) (l : list nat) : list nat :=
  match l with
  | [] => [i]
  | j :: r =>
      if Qle_bool (nth i key 0) (nth j key 0) then i :: j :: r
      else j :: insert_index key i r
  end.

Definition argsort (key : list Q) : list nat :=
  fold_right (insert_index key) [] (seq 0 (length key)).

(** The mask NumPy builds in [np.unique]: [True] at the first element and
    wherever an element differs from its predecessor. *)
Fixpoint run_starts_from (prev : Q) (l : list Q) : list bool :=
  match l with
  | [] => []
  | v :: r => negb (Qeq_bool v prev) :: run_starts_from v r
  end.

Definition run_starts (l : list Q) : list bool :=
  match l with
  | [] => []
  | v :: r => true :: run_starts_from v r
  end.

(** [np.unique(a, return_index=True)]: sorted distinct values and the index
    in [a] of the first occurrence of each. *)
Definition np_unique (a : list Q) : list Q * list nat :=
  let perm := argsort a in
  let aux := take a perm in
  let mask := run_starts aux in
  (compress mask aux, compress mask perm).

(** *** Neighbourhood size and bandwidth *)

Definition p_min (degree : Z) : Z := if (2 <=? degree)%Z then 2%Z else 1%Z.

(** Lines 41-44: the neighbourhood size [k] for [n] deduplicated points.
    [span] is a Python float, that is the double nearest to the number
    written ([f64 span], which is [span] itself when it is a double), and
    [max(0.0, min(1.0, span)) * n] is a binary64 product, rounded before
    [np.floor]. *)
Definition neighborhood_size (degree : Z) (span : Q) (n : nat) : Z :=
  let span := f64 span in
  let k := Qfloor (f64 (Qmax 0 (Qmin 1 span) * inject_Z (Z.of_nat n))) in
  let k := Z.max (p_min degree + 1) k in
  Z.min (Z.max k 2) (Z.max (Z.of_nat n - 1) 1).

(** [np.partition(a, i)[i]]: the element of rank [i] in sorted order. *)
Definition partition_at (a : list Q) (i : nat) : Q := nth i (sortQ a) 0.

Definition list_max (l : list Q) : Q :=
  match l with
  | [] => 0
  | v :: r => fold_left Qmax r v
  end.

(** The neighbourhood size in the words of the specification:
    k = max(degree + 2, floor(s * n)), clipped to [2, n - 1]. *)
Definition specified_neighborhood_size (degree : Z) (span : Q) (n : nat) : Z :=
  let k := Z.max (degree + 2) (Qfloor (span * inject_Z (Z.of_nat n))) in
  Z.min (Z.max k 2) (Z.of_nat n - 1).

(** Line 56: the rank actually used at an evaluation point. *)
Definition effective_k (k : Z) (d_nonzero : list Q) : Z :=
  Z.min k (Z.of_nat (length d_nonzero)).

(** Lines 52-59: the bandwidth at an evaluation point, from the distances
    [d] of all points to it. *)
Definition bandwidth (k : Z) (d : list Q) : Q :=
  let d_nonzero := filter (fun v => Qlt_bool 0 v) d in
  match d_nonzero with
  | [] => 1
  | _ =>
      let kk := effective_k k d_nonzero in
      let dk := partition_at d_nonzero (Z.to_nat (kk - 1)) in
      if Qle_bool dk 0 then
        (if Qlt_bool 0 (list_max d_nonzero) then list_max d_nonzero else 1)
      else dk
  end.

(** *** Dense linear algebra on row-major matrices *)

Definition vec := list Q.
Definition matrix := list (list Q).

Definition dot (u v : vec) : Q := qsum (zip_with Qmult u v).

Definition ncols (A : matrix) : nat :=
  match A with
  | [] => 0%nat
  | r :: _ => length r
  end.

Definition col (j : nat) (A : matrix) : vec := map (fun r => nth j r 0) A.

Definition transpose (A : matrix) : matrix :=
  map (fun j => col j A) (seq 0 (ncols A)).

(** [A @ B] *)
Definition matmul (A B : matrix) : matrix :=
  map (fun r => map (fun j => dot r (col j B)) (seq 0 (ncols B))) A.

(** [A @ v] for a 1-D [v] *)
Definition matvec (A : matrix) (v : vec) : vec := map (fun r => dot r v) A.

(** [np.diag(ws)] *)
Definition diag (ws : vec) : matrix :=
  map (fun i => map (fun j => if Nat.eqb i j then nth i ws 0 else 0)
                    (seq 0 (length ws)))
      (seq 0 (length ws)).

(** One row of the design matrix built by the [np.hstack] calls. *)
Definition design_row (degree : Z) (z : Q) : vec :=
  1 :: z :: (if (2 <=? degree)%Z then [z ^ 2] else []).

(** [np.average(ys, weights=ws)] *)
Definition average (ys ws : vec) : res Q :=
  if Qeq_bool (qsum ws) 0 then Raised
  else Val (qsum (zip_with Qmult ys ws) / qsum ws).

Section WithSolver.

(** [np.linalg.lstsq(A, b, rcond=None)[0]]: library code returning a
    least-squares solution of [A beta = b], or raising [LinAlgError]. *)
Variable lstsq : matrix -> vec -> res vec.

(** [np.argsort(x)] with the default kind, which is not stable: library
    code returning some ordering of the indices that sorts [x]. *)
Variable np_argsort : vec -> list nat.

(** The weighted normal equations assembled at one evaluation point. *)
Definition normal_matrix (X : matrix) (ws : vec) : matrix :=
  matmul (matmul (transpose X) (diag ws)) X.

Definition normal_rhs (X : matrix) (ws ys : vec) : vec :=
  matvec (matmul (transpose X) (diag ws)) ys.

(** Body of the loop at lines 48-82 for the evaluation point [xi]. *)
Definition local_fit (degree : Z) (k : Z) (x_sorted y_sorted : vec) (xi : Q)
  : res Q :=
  let d := map (fun v => Qabs (v - xi)) x_sorted in
  let dk := bandwidth k d in
  let u := map (fun v => v / dk) d in
  let w := map _tricube u in
  let mask := map (fun v => Qlt_bool 0 v) w in
  let xs := compress mask x_sorted in
  let ys := compress mask y_sorted in
  let ws := compress mask w in
  let z := map (fun v => (v - xi) / dk) xs in
  let X := map (design_row degree) z in
  match (do beta <- lstsq (normal_matrix X ws) (normal_rhs X ws ys);
         getitem beta 0) with
  | Val v => Val v
  | Raised => average ys ws
  end.

(** [np.interp(x, xp, fp)] at one abscissa, for increasing [xp]: clamp
    outside the knots, otherwise interpolate on the segment
    [xp[j] <= x < xp[j+1]], found here by a left-to-right scan. *)
Fixpoint interp_scan (x : Q) (xp fp : vec) : Q :=
  match xp, fp with
  | x0 :: ((x1 :: _) as xr), f0 :: ((f1 :: _) as fr) =>
      if Qlt_bool x x1 then
        (if Qeq_bool x0 x then f0
         else (f1 - f0) / (x1 - x0) * (x - x0) + f0)
      else interp_scan x xr fr
  | _, f0 :: _ => f0
  | _, [] => 0
  end.

Definition interp1 (x : Q) (xp fp : vec) : Q :=
  match xp, fp with
  | x0 :: _, f0 :: _ =>
      if Qlt_bool x x0 then f0
      else if Qlt_bool (last xp 0) x then last fp 0
      else interp_scan x xp fp
  | _, _ => 0
  end.

Definition loess_smooth (x y : vec) (span : Q) (degree : Z) : res vec :=
  let n := length x in
  if Nat.eqb n 0 then Val y
  else if (Nat.eqb n 1 || Qle_bool span 0)%bool then Val y
  else
    let order := np_argsort x in
    let x_sorted := take x order in
    let y_sorted := take y order in
    let '(x_sorted, uniq_idx) := np_unique x_sorted in
    let y_sorted := take y_sorted uniq_idx in
    let n := length x_sorted in
    let k := neighborhood_size degree span n in
    do y_fit_sorted <- map_res (local_fit degree k x_sorted y_sorted) x_sorted;
    Val (map (fun v => interp1 v x_sorted y_fit_sorted) x).

End WithSolver.

End Loess.

(** ** N-dimensional arrays *)

(** A NumPy array: its shape and its element at each multi-index.  Only
    in-bounds indices are meaningful. *)
Record ndarray (A : Type) : Type := mk_ndarray {
  shape : list nat;
  item : list nat -> A
}.
Arguments mk_ndarray {A} shape item.
Arguments shape {A} _.
Arguments item {A} _ _.

Definition ndim {A} (a : ndarray A) : nat := length (shape a).

Definition in_bounds (sh idx : list nat) : Prop := Forall2 lt idx sh.

(** All multi-indices of a shape, in C (row-major) order. *)
Fixpoint indices (sh : list nat) : list (list nat) :=
  match sh with
  | [] => [[]]
  | n :: r => flat_map (fun i => map (cons i) (indices r)) (seq 0 n)
  end.

(** [a.ravel()] *)
Definition ravel {A} (a : ndarray A) : list A := map (item a) (indices (shape a)).

(** ** RegionClassifier: [DICOMLoader] (src/ceus_app_pyqt/src/core/dicom_loader.py)
    and the converters it uses (src/ceus_app_pyqt/src/utils/converters.py) *)

Module Regions.

Definition pixels := ndarray Z.

(** One item of [SequenceOfUltrasoundRegions]; [None] is a missing attribute. *)
Record region_desc : Type := mk_region {
  RegionDataType : option Z;
  RegionFlags : option Z;
  RegionLocationMinX0 : option Z;
  RegionLocationMinY0 : option Z;
  RegionLocationMaxX1 : option Z;
  RegionLocationMaxY1 : option Z
}.

(** The attributes of the DICOM dataset the loader reads. *)
Record dataset : Type := mk_dataset {
  SequenceOfUltrasoundRegions : option (list region_desc);
  Manufacturer : option string;
  PhotometricInterpretation : option string
}.

(** The mutable fields of a [DICOMLoader] instance. *)
Record loader : Type := mk_loader {
  bmode_stack : option pixels;
  ceus_stack : option pixels;
  bmode_region_idx : option nat;
  ceus_region_idx : option nat
}.

(** State after [__init__]. *)
Definition init_loader : loader := mk_loader None None None None.

(** *** Strings *)

Definition lower_ascii (c : ascii) : ascii :=
  let n := nat_of_ascii c in
  if ((65 <=? n) && (n <=? 90))%nat then ascii_of_nat (n + 32) else c.

Fixpoint lower (s : string) : string :=
  match s with
  | EmptyString => EmptyString
  | String c r => String (lower_ascii c) (lower r)
  end.

(** [sub in s] *)
Fixpoint contains (sub s : string) : bool :=
  match s with
  | EmptyString => String.prefix sub EmptyString
  | String _ r => String.prefix sub s || contains sub r
  end.

(** *** Colour conversion *)

Definition clipQ (v lo hi : Q) : Q := Qmin (Qmax v lo) hi.

(** [ycbcr_to_rgb] on one [(H, W, 3)] frame of integer samples: the
    channels are computed in binary64, every product, sum and difference
    rounded, and [astype(np.uint8)] truncates the clipped, non-negative
    value. *)
Definition ycbcr_to_rgb (f : pixels) : pixels :=
  mk_ndarray
    (match shape f with h :: w :: _ => [h; w; 3%nat] | sh => sh end)
    (fun idx =>
       match idx with
       | [h; w; c] =>
           let y := inject_Z (item f [h; w; 0%nat]) in
           let cb := inject_Z (item f [h; w; 1%nat]) in
           let cr := inject_Z (item f [h; w; 2%nat]) in
           let r := f64 (y + f64 (f64 (1402 # 1000) * f64 (cr - 128))) in
           let g := f64 (f64 (y - f64 (f64 (344136 # 1000000) * f64 (cb - 128)))
                         - f64 (f64 (714136 # 1000000) * f64 (cr - 128))) in
           let b := f64 (y + f64 (f64 (1772 # 1000) * f64 (cb - 128))) in
           match c with
           | 0%nat => Qfloor (clipQ r 0 255)
           | 1%nat => Qfloor (clipQ g 0 255)
           | _ => Qfloor (clipQ b 0 255)
           end
       | _ => 0%Z
       end).

(** [stack[t]] *)
Definition frame_at (s : pixels) (t : nat) : pixels :=
  mk_ndarray (tl (shape s)) (fun idx => item s (t :: idx)).

(** [np.stack([g(f) for f in stack], axis=0)] *)
Definition stack_frames (s : pixels) (g : pixels -> pixels) : pixels :=
  mk_ndarray
    (hd 0%nat (shape s) :: shape (g (frame_at s 0)))
    (fun idx =>
       match idx with
       | t :: rest => item (g (frame_at s t)) rest
       | [] => 0%Z
       end).

Definition _convert_colorspace (ds : dataset) (stack : pixels) : pixels :=
  match PhotometricInterpretation ds with
  | Some photo =>
      if (negb (String.eqb photo EmptyString) && contains "YBR" photo
          && Nat.eqb (ndim stack) 4)%bool
      then stack_frames stack ycbcr_to_rgb
      else stack
  | None => stack
  end.

(** *** Colour variance *)

Section WithSqrt.

(** The square root inside [np.std]. *)
Variable sqrt : Q -> Q.

Definition mean (l : list Q) : Q := qsum l / inject_Z (Z.of_nat (length l)).

(** [np.std]: population standard deviation. *)
Definition std (l : list Q) : Q :=
  let m := mean l in
  sqrt (mean (map (fun v => Qabs (v - m) ^ 2) l)).

(** [frame[..., c].astype(float)], flattened. *)
Definition channel (frame : pixels) (c : nat) : list Q :=
  match shape frame with
  | [h; w; _] =>
      map (fun hw => inject_Z (item frame (hw ++ [c]))) (indices [h; w])
  | _ => []
  end.

Definition _color_variance (stack : pixels) : res Q :=
  if (Nat.eqb (ndim stack) 4 && Nat.eqb (last (shape stack) 0%nat) 3)%bool then
    let len := Z.of_nat (hd 0%nat (shape stack)) in
    let frame_idx := Z.min (len / 2) (len - 1) in
    if (frame_idx <? 0)%Z then Raised
    else
      let frame := frame_at stack (Z.to_nat frame_idx) in
      let r := channel frame 0 in
      let g := channel frame 1 in
      let b := channel frame 2 in
      let rg_var := std (zip_with Qminus r g) in
      let gb_var := std (zip_with Qminus g b) in
      let rb_var := std (zip_with Qminus r b) in
      Val (rg_var + gb_var + rb_var)
  else Val 0.

(** *** Region extraction and classification *)

(** An entry of [all_regions]: [(i, dtype, flags, x0, region_stack)]. *)
Definition region_entry : Type := (nat * option Z * option Z * Z * pixels)%type.

Definition entry_idx (e : region_entry) : nat :=
  let '(i, _, _, _, _) := e in i.
Definition entry_dtype (e : region_entry) : option Z :=
  let '(_, d, _, _, _) := e in d.
Definition entry_x0 (e : region_entry) : Z :=
  let '(_, _, _, x, _) := e in x.
Definition entry_stack (e : region_entry) : pixels :=
  let '(_, _, _, _, s) := e in s.

Definition dtype_is (v : Z) (d : option Z) : bool :=
  match d with
  | Some z => Z.eqb z v
  | None => false
  end.

(** [arr[:, y0:y1+1, x0:x1+1]] (with a trailing [:] for 4-D arrays), for
    bounds already clipped to the image. *)
Definition crop (arr : pixels) (y0 y1 x0 x1 : Z) : pixels :=
  let ny := Z.to_nat (y1 + 1 - y0) in
  let nx := Z.to_nat (x1 + 1 - x0) in
  mk_ndarray
    (match shape arr with
     | t :: _ :: _ :: rest => t :: ny :: nx :: rest
     | sh => sh
     end)
    (fun idx =>
       match idx with
       | t :: h :: w :: rest =>
           item arr (t :: (h + Z.to_nat y0)%nat :: (w + Z.to_nat x0)%nat :: rest)
       | _ => 0%Z
       end).

Definition clip_coord (v : Z) (size : nat) : Z :=
  Z.max 0 (Z.min v (Z.of_nat size - 1)).

(** Lines 100-127: one iteration of the parsing loop; [None] is [continue]. *)
Definition parse_region (arr : pixels) (i : nat) (reg : region_desc)
  : option region_entry :=
  match RegionLocationMinX0 reg, RegionLocationMinY0 reg,
        RegionLocationMaxX1 reg, RegionLocationMaxY1 reg with
  | Some x0, Some y0, Some x1, Some y1 =>
      let H := nth 1 (shape arr) 0%nat in
      let W := nth 2 (shape arr) 0%nat in
      let x0 := clip_coord x0 W in
      let y0 := clip_coord y0 H in
      let x1 := clip_coord x1 W in
      let y1 := clip_coord y1 H in
      if ((x1 <=? x0) || (y1 <=? y0))%Z then None
      else Some (i, RegionDataType reg, RegionFlags reg, x0, crop arr y0 y1 x0 x1)
  | _, _, _, _ => None
  end.

Fixpoint parse_regions (arr : pixels) (i : nat) (regs : list region_desc)
  : list region_entry :=
  match regs with
  | [] => []
  | reg :: r =>
      match parse_region arr i reg with
      | Some e => e :: parse_regions arr (S i) r
      | None => parse_regions arr (S i) r
      end
  end.

Definition type2_regions (all_regions : list region_entry) : list region_entry :=
  filter (fun e => dtype_is 2 (entry_dtype e)) all_regions.

Definition type1_regions (all_regions : list region_entry) : list region_entry :=
  filter (fun e => dtype_is 1 (entry_dtype e)) all_regions.

Definition manufacturer_lower (ds : dataset) : string :=
  match Manufacturer ds with
  | Some m => lower m
  | None => EmptyString
  end.

Definition set_ceus (ds : dataset) (e : region_entry) (st : loader) : loader :=
  mk_loader (bmode_stack st) (Some (_convert_colorspace ds (entry_stack e)))
            (bmode_region_idx st) (Some (entry_idx e)).

Definition set_bmode (ds : dataset) (e : region_entry) (st : loader) : loader :=
  mk_loader (Some (_convert_colorspace ds (entry_stack e))) (ceus_stack st)
            (Some (entry_idx e)) (ceus_region_idx st).

Definition _classify_regions (ds : dataset) (all_regions : list region_entry)
    (st : loader) : res loader :=
  let manufacturer := manufacturer_lower ds in
  let t2 := type2_regions all_regions in
  let t1 := type1_regions all_regions in
  match t2 with
  | e2 :: _ =>
      (* Case 1: explicit CEUS *)
      let st := set_ceus ds e2 st in
      match t1 with
      | e1 :: _ => Val (set_bmode ds e1 st)
      | [] => Val st
      end
  | [] =>
      if (2 <=? length t1)%nat then
        (* Case 2: split screen *)
        if contains "ge" manufacturer then
          let sorted_regions :=
            sort_by (fun a b => (entry_x0 a <=? entry_x0 b)%Z) t1 in
          match sorted_regions with
          | b :: c :: _ => Val (set_bmode ds b (set_ceus ds c st))
          | _ => Raised
          end
        else
          do scores <- map_res (fun e => do s <- _color_variance (entry_stack e);
                                         Val (e, s)) t1;
          let scores := sort_by (fun a b => Qle_bool (snd b) (snd a)) scores in
          match scores with
          | c :: b :: _ => Val (set_bmode ds (fst b) (set_ceus ds (fst c) st))
          | _ => Raised
          end
      else
        (* Case 3: single region *)
        match all_regions with
        | [e] => Val (set_ceus ds e st)
        | _ => Val st
        end
  end.

Definition _extract_regions (ds : dataset) (arr : pixels) (st : loader)
  : res loader :=
  match SequenceOfUltrasoundRegions ds with
  | None | Some [] =>
      Val (mk_loader (bmode_stack st) (Some (_convert_colorspace ds arr))
                     (bmode_region_idx st) (ceus_region_idx st))
  | Some regions =>
      _classify_regions ds (parse_regions arr 0 regions) st
  end.

End WithSqrt.

End Regions.

(** ** Preprocessor: [preprocess_ceus] (src/ceus_app_pyqt/src/core/preprocessing.py) *)

Module Preproc.

Definition farray := ndarray Q.

Definition pointwise (f : Q -> Q) (X : farray) : farray :=
  mk_ndarray (shape X) (fun idx => f (item X idx)).

(** [np.stack([to_gray(X[t]) for t in range(X.shape[0])], axis=0)] for an
    [(T, H, W, 3)] array: luminance of each pixel. *)
Definition to_gray_stack (X : farray) : farray :=
  match shape X with
  | [T; H; W; _] =>
      mk_ndarray [T; H; W]
        (fun idx =>
           match idx with
           | [t; h; w] =>
               (299 # 1000) * item X [t; h; w; 0%nat]
               + (587 # 1000) * item X [t; h; w; 1%nat]
               + (114 # 1000) * item X [t; h; w; 2%nat]
           | _ => 0
           end)
  | _ => X
  end.

(** [np.percentile(a, q)] with the default linear interpolation; [q] outside
    [[0, 100]] raises [ValueError], and so does (here) empty data. *)
Definition percentile (a : list Q) (q : Q) : res Q :=
  if (Qle_bool 0 q && Qle_bool q 100)%bool then
    match a with
    | [] => Raised
    | _ =>
        let s := sortQ a in
        let n := Z.of_nat (length a) in
        let pos := q / 100 * inject_Z (n - 1) in
        let lo := Qfloor pos in
        let hi := Z.min (lo + 1) (n - 1) in
        let frac := pos - inject_Z lo in
        let a_lo := nth (Z.to_nat lo) s 0 in
        let a_hi := nth (Z.to_nat hi) s 0 in
        Val (a_lo + (a_hi - a_lo) * frac)
    end
  else Raised.

(** [np.median] of a 1-D array. *)
Definition median (a : list Q) : Q :=
  let s := sortQ a in
  let n := length a in
  if Nat.even n then (nth (n / 2 - 1) s 0 + nth (n / 2) s 0) / 2
  else nth (n / 2) s 0.

(** Boundary handling of the SciPy filters: index [i] of an axis of length
    [n], for mode ['reflect'] ([d c b a | a b c d | d c b a]) and for mode
    ['nearest'] / [np.pad(..., mode='edge')]. *)
Definition reflect_index (n : nat) (i : Z) : nat :=
  match n with
  | O => O
  | _ =>
      let m := (i mod (2 * Z.of_nat n))%Z in
      if (m <? Z.of_nat n)%Z then Z.to_nat m
      else Z.to_nat (2 * Z.of_nat n - 1 - m)
  end.

Definition nearest_index (n : nat) (i : Z) : nat :=
  Z.to_nat (Z.max 0 (Z.min i (Z.of_nat n - 1))).

Fixpoint replace_nth (k : nat) (v : nat) (idx : list nat) : list nat :=
  match idx, k with
  | [], _ => []
  | _ :: r, O => v :: r
  | a :: r, S k' => a :: replace_nth k' v r
  end.

(** One-dimensional correlation along [axis] with an odd-length kernel [w]
    centred on the sample, boundaries handled by [bnd]. *)
Definition correlate1d (w : list Q) (bnd : nat -> Z -> nat) (axis : nat)
    (X : farray) : farray :=
  let n := nth axis (shape X) 0%nat in
  let radius := Z.of_nat (length w / 2) in
  mk_ndarray (shape X)
    (fun idx =>
       let c := Z.of_nat (nth axis idx 0%nat) in
       qsum (map (fun j =>
                    nth j w 0
                    * item X (replace_nth axis (bnd n (c + Z.of_nat j - radius)%Z) idx))
                 (seq 0 (length w)))).

(** [median_filter(X, size=(1, 3, 3))]: rank 4 of the nine neighbours in the
    frame, mode ['reflect'].  The size tuple fits 3-D arrays only. *)
Definition median_filter_133 (X : farray) : res farray :=
  match shape X with
  | [T; H; W] =>
      Val (mk_ndarray (shape X)
             (fun idx =>
                match idx with
                | [t; h; w] =>
                    let nb :=
                      flat_map
                        (fun dh =>
                           map (fun dw =>
                                  item X [t;
                                          reflect_index H (Z.of_nat h + dh)%Z;
                                          reflect_index W (Z.of_nat w + dw)%Z])
                               [(-1)%Z; 0%Z; 1%Z])
                        [(-1)%Z; 0%Z; 1%Z] in
                    nth 4 (sortQ nb) 0
                | _ => 0
                end))
  | _ => Raised
  end.

Section WithFloatLibrary.

(** [np.log1p] on finite non-negative input. *)
Variable log1p : Q -> Q.

(** SciPy's normalised Gaussian weights for a standard deviation and a
    radius: [2 * radius + 1] numbers. *)
Variable gaussian_kernel1d : Q -> nat -> list Q.

(** [int(truncate * sigma + 0.5)] with [truncate = 4.0]. *)
Definition kernel_radius (sigma : Q) : nat :=
  Z.to_nat (Qfloor (4 * sigma + (1 # 2))).

(** [gaussian_filter(X, sigma=(0, 0.6, 0.6))]: axis 0 is skipped, axes 1 and
    2 are filtered in turn.  The sigma tuple fits 3-D arrays only. *)
Definition gaussian_filter_spatial (X : farray) : res farray :=
  match shape X with
  | [_; _; _] =>
      let sigma := 6 # 10 in
      let w := gaussian_kernel1d sigma (kernel_radius sigma) in
      Val (correlate1d w reflect_index 2 (correlate1d w reflect_index 1 X))
  | _ => Raised
  end.

(** [np.median(X[:N], axis=0, keepdims=True)] followed by
    [np.maximum(X - baseline, 0)]. *)
Definition subtract_baseline (N : nat) (X : farray) : farray :=
  let T := hd 0%nat (shape X) in
  mk_ndarray (shape X)
    (fun idx =>
       match idx with
       | t :: rest =>
           let baseline :=
             median (map (fun t' => item X (t' :: rest)) (seq 0 (Nat.min N T))) in
           Qmax (item X idx - baseline) 0
       | [] => 0
       end).

(** [np.sum(rows, axis=0)] on float32 rows: the rows are added one after
    the other, each sum rounded to float32. *)
Definition sum_f32 (l : list Q) : Q :=
  match l with
  | [] => 0
  | p :: r => fold_left (fun acc v => f32 (acc + v)) r p
  end.

(** Lines 77-86: moving average over [k] frames with edge padding.  The
    kernel [np.ones((k, 1, 1), dtype=np.float32) / k] holds the float32
    nearest to 1/k, and the products and their sum are float32 too.  The
    pad widths fit 3-D arrays only. *)
Definition temporal_mean (t_win : Z) (X : farray) : res farray :=
  let k := Z.max 1 t_win in
  let k := if (k mod 2 =? 1)%Z then k else (k + 1)%Z in
  let pad := (k / 2)%Z in
  let kernel := f32 (1 / inject_Z k) in
  match shape X with
  | [T; _; _] =>
      Val (mk_ndarray (shape X)
             (fun idx =>
                match idx with
                | t :: rest =>
                    sum_f32
                      (map (fun j =>
                              f32 (item X (nearest_index T (Z.of_nat t + Z.of_nat j - pad)%Z
                                             :: rest)
                                   * kernel))
                           (seq 0 (Z.to_nat k)))
                | [] => 0
                end))
  | _ => Raised
  end.

Definition str_is (s : string) (o : option string) : bool :=
  match o with
  | Some v => String.eqb v s
  | None => false
  end.

(** Lines 40-42: convert to grayscale if RGB. *)
Definition grayscale_step (X : farray) : farray :=
  if (Nat.eqb (ndim X) 4 && Nat.eqb (last (shape X) 0%nat) 3)%bool
  then to_gray_stack X else X.

(** Lines 44-48: normalization by global percentiles. *)
Definition normalize_step (p_lo p_hi : Q) (X : farray) : res farray :=
  do p1 <- percentile (ravel X) p_lo;
  do p99 <- percentile (ravel X) p_hi;
  let p99 := if Qlt_bool p1 p99 then p99 else p1 + (1 # 1000) in
  Val (pointwise (fun v => Qmin (Qmax ((v - p1) / (p99 - p1)) 0) 1) X).

(** Lines 50-53: log-compression. *)
Definition log_step (use_log : bool) (X : farray) : farray :=
  if use_log then pointwise (fun v => log1p (20 * v) / log1p 20) X else X.

(** Lines 55-59: spatial smoothing. *)
Definition spatial_step (spatial : option string) (X : farray) : res farray :=
  if str_is "median" spatial then median_filter_133 X
  else if str_is "gaussian" spatial then gaussian_filter_spatial X
  else Val X.

(** Lines 61-70: background subtraction. *)
Definition baseline_step (baseline_frames : option Z) (X : farray) : farray :=
  let T := Z.of_nat (hd 0%nat (shape X)) in
  let baseline_frames :=
    match baseline_frames with Some b => b | None => 0%Z end in
  let N :=
    if (baseline_frames <=? 0)%Z then 0%Z
    else Z.min baseline_frames (Z.max 1 (T / 10)) in
  if (0 <? N)%Z then subtract_baseline (Z.to_nat N) X else X.

(** Lines 72-86: temporal filter. *)
Definition temporal_step (temporal : option string) (t_win : Z) (X : farray)
  : res farray :=
  let T := Z.of_nat (hd 0%nat (shape X)) in
  if (str_is "gaussian" temporal && (1 <? T)%Z)%bool then
    let sig := Qmax (1 # 2) (inject_Z (t_win - 1) / 2) in
    Val (correlate1d (gaussian_kernel1d sig (kernel_radius sig))
           nearest_index 0 X)
  else if (str_is "mean" temporal && (1 <? T)%Z)%bool then
    temporal_mean t_win X
  else Val X.

Definition preprocess_ceus (stack : farray) (use_log : bool) (p_lo p_hi : Q)
    (spatial temporal : option string) (t_win : Z) (baseline_frames : option Z)
  : res farray :=
  if negb (Nat.eqb (ndim stack) 3 || Nat.eqb (ndim stack) 4)%bool then Raised
  else
    let X := grayscale_step stack in
    do X <- normalize_step p_lo p_hi X;
    let X := log_step use_log X in
    do X <- spatial_step spatial X;
    let X := baseline_step baseline_frames X in
    temporal_step temporal t_win X.

End WithFloatLibrary.

End Preproc.

(** ** ModelFitter: [fit_model], [fit_models]
    (src/ceus_app_pyqt/src/analysis/models.py) *)

Module Fitter.

(** A float that may be [np.inf]. *)
Inductive ext : Type :=
| fin (q : Q)
| inf.

Definition ext_lt (a b : ext) : bool :=
  match a, b with
  | fin x, fin y => Qlt_bool x y
  | fin _, inf => true
  | inf, _ => false
  end.

(** [np.clip(v, lo, hi)] with possibly infinite upper bound. *)
Definition clip_ext (v : Q) (lo hi : ext) : Q :=
  let v := match lo with fin l => Qmax v l | inf => v end in
  match hi with fin h => Qmin v h | inf => v end.

(** The dict that [fit_model] returns. *)
Record fit : Type := mk_fit {
  params : list Q;
  rss : ext;
  y_fit : list Q
}.

(** A model function [func(t, *params)]. *)
Definition model_func := list Q -> list Q -> res (list Q).

Definition qmax_list (l : list Q) : Q :=
  match l with
  | [] => 0
  | v :: r => fold_left Qmax r v
  end.

(** [_bounds]: the third branch serves every model that is neither
    ["lognormal"] nor ["gamma"]. *)
Definition _bounds (model : string) (t y : list Q) : list ext * list ext :=
  let tmax := match t with [] => 1 | _ => qmax_list t end in
  let Cmax := Qmax (match y with [] => 1 | _ => qmax_list y end) 1 in
  if String.eqb model "lognormal" then
    ([fin 0; fin 0; fin (1 # 100); fin 0; fin 0],
     [inf; fin 10; fin 2; fin tmax; fin Cmax])
  else if String.eqb model "gamma" then
    ([fin 0; fin (1 # 1000); fin (1 # 1000); fin 0; fin 0],
     [inf; fin 20; fin 20; fin tmax; fin Cmax])
  else
    ([fin 0; fin (1 # 1000); fin (1 # 1000); fin 0; fin 0],
     [inf; fin 100; fin 20; fin tmax; fin Cmax]).

(** [a[-k]] for [k >= 1] on a list long enough; [IndexError] otherwise. *)
Definition from_end {A} (a : list A) (k : nat) : option A :=
  if (k <=? length a)%nat then nth_error a (length a - k) else None.

Fixpoint set_nth {A} (i : nat) (v : A) (a : list A) : list A :=
  match a, i with
  | [], _ => []
  | _ :: r, O => v :: r
  | x :: r, S i' => x :: set_nth i' v r
  end.

(** [jitter[-k] = np.clip(jitter[-k], lb[-k], ub[-k])] *)
Definition clip_from_end (k : nat) (jitter : list Q) (lb ub : list ext)
  : res (list Q) :=
  match from_end jitter k, from_end lb k, from_end ub k with
  | Some v, Some l, Some u =>
      Val (set_nth (length jitter - k) (clip_ext v l u) jitter)
  | _, _, _ => Raised
  end.

Section WithOptimizer.

(** [MODEL_FUNCS]: the four kinetic curves are built from [exp], [log] and
    [sqrt]; a missing key raises [KeyError]. *)
Variable MODEL_FUNCS : string -> option model_func.

(** [_initial_guesses(model, t, y, t0_hint, C_hint)], the data-seeded start. *)
Variable _initial_guesses : string -> list Q -> list Q -> Q -> Q -> list Q.

(** [np.percentile(y, 10)] for the default baseline hint. *)
Variable percentile10 : list Q -> Q.

(** The successive results of [rng.uniform(0.5, 1.5, size=p0.shape)] of the
    generator [np.random.default_rng(random_state)] that every call of
    [fit_model] creates anew. *)
Variable uniform_draws : nat -> list Q.

(** [scipy.optimize.curve_fit(func, t, y, p0=guess, bounds=(lb, ub),
    maxfev=20000)[0]], or [None] when SciPy could not be imported. *)
Variable curve_fit :
  option (model_func -> list Q -> list Q -> list Q -> list ext * list ext
          -> res (list Q)).

(** [float(np.sum((y - yhat) ** 2))] *)
Definition residual_sum_squares (y yhat : list Q) : res Q :=
  do r <- broadcast2 Qminus y yhat;
  Val (qsum (map (fun v => v ^ 2) r)).

(** Lines 99-104: the jittered starts. *)
Fixpoint jittered_starts (p0 : list Q) (lb ub : list ext) (first count : nat)
  : res (list (list Q)) :=
  match count with
  | O => Val []
  | S c =>
      let jitter := zip_with Qmult p0 (uniform_draws first) in
      do jitter <- clip_from_end 2 jitter lb ub;
      do jitter <- clip_from_end 1 jitter lb ub;
      do rest <- jittered_starts p0 lb ub (S first) c;
      Val (jitter :: rest)
  end.

(** Lines 107-118: one pass of the loop over the starts. *)
Definition try_start (func : model_func) (t y : list Q)
    (bounds : list ext * list ext) (best : fit) (guess : list Q) : fit :=
  try_except
    (do py <- match curve_fit with
              | Some cf =>
                  do popt <- cf func t y guess bounds;
                  do yhat <- func t popt;
                  Val (popt, yhat)
              | None =>
                  do yhat <- func t guess;
                  Val (guess, yhat)
              end;
     let '(popt, yhat) := py in
     do r <- residual_sum_squares y yhat;
     Val (if ext_lt (fin r) (rss best) then mk_fit popt (fin r) yhat else best))
    best.

Definition fit_model (model : string) (t y : list Q)
    (t0_hint C_hint : option Q) (n_starts : Z) : res fit :=
  match MODEL_FUNCS model with
  | None => Raised
  | Some func =>
      let t0_hint :=
        match t0_hint with
        | Some v => v
        | None => match t with v :: _ => v | [] => 0 end
        end in
      let C_hint :=
        match C_hint with
        | Some v => v
        | None => match y with [] => 0 | _ => percentile10 y end
        end in
      let p0 := _initial_guesses model t y t0_hint C_hint in
      let '(lb, ub) := _bounds model t y in
      do y0 <- func t p0;
      let best := mk_fit p0 inf y0 in
      do jitters <- jittered_starts p0 lb ub 0
                      (Z.to_nat (Z.max 1 (n_starts - 1)));
      let starts := p0 :: jitters in
      Val (fold_left (try_start func t y (lb, ub)) starts best)
  end.

(** The entry that [fit_models] stores for one model: the record of
    [fit_model], or Python's [None] when it raises. *)
Definition fit_entry (t y : list Q) (t0_hint C_hint : option Q) (n_starts : Z)
    (m : string) : option fit :=
  match fit_model m t y t0_hint C_hint n_starts with
  | Val r => Some r
  | Raised => None
  end.

(** The returned dict, filled in the order of [models]: a name requested
    again overwrites its entry and keeps its place. *)
Definition fit_models (t y : list Q) (models : list string)
    (t0_hint C_hint : option Q) (n_starts : Z) : dict (option fit) :=
  fold_left
    (fun out m => dict_set m (fit_entry t y t0_hint C_hint n_starts m) out)
    models [].

End WithOptimizer.

End Fitter.

(** ** The steps of [fit_model] taken apart
    (src/ceus_app_pyqt/src/analysis/models.py, lines 90-114) *)

Module FitterSteps.
Import Fitter.

Section WithOptimizer.

Variable _initial_guesses : string -> list Q -> list Q -> Q -> Q -> list Q.
Variable percentile10 : list Q -> Q.
Variable uniform_draws : nat -> list Q.
Variable curve_fit :
  option (model_func -> list Q -> list Q -> list Q -> list ext * list ext
          -> res (list Q)).

(** The [try] body of lines 108-114 for one start: the optimised
    parameters, their curve and its residual sum of squares. *)
Definition attempt (func : model_func) (t y : list Q)
    (bounds : list ext * list ext) (guess : list Q)
  : res (list Q * list Q * Q) :=
  do py <- match curve_fit with
           | Some cf =>
               do popt <- cf func t y guess bounds;
               do yhat <- func t popt;
               Val (popt, yhat)
           | None =>
               do yhat <- func t guess;
               Val (guess, yhat)
           end;
  let '(popt, yhat) := py in
  do r <- residual_sum_squares y yhat;
  Val (popt, yhat, r).

(** Lines 90-104: the list of starts. *)
Definition starts_of (model : string) (t y : list Q)
    (t0_hint C_hint : option Q) (n_starts : Z) : res (list (list Q)) :=
  let t0_hint :=
    match t0_hint with
    | Some v => v
    | None => match t with v :: _ => v | [] => 0 end
    end in
  let C_hint :=
    match C_hint with
    | Some v => v
    | None => match y with [] => 0 | _ => percentile10 y end
    end in
  let p0 := _initial_guesses model t y t0_hint C_hint in
  let '(lb, ub) := _bounds model t y in
  do jitters <- jittered_starts uniform_draws p0 lb ub 0
                  (Z.to_nat (Z.max 1 (n_starts - 1)));
  Val (p0 :: jitters).

End WithOptimizer.

End FitterSteps.

(** ** Frame rate: [DICOMLoader.get_fps]
    (src/ceus_app_pyqt/src/core/dicom_loader.py) *)

Module Timing.

(** The timing entries of [self.metadata]; [None] is a missing attribute. *)
Record metadata : Type := mk_metadata {
  FrameTime : option Q;
  CineRate : option Q;
  RecommendedDisplayFrameRate : option Q
}.

(** [get_fps]; [ceus_len] is [len(self.ceus_stack)] when the stack is set.
    Dividing by a zero [FrameTime] raises [ZeroDivisionError].  [FrameTime]
    is a float (the double [f64 ft]) and both quotients are binary64
    divisions. *)
Definition get_fps (md : metadata) (ceus_len : option nat) : res Q :=
  match FrameTime md with
  | Some ft => if Qeq_bool ft 0 then Raised else Val (f64 (1000 / f64 ft))
  | None =>
      match CineRate md with
      | Some r => Val r
      | None =>
          match RecommendedDisplayFrameRate md with
          | Some r => Val r
          | None =>
              match ceus_len with
              | Some n => Val (f64 (inject_Z (Z.of_nat n) / 60))
              | None => Val 10
              end
          end
      end
  end.

End Timing.

(** ** ROI validation: [validate_roi]
    (src/ceus_app_pyqt/src/utils/validators.py) *)

Module Validators.

Definition roi : Type := (Z * Z * Z * Z)%type.

(** [validate_roi(roi, (H, W))]: [(False, None)] is [None] here. *)
Definition validate_roi (r : roi) (H W : Z) : option roi :=
  let '(x0, y0, x1, y1) := r in
  let x0_clipped := Z.max 0 (Z.min x0 (W - 1)) in
  let y0_clipped := Z.max 0 (Z.min y0 (H - 1)) in
  let x1_clipped := Z.max 0 (Z.min x1 (W - 1)) in
  let y1_clipped := Z.max 0 (Z.min y1 (H - 1)) in
  let width := (x1_clipped - x0_clipped + 1)%Z in
  let height := (y1_clipped - y0_clipped + 1)%Z in
  if ((width <? 5) || (height <? 5))%Z then None
  else Some (x0_clipped, y0_clipped, x1_clipped, y1_clipped).

End Validators.

(** ** TIC extraction: [extract_tic_from_roi]
    (src/ceus_app_pyqt/src/core/tic_analysis.py) *)

Module Tic.

(** Lines 36-40: luminance frames of an [(T, H, W, 3)] stack, the stack
    itself (as float32) otherwise. *)
Definition gray_stack (stack : ndarray Q) : ndarray Q :=
  if (Nat.eqb (ndim stack) 4 && Nat.eqb (last (shape stack) 0%nat) 3)%bool
  then Preproc.to_gray_stack stack else stack.

(** [stack_gray[:, y0:y1+1, x0:x1+1].reshape(T, -1)[t]]: the samples of
    frame [t] inside the rectangle, row by row. *)
Definition roi_samples (X : ndarray Q) (x0 y0 x1 y1 : Z) (t : nat) : list Q :=
  flat_map
    (fun dy =>
       map (fun dx => item X [t; (Z.to_nat y0 + dy)%nat; (Z.to_nat x0 + dx)%nat])
           (seq 0 (Z.to_nat (x1 + 1 - x0))))
    (seq 0 (Z.to_nat (y1 + 1 - y0))).

Section WithMean.

(** [.mean(axis=1)] on one row of the reshaped ROI: NumPy's float32
    reduction. *)
Variable mean : list Q -> Q.

(** [extract_tic_from_roi(stack, roi, fps)]: [(time, vi, dvi)], all
    float32.  An invalid ROI raises [ValueError]; so does a stack without
    frames, at [np.stack] or at [reshape(T, -1)].  Dividing by [fps = 0]
    does not raise: the time axis then holds no finite number ([nan] and
    [inf]), written [None]. *)
Definition extract_tic_from_roi (stack : ndarray Q) (r : Validators.roi)
    (fps : Q) : res (list (option Q) * list Q * list Q) :=
  let H := Z.of_nat (nth 1 (shape stack) 0%nat) in
  let W := Z.of_nat (nth 2 (shape stack) 0%nat) in
  match Validators.validate_roi r H W with
  | None => Raised
  | Some (x0, y0, x1, y1) =>
      let stack_gray := gray_stack stack in
      let T := hd 0%nat (shape stack_gray) in
      if Nat.eqb T 0 then Raised
      else
        let roi_series :=
          map (fun t => mean (roi_samples stack_gray x0 y0 x1 y1 t)) (seq 0 T) in
        let time :=
          map (fun k => if Qeq_bool fps 0 then None
                        else Some (f32 (inject_Z (Z.of_nat k) / f32 fps)))
              (seq 0 T) in
        do baseline <- getitem roi_series 0;
        let dvi := map (fun v => f32 (v - baseline)) roi_series in
        Val (time, roi_series, dvi)
  end.

End WithMean.

End Tic.

(** ** Goodness of fit: [r2_score]
    (src/ceus_app_pyqt/src/models/metrics.py) *)

Module FitMetrics.

Definition mean (l : list Q) : Q := qsum l / inject_Z (Z.of_nat (length l)).

(** [r2_score(y_true, y_pred)] on arrays of equal length (other lengths
    broadcast or raise in NumPy). *)
Definition r2_score (y_true y_pred : list Q) : res Q :=
  do r <- broadcast2 Qminus y_true y_pred;
  let ss_res := qsum (map (fun v => v ^ 2) r) in
  let m := mean y_true in
  let ss_tot := qsum (map (fun v => (v - m) ^ 2) y_true)
                + (1 # 1000000000000) in
  Val (1 - ss_res / ss_tot).

End FitMetrics.

(** ** Manual flash override: [set_flash_manual]
    (src/ceus_app_pyqt/src/ui/napari_main_window.py, lines 686-704) *)

Module FlashManual.
Import Flash.

Section WithTrace.

(** [ndarray.mean] over the samples of one frame, as in [Flash]. *)
Variable mean : frame -> Q.

(** The flash index is the current frame; the washout is searched in the
    20 frames from it.  Returns [(flash_idx, washout_idx)]. *)
Definition set_flash_manual (ceus_data : stack) (current_frame : Z)
  : res (Z * Z) :=
  let flash_idx := current_frame in
  let search_window := 20%Z in
  let intensities := map mean ceus_data in
  let search_start := flash_idx in
  let search_end :=
    Z.min (Z.of_nat (length intensities)) (flash_idx + search_window) in
  do j <- argmin (slice intensities search_start search_end);
  Val (flash_idx, (search_start + Z.of_nat j)%Z).

End WithTrace.

End FlashManual.

(** ** ROI bookkeeping: [ROI], [ROIManager]
    (src/ceus_app_pyqt/src/core/roi_manager.py) *)

Module RoiManager.

Record ROI : Type := mk_ROI {
  label : string;
  polygon : list (Q * Q);
  color : Z * Z * Z;
  visible : bool;
  metadata : list (string * string)
}.

Definition set_label (r : ROI) (l : string) : ROI :=
  mk_ROI l (polygon r) (color r) (visible r) (metadata r).

(** The state of a [ROIManager]: ROI objects are created by [add_roi] only,
    so no object occurs twice in [rois]. *)
Record manager : Type := mk_manager {
  rois : list ROI;
  _next_id : Z
}.

Definition init_manager : manager := mk_manager [] 1.

Definition colors : list (Z * Z * Z) :=
  [(255, 0, 0); (0, 255, 0); (0, 0, 255); (255, 255, 0);
   (255, 0, 255); (0, 255, 255); (255, 128, 0); (128, 0, 255)]%Z.

(** [f"ROI_{n}"] *)
Definition auto_label (n : Z) : string :=
  ("ROI_" ++ DecimalString.NilZero.string_of_int (Z.to_int n))%string.

Definition labels (m : manager) : list string := map label (rois m).

(** [add_roi(polygon, label, color)]: the new state and the ROI returned. *)
Definition add_roi (m : manager) (polygon : list (Q * Q))
    (lbl : option string) (col : option (Z * Z * Z)) : manager * ROI :=
  let '(lbl, next_id) :=
    match lbl with
    | Some l => (l, _next_id m)
    | None => (auto_label (_next_id m), (_next_id m + 1)%Z)
    end in
  let col :=
    match col with
    | Some c => c
    | None => nth (length (rois m) mod length colors) colors (0, 0, 0)%Z
    end in
  let roi := mk_ROI lbl polygon col true [] in
  (mk_manager (rois m ++ [roi]) next_id, roi).

(** [get_roi(label)]: the first ROI carrying the label. *)
Definition get_roi (m : manager) (lbl : string) : option ROI :=
  find (fun r => String.eqb (label r) lbl) (rois m).

(** The loop of [remove_roi]: pop the first ROI carrying the label. *)
Fixpoint remove_first (lbl : string) (l : list ROI) : option (list ROI) :=
  match l with
  | [] => None
  | r :: rest =>
      if String.eqb (label r) lbl then Some rest
      else match remove_first lbl rest with
           | Some rest' => Some (r :: rest')
           | None => None
           end
  end.

Definition remove_roi (m : manager) (lbl : string) : manager * bool :=
  match remove_first lbl (rois m) with
  | Some l => (mk_manager l (_next_id m), true)
  | None => (m, false)
  end.

(** [roi.label = new_label] on the object that [get_roi] returns: the first
    ROI carrying [old_label] changes in place. *)
Fixpoint relabel_first (old_label new_label : string) (l : list ROI)
  : list ROI :=
  match l with
  | [] => []
  | r :: rest =>
      if String.eqb (label r) old_label then set_label r new_label :: rest
      else r :: relabel_first old_label new_label rest
  end.

Definition rename_roi (m : manager) (old_label new_label : string)
  : manager * bool :=
  if existsb (fun r => String.eqb (label r) new_label) (rois m) then (m, false)
  else match get_roi m old_label with
       | None => (m, false)
       | Some _ =>
           (mk_manager (relabel_first old_label new_label (rois m))
                       (_next_id m), true)
       end.

Definition get_all_visible (m : manager) : list ROI :=
  filter visible (rois m).

Definition clear (m : manager) : manager := mk_manager [] 1.

End RoiManager.

(** ** Motion compensation: [_compute_reference]
    (src/ceus_app_pyqt/src/core/motion_compensation.py) *)

Module Motion.

(** [to_gray] applied to every frame: luminance for an [(T, H, W, 3)]
    stack, the samples themselves otherwise. *)
Definition gray_frames (stack : ndarray Q) : ndarray Q :=
  if (Nat.eqb (ndim stack) 4 && Nat.eqb (last (shape stack) 0%nat) 3)%bool
  then Preproc.to_gray_stack stack else stack.

Definition range (a b : Z) : list nat :=
  seq (Z.to_nat a) (Z.to_nat (b - a)).

(** [_compute_reference(register_stack, skip_first, ref_window)]: the
    reference image with the bounds that the info string
    ["median[start:end]"] shows.  [np.stack] of no frame raises
    [ValueError]. *)
Definition _compute_reference (register_stack : ndarray Q)
    (skip_first ref_window : Z) : res (ndarray Q * (Z * Z)) :=
  let T := Z.of_nat (hd 0%nat (shape register_stack)) in
  let start := Z.min (Z.max 0 skip_first) (Z.max 0 (T - 1)) in
  let end_ := Z.min T (start + Z.max 1 ref_window) in
  match range start end_ with
  | [] => Raised
  | frames =>
      let gray := gray_frames register_stack in
      let ref_gray :=
        mk_ndarray (tl (shape gray))
          (fun idx => Preproc.median (map (fun t => item gray (t :: idx)) frames)) in
      Val (ref_gray, (start, end_))
  end.

End Motion.

(** * Properties *)

(** ** Rounding *)

Lemma pow2_pos (e : Z) : 0 < pow2 e.
Proof.
  destruct e as [|p|p]; cbn [pow2]; try reflexivity.
  change 0 with (inject_Z 0). rewrite <- Zlt_Qlt. apply Z.pow_pos_nonneg; lia.
Qed.

Lemma round_half_even_nonneg (q : Q) : 0 <= q -> (0 <= round_half_even q)%Z.
Proof.
  intros H. unfold round_half_even.
  assert (Hf : (0 <= Qfloor q)%Z).
  { change 0%Z with (Qfloor 0). apply Qfloor_resp_le. exact H. }
  destruct (Qcompare _ _); [destruct (Z.even _)| |]; lia.
Qed.

(** Equal rationals round to the same number, whatever their fractions. *)
Lemma round_float_comp (prec : Z) (q q' : Q) :
  q == q' -> round_float prec q = round_float prec q'.
Proof.
  intros H. unfold round_float. rewrite (Qred_complete q q' H). reflexivity.
Qed.

Lemma round_float_zero (prec : Z) (q : Q) : q == 0 -> round_float prec q = 0.
Proof. intros H. rewrite (round_float_comp prec q 0 H). reflexivity. Qed.

Lemma round_float_nonneg (prec : Z) (q : Q) : 0 <= q -> 0 <= round_float prec q.
Proof.
  intros H. unfold round_float. cbv zeta.
  destruct (Qeq_bool (Qred q) 0); [apply Qle_refl|].
  rewrite Qred_correct.
  set (e := (ilog2 (Qabs (Qred q)) - (prec - 1))%Z).
  pose proof (pow2_pos e) as Hp.
  apply Qmult_le_0_compat; [|lra].
  change 0 with (inject_Z 0). rewrite <- Zle_Qle.
  apply round_half_even_nonneg.
  apply Qle_shift_div_l; [exact Hp|]. rewrite Qred_correct. lra.
Qed.

(** Powers of two, and the binary logarithm used to place the exponent. *)

Lemma pow2_Qpower (e : Z) : pow2 e == 2 ^ e.
Proof.
  destruct e as [|p|p]; cbn [pow2].
  - reflexivity.
  - rewrite Zpower_Qpower by lia. reflexivity.
  - change (2 ^ Z.neg p) with (/ (2 ^ Z.pos p)).
    rewrite <- (Zpower_Qpower 2 (Z.pos p)) by lia.
    rewrite <- Pos2Z.inj_pow. reflexivity.
Qed.

Lemma pow2_add (a b : Z) : pow2 (a + b) == pow2 a * pow2 b.
Proof. rewrite !pow2_Qpower. apply Qpower_plus. discriminate. Qed.

Lemma pow2_nonneg (e : Z) : (0 <= e)%Z -> pow2 e = inject_Z (2 ^ e).
Proof. destruct e as [|p|p]; intros H; try reflexivity. lia. Qed.

Lemma pow2_ge_one (e : Z) : (0 <= e)%Z -> 1 <= pow2 e.
Proof.
  intros H. rewrite pow2_nonneg by exact H.
  change 1 with (inject_Z 1). rewrite <- Zle_Qle.
  assert (0 < 2 ^ e)%Z by (apply Z.pow_pos_nonneg; lia). lia.
Qed.

Lemma pow2_mono (a b : Z) : (a <= b)%Z -> pow2 a <= pow2 b.
Proof.
  intros H. replace b with (a + (b - a))%Z by lia. rewrite pow2_add.
  pose proof (pow2_pos a). pose proof (pow2_ge_one (b - a) ltac:(lia)). nra.
Qed.

Lemma ilog2_upper (q : Q) :
  (ilog2 q <= Z.log2 (Qnum q) - Z.log2 (Zpos (Qden q)))%Z.
Proof. unfold ilog2. destruct (Qle_bool _ _); lia. Qed.

Lemma ilog2_lower (q : Q) : 0 < q -> pow2 (ilog2 q) <= q.
Proof.
  intros Hq. unfold ilog2. cbv zeta.
  destruct (Qle_bool _ q) eqn:E; [apply Qle_bool_iff; exact E|].
  destruct q as [a b]. cbn [Qnum Qden] in *.
  assert (Ha : (0 < a)%Z) by (unfold Qlt in Hq; simpl in Hq; lia).
  pose proof (Z.log2_spec a Ha) as [Hla _].
  pose proof (Z.log2_spec (Zpos b) ltac:(lia)) as [_ Hlb].
  pose proof (Z.log2_nonneg a) as Na.
  pose proof (Z.log2_nonneg (Zpos b)) as Nb.
  set (la := Z.log2 a) in *. set (lb := Z.log2 (Zpos b)) in *.
  assert (E1 : pow2 (la - lb - 1) * pow2 (lb + 1) == pow2 la).
  { rewrite <- pow2_add. replace (la - lb - 1 + (lb + 1))%Z with la by lia.
    reflexivity. }
  rewrite (pow2_nonneg la) in E1 by lia.
  rewrite (pow2_nonneg (lb + 1)) in E1 by lia.
  pose proof (pow2_pos (la - lb - 1)) as Hp.
  assert (Hb : inject_Z (Zpos b) <= inject_Z (2 ^ (lb + 1)))
    by (rewrite <- Zle_Qle; unfold Z.succ in Hlb; lia).
  assert (Hal : inject_Z (2 ^ la) <= inject_Z a) by (rewrite <- Zle_Qle; lia).
  assert (Hm : pow2 (la - lb - 1) * inject_Z (Zpos b) <= inject_Z a) by nra.
  rewrite (Qmake_Qdiv a b). apply Qle_shift_div_l; [reflexivity | exact Hm].
Qed.

(** Rounding to an integer does not cross an integer bound. *)
Lemma round_half_even_le (q : Q) (n : Z) :
  q <= inject_Z n -> (round_half_even q <= n)%Z.
Proof.
  intros H. unfold round_half_even. cbv zeta.
  assert (Hf : (Qfloor q <= n)%Z).
  { rewrite <- (Qfloor_Z n). apply Qfloor_resp_le. exact H. }
  destruct (Z.eq_dec (Qfloor q) n) as [E|E].
  - assert (Hlt : Qcompare (q - inject_Z (Qfloor q)) (1 # 2) = Lt).
    { apply -> Qlt_alt. rewrite E. lra. }
    rewrite Hlt. lia.
  - destruct (Qcompare _ _); [destruct (Z.even _)| |]; lia.
Qed.

Lemma round_half_even_ge (q : Q) (n : Z) :
  inject_Z n <= q -> (n <= round_half_even q)%Z.
Proof.
  intros H. unfold round_half_even. cbv zeta.
  assert (Hf : (n <= Qfloor q)%Z).
  { rewrite <- (Qfloor_Z n). apply Qfloor_resp_le. exact H. }
  destruct (Qcompare _ _); [destruct (Z.even _)| |]; lia.
Qed.

Lemma Qabs_positive (q : Q) : 0 < q -> Qabs q = q.
Proof.
  destruct q as [[|a|a] b]; intros H; try reflexivity;
    unfold Qlt in H; simpl in H; lia.
Qed.

(** Without a bound on the exponent a positive number never rounds to
    zero, and a number that is at most 1 stays at most 1. *)
Lemma round_float_pos (prec : Z) (q : Q) :
  (1 <= prec)%Z -> 0 < q -> 0 < round_float prec q.
Proof.
  intros Hp Hq. unfold round_float. cbv zeta.
  assert (Hq' : 0 < Qred q) by (rewrite Qred_correct; exact Hq).
  destruct (Qeq_bool (Qred q) 0) eqn:E.
  { apply Qeq_bool_eq in E. lra. }
  rewrite Qred_correct, (Qabs_positive _ Hq').
  set (e := (ilog2 (Qred q) - (prec - 1))%Z).
  pose proof (pow2_pos e) as Pe.
  pose proof (ilog2_lower _ Hq') as Hl.
  pose proof (pow2_mono e (ilog2 (Qred q)) ltac:(unfold e; lia)) as Hm.
  assert (H1 : inject_Z 1 <= Qred q / pow2 e).
  { apply Qle_shift_div_l; [exact Pe|]. change (inject_Z 1) with 1. lra. }
  apply round_half_even_ge in H1.
  assert (0 < inject_Z (round_half_even (Qred q / pow2 e))).
  { change 0 with (inject_Z 0). rewrite <- Zlt_Qlt. lia. }
  nra.
Qed.

Lemma round_float_le_one (prec : Z) (q : Q) :
  (1 <= prec)%Z -> q <= 1 -> round_float prec q <= 1.
Proof.
  intros Hp Hq. unfold round_float. cbv zeta.
  assert (Hq' : Qred q <= 1) by (rewrite Qred_correct; exact Hq).
  destruct (Qeq_bool (Qred q) 0) eqn:E; [discriminate|].
  rewrite Qred_correct.
  set (e := (ilog2 (Qabs (Qred q)) - (prec - 1))%Z).
  pose proof (pow2_pos e) as Pe.
  destruct (Qlt_le_dec 0 (Qred q)) as [Hpos|Hneg].
  - assert (He : (e <= 0)%Z).
    { unfold e. rewrite (Qabs_positive _ Hpos).
      pose proof (ilog2_upper (Qred q)) as Hu.
      destruct (Qred q) as [a b]. cbn [Qnum Qden] in *.
      assert (a <= Zpos b)%Z by (unfold Qle in Hq'; simpl in Hq'; lia).
      pose proof (Z.log2_le_mono a (Zpos b) ltac:(lia)). lia. }
    assert (E1 : pow2 e * pow2 (- e) == 1).
    { rewrite <- pow2_add. replace (e + - e)%Z with 0%Z by lia. reflexivity. }
    rewrite (pow2_nonneg (- e)) in E1 by lia.
    assert (Hx : Qred q / pow2 e <= inject_Z (2 ^ (- e))).
    { apply Qle_shift_div_r; [exact Pe|]. nra. }
    apply round_half_even_le in Hx. rewrite Zle_Qle in Hx.
    nra.
  - assert (Hx : Qred q / pow2 e <= inject_Z 0).
    { apply Qle_shift_div_r; [exact Pe|]. change (inject_Z 0) with 0. lra. }
    apply round_half_even_le in Hx. rewrite Zle_Qle in Hx.
    change (inject_Z 0) with 0 in Hx. nra.
Qed.

Lemma round_float_nonzero (prec : Z) (q : Q) :
  (1 <= prec)%Z -> 0 < q -> ~ round_float prec q == 0.
Proof. intros Hp Hq E. pose proof (round_float_pos prec q Hp Hq). lra. Qed.

(** ** Comparison helpers *)

Lemma Qlt_bool_iff a b : Qlt_bool a b = true <-> a < b.
Proof.
  unfold Qlt_bool. rewrite negb_true_iff.
  destruct (Qle_bool b a) eqn:E.
  - apply Qle_bool_iff in E. split; [discriminate | intro H; exfalso; lra].
  - split; [intros _ | reflexivity].
    destruct (Qlt_le_dec a b) as [H|H]; [exact H|].
    apply Qle_bool_iff in H. congruence.
Qed.

Lemma Qlt_bool_false a b : Qlt_bool a b = false <-> b <= a.
Proof.
  unfold Qlt_bool. rewrite negb_false_iff. apply Qle_bool_iff.
Qed.

(** ** MetricsEngine *)

Module MetricsFacts.
Import Metrics.

(** C3 (code defect).  On the curve t = [0; 1; 2], y = [1; -5; 2], whose
    deepest negative excursion (-5, at time 1) exceeds its maximum, the
    reported Peak is the plain maximum 2 and TTP is its time 2, whereas the
    signed value of greatest magnitude, which the export path of the same
    file reports, is -5. *)
Theorem peak_is_plain_maximum_on_negative_excursion :
  forall polyfit_slope,
    exists d,
      _metrics_from_curve polyfit_slope
        (numeric [0; 1; 2]) (numeric [1; -5 # 1; 2]) = Val d
      /\ lookup "Peak" d = Some (num 2)
      /\ lookup "TTP" d = Some (num 2)
      /\ peak_by_magnitude [1; -5 # 1; 2] = num (-5 # 1).
Proof.
  intro pf. eexists. split; [reflexivity|].
  repeat split; reflexivity.
Qed.






End MetricsFacts.

(** ** EventDetector *)

Module FlashFacts.
Import Flash.









(** The mean of a frame and the rounding of binary64, for stacks read as
    float64: on the one-sample frames of the examples the mean is the
    sample. *)
Definition demo_mean (f : frame) : Q :=
  f64 (qsum f / inject_Z (Z.of_nat (length f))).




Lemma detect_flash_on_rounded_differences :
  detect_flash_ceus_refined demo_mean f64
    [[f64 (3 # 10)]; [f64 (2 # 10)]; [f64 (1 # 10)]] 0 20
  = Val (1%Z, 2%Z, [f64 (3 # 10); f64 (2 # 10); f64 (1 # 10)])
  /\ np_diff f64 [f64 (3 # 10); f64 (2 # 10); f64 (1 # 10)]
     = [-900719925474099 # 9007199254740992;
        -3602879701896397 # 36028797018963968].
Proof. split; vm_compute; reflexivity. Qed.

End FlashFacts.

(** ** ModelFitter *)

Module FitterFacts.
Import Fitter.

Lemma length_set_nth {A} (i : nat) (v : A) (a : list A) :
  length (set_nth i v a) = length a.
Proof.
  revert i; induction a as [|x r IH]; intros [|i]; simpl; auto.
Qed.

Lemma length_zip_with {A B C} (f : A -> B -> C) (a : list A) (b : list B) :
  length (zip_with f a b) = Nat.min (length a) (length b).
Proof.
  revert b; induction a as [|x r IH]; intros [|y b]; simpl; auto.
Qed.

Lemma clip_from_end_ok (k : nat) (jitter : list Q) (lb ub : list ext) :
  (1 <= k <= length jitter)%nat ->
  length lb = length jitter -> length ub = length jitter ->
  exists j', clip_from_end k jitter lb ub = Val j'
             /\ length j' = length jitter.
Proof.
  intros Hk Hlb Hub. unfold clip_from_end, from_end.
  rewrite Hlb, Hub.
  destruct (Nat.leb_spec k (length jitter)); [|lia].
  destruct (nth_error jitter (length jitter - k)) eqn:E1;
    [|apply nth_error_None in E1; lia].
  destruct (nth_error lb (length jitter - k)) eqn:E2;
    [|apply nth_error_None in E2; lia].
  destruct (nth_error ub (length jitter - k)) eqn:E3;
    [|apply nth_error_None in E3; lia].
  eexists; split; [reflexivity|]. apply length_set_nth.
Qed.

Section AllStartsFail.

Variable MODEL_FUNCS : string -> option model_func.
Variable _initial_guesses : string -> list Q -> list Q -> Q -> Q -> list Q.
Variable percentile10 : list Q -> Q.
Variable uniform_draws : nat -> list Q.
Variable cf :
  model_func -> list Q -> list Q -> list Q -> list ext * list ext
  -> res (list Q).

Lemma bounds_length (model : string) (t y : list Q) :
  length (fst (_bounds model t y)) = 5%nat
  /\ length (snd (_bounds model t y)) = 5%nat.
Proof.
  unfold _bounds.
  destruct (String.eqb model "lognormal");
    [|destruct (String.eqb model "gamma")]; split; reflexivity.
Qed.

Lemma jittered_starts_ok (p0 : list Q) (lb ub : list ext) :
  length p0 = 5%nat -> length lb = 5%nat -> length ub = 5%nat ->
  (forall k, length (uniform_draws k) = 5%nat) ->
  forall count first,
    exists js, jittered_starts uniform_draws p0 lb ub first count = Val js.
Proof.
  intros Hp Hlb Hub Hd.
  induction count as [|c IH]; intro first; simpl.
  - eexists; reflexivity.
  - assert (Hz : length (zip_with Qmult p0 (uniform_draws first)) = 5%nat)
      by (rewrite length_zip_with, Hp, Hd; reflexivity).
    destruct (clip_from_end_ok 2 (zip_with Qmult p0 (uniform_draws first))
                lb ub) as [j1 [E1 L1]];
      [rewrite Hz; lia | congruence | congruence |].
    rewrite E1. cbn [bind].
    destruct (clip_from_end_ok 1 j1 lb ub) as [j2 [E2 L2]];
      [rewrite L1, Hz; lia | congruence | congruence |].
    rewrite E2. cbn [bind].
    destruct (IH (S first)) as [js Ejs]. rewrite Ejs. cbn [bind].
    eexists; reflexivity.
Qed.

Lemma try_start_raised (func : model_func) (t y : list Q)
    (bounds : list ext * list ext) (best : fit) (guess : list Q) :
  cf func t y guess bounds = Raised ->
  try_start (Some cf) func t y bounds best guess = best.
Proof.
  intro H. unfold try_start. rewrite H. reflexivity.
Qed.

Lemma fold_try_start_raised (func : model_func) (t y : list Q)
    (bounds : list ext * list ext) (starts : list (list Q)) (best : fit) :
  (forall guess, cf func t y guess bounds = Raised) ->
  fold_left (try_start (Some cf) func t y bounds) starts best = best.
Proof.
  intro H. induction starts as [|g r IH]; simpl; [reflexivity|].
  rewrite try_start_raised by apply H. exact IH.
Qed.

(** C1 (code defect).  When the optimiser raises on every start,
    [fit_model] does not fail: it returns the record it was seeded with, the
    data-seeded initial guess as parameter vector, its model curve as fitted
    curve, and an infinite residual; [fit_models] therefore stores this
    record, not [None], for the model. *)
Theorem fit_model_returns_initial_guess_when_all_starts_fail :
  forall (model : string) (func : model_func) (t y y0 : list Q)
         (t0_hint C_hint : Q) (n_starts : Z),
    MODEL_FUNCS model = Some func ->
    length (_initial_guesses model t y t0_hint C_hint) = 5%nat ->
    (forall k, length (uniform_draws k) = 5%nat) ->
    func t (_initial_guesses model t y t0_hint C_hint) = Val y0 ->
    (forall guess, cf func t y guess (_bounds model t y) = Raised) ->
    let seeded := mk_fit (_initial_guesses model t y t0_hint C_hint) inf y0 in
    fit_model MODEL_FUNCS _initial_guesses percentile10 uniform_draws (Some cf)
      model t y (Some t0_hint) (Some C_hint) n_starts = Val seeded
    /\ fit_models MODEL_FUNCS _initial_guesses percentile10 uniform_draws
         (Some cf) t y [model] (Some t0_hint) (Some C_hint) n_starts
       = [(model, Some seeded)].
Proof.
  intros model func t y y0 t0 C n Hm Hp Hd Hy0 Hfail seeded.
  assert (E : fit_model MODEL_FUNCS _initial_guesses percentile10 uniform_draws
                (Some cf) model t y (Some t0) (Some C) n = Val seeded).
  { unfold fit_model. rewrite Hm.
    destruct (bounds_length model t y) as [Hlb Hub].
    revert Hfail. destruct (_bounds model t y) as [lb ub] eqn:Eb.
    intro Hfail. simpl in Hlb, Hub.
    rewrite Hy0. cbn [bind].
    destruct (jittered_starts_ok _ lb ub Hp Hlb Hub Hd
                (Z.to_nat (Z.max 1 (n - 1))) 0%nat) as [js Ejs].
    rewrite Ejs. cbn [bind].
    rewrite fold_try_start_raised by exact Hfail. reflexivity. }
  split; [exact E|]. unfold fit_models, fit_entry. cbn [fold_left dict_set].
  rewrite E. reflexivity.
Qed.

End AllStartsFail.

(** C1, an instance: a stand-in model curve (the constant baseline), a
    five-entry initial guess, unit draws and an optimiser that rejects every
    start, on t = [0; 150; 300; 450; 600], y = [0; 2; 5; 3; 1]. *)
Lemma fit_model_all_starts_fail_example :
  let funcs := fun _ : string =>
                 Some (fun (t p : list Q) => Val (map (fun _ => last p 0) t)) in
  let guesses := fun (_ : string) (_ _ : list Q) (t0 C : Q) =>
                   [1; 300; 2; t0; C] in
  let cf := fun (_ : model_func) (_ _ _ : list Q) (_ : list ext * list ext) =>
              @Raised (list Q) in
  let t := [0; 150; 300; 450; 600] in
  let y := [0; 2; 5; 3; 1] in
  fit_models funcs guesses (fun _ => 2 # 5) (fun _ => [1; 1; 1; 1; 1])
    (Some cf) t y ["ldrw"%string] (Some 0) (Some (2 # 5)) 50
  = [("ldrw"%string,
      Some (mk_fit [1; 300; 2; 0; 2 # 5] inf
              [2 # 5; 2 # 5; 2 # 5; 2 # 5; 2 # 5]))].
Proof.
  intros funcs guesses cf t y.
  apply (fit_model_returns_initial_guess_when_all_starts_fail
           funcs guesses (fun _ => 2 # 5) (fun _ => [1; 1; 1; 1; 1]) cf
           "ldrw"%string (fun t p => Val (map (fun _ => last p 0) t))
           t y [2 # 5; 2 # 5; 2 # 5; 2 # 5; 2 # 5] 0 (2 # 5) 50);
    try reflexivity; intros; reflexivity.
Defined.

End FitterFacts.

(** ** RegionClassifier *)

Module RegionsFacts.
Import Regions.

Section Classifier.

Variable sqrt : Q -> Q.

Lemma parse_regions_all_skipped (arr : pixels) (regs : list region_desc) :
  (forall reg i, In reg regs -> parse_region arr i reg = None) ->
  forall i, parse_regions arr i regs = [].
Proof.
  induction regs as [|reg r IH]; intros H i; simpl; [reflexivity|].
  rewrite (H reg i) by (left; reflexivity).
  apply IH. intros reg' j Hin. apply H. right; exact Hin.
Qed.

(** The sibling path: an absent or empty descriptor list falls back to the
    whole volume. *)
Lemma extract_regions_empty_list_falls_back (ds : dataset) (arr : pixels) :
  SequenceOfUltrasoundRegions ds = Some [] ->
  exists st, _extract_regions sqrt ds arr init_loader = Val st
             /\ ceus_stack st = Some (_convert_colorspace ds arr).
Proof.
  intro H. unfold _extract_regions. rewrite H.
  eexists; split; reflexivity.
Qed.

(** C4 (code defect).  When descriptors are present but every one of them
    is skipped (a missing coordinate, or a rectangle that is empty after
    clipping), no region is classified and the loader is left as
    [__init__] made it: the CEUS stack is [None], not the whole volume. *)
Theorem extract_regions_leaves_ceus_unset_when_all_skipped :
  forall (ds : dataset) (arr : pixels) (regs : list region_desc),
    SequenceOfUltrasoundRegions ds = Some regs ->
    regs <> [] ->
    (forall reg i, In reg regs -> parse_region arr i reg = None) ->
    _extract_regions sqrt ds arr init_loader = Val init_loader
    /\ ceus_stack init_loader = None.
Proof.
  intros ds arr regs Hseq Hne Hskip.
  split; [|reflexivity].
  unfold _extract_regions. rewrite Hseq.
  destruct regs as [|r0 rs]; [congruence|].
  rewrite parse_regions_all_skipped by exact Hskip.
  reflexivity.
Qed.



End Classifier.

(** A 1-frame, 2x4 RGB volume: the left half is grey, the right half
    coloured. *)
Definition demo_volume : pixels :=
  mk_ndarray [1; 2; 4; 3]%nat
    (fun idx =>
       match idx with
       | [_; h; w; c] =>
           if (w <? 2)%nat then 100%Z
           else Z.of_nat ((c + 1) * (30 * h + 10 * w))
       | _ => 0%Z
       end).


Definition demo_dataset (regs : list region_desc) : dataset :=
  mk_dataset (Some regs) (Some "SuperSonic Imagine"%string) (Some "RGB"%string).




(** C4, an instance: one descriptor without [RegionLocationMinX0]. *)
Lemma extract_regions_all_skipped_example :
  let regs := [mk_region (Some 1%Z) None None (Some 0%Z) (Some 3%Z) (Some 1%Z)] in
  _extract_regions (fun q => q) (demo_dataset regs) demo_volume init_loader
  = Val init_loader
  /\ ceus_stack init_loader = None.
Proof.
  intro regs.
  apply (extract_regions_leaves_ceus_unset_when_all_skipped
           (fun q => q) (demo_dataset regs) demo_volume regs).
  - reflexivity.
  - discriminate.
  - intros reg i [<-|[]]. reflexivity.
Defined.


End RegionsFacts.

(** ** Smoother: neighbourhood size *)

Module LoessSizeFacts.
Import Loess.

Lemma clamp_span (span : Q) :
  0 < span -> span <= 1 -> Qmax 0 (Qmin 1 span) == span.
Proof.
  intros H0 H1.
  destruct (Q.min_spec 1 span) as [[Ha Hb]|[Ha Hb]];
    destruct (Q.max_spec 0 (Qmin 1 span)) as [[Hc Hd]|[Hc Hd]];
    rewrite ?Hd, ?Hb in *; lra.
Qed.

(** C2, counterexample.  For n = 6 deduplicated points, span 1/2 and
    degree 2 the code uses k = 3 = max(degree + 1, floor(3)), whereas
    max(degree + 2, floor(3)) clipped to [2, 5] is 4. *)
Lemma neighborhood_size_is_not_degree_plus_two :
  neighborhood_size 2 (1 # 2) 6 = 3%Z
  /\ specified_neighborhood_size 2 (1 # 2) 6 = 4%Z.
Proof. split; reflexivity. Qed.

(** The product is rounded before the floor is taken: with the double
    nearest to 1/3 as span and n = 12 the binary64 product is 4.0, so the
    code uses k = 4, while the floor of the exact product is 3.  With
    span 0.29 and n = 100 the double is below 29/100 and the product is
    28.999999999999996, so the code uses k = 28. *)
Lemma neighborhood_size_rounds_the_product :
  neighborhood_size 2 (f64 (1 # 3)) 12 = 4%Z
  /\ Qfloor (f64 (1 # 3) * inject_Z (Z.of_nat 12)) = 3%Z
  /\ neighborhood_size 2 (29 # 100) 100 = 28%Z
  /\ neighborhood_size 2 (f64 (29 # 100)) 100 = 28%Z
  /\ Qfloor ((29 # 100) * inject_Z (Z.of_nat 100)) = 29%Z.
Proof. repeat split; vm_compute; reflexivity. Qed.

(** C2 (amended).  For n >= 2 deduplicated points, degree 1 or 2 and a
    span in (0, 1], the neighbourhood size is
    max(degree + 1, floor(fl(span * n))) clipped to [2, n - 1], where
    fl(span * n) is the product as the code computes it: that of the
    double [f64 span] and n, rounded to binary64; and it is the rank used
    at every evaluation point, where n - 1 other points lie at a non-zero
    distance. *)
Theorem neighborhood_size_formula :
  forall (degree : Z) (span : Q) (n : nat),
    (2 <= n)%nat ->
    (degree = 1 \/ degree = 2)%Z ->
    0 < span -> span <= 1 ->
    neighborhood_size degree span n
    = Z.min (Z.max (Z.max (degree + 1)
                          (Qfloor (f64 (f64 span * inject_Z (Z.of_nat n))))) 2)
            (Z.of_nat n - 1)
    /\ forall d_nonzero : list Q,
         length d_nonzero = (n - 1)%nat ->
         effective_k (neighborhood_size degree span n) d_nonzero
         = neighborhood_size degree span n.
Proof.
  intros degree span n Hn Hd H0 H1.
  assert (E : neighborhood_size degree span n
              = Z.min (Z.max (Z.max (degree + 1)
                                (Qfloor (f64 (f64 span * inject_Z (Z.of_nat n))))) 2)
                      (Z.of_nat n - 1)).
  { unfold neighborhood_size. cbv zeta.
    assert (P0 : 0 < f64 span) by (apply round_float_pos; [lia | exact H0]).
    assert (P1 : f64 span <= 1) by (apply round_float_le_one; [lia | exact H1]).
    assert (Ef : f64 (Qmax 0 (Qmin 1 (f64 span)) * inject_Z (Z.of_nat n))
                 = f64 (f64 span * inject_Z (Z.of_nat n))).
    { apply round_float_comp. rewrite clamp_span by assumption. reflexivity. }
    rewrite Ef.
    replace (p_min degree + 1)%Z with (degree + 1)%Z
      by (unfold p_min; destruct Hd; subst; reflexivity).
    rewrite (Z.max_l (Z.of_nat n - 1) 1) by lia. reflexivity. }
  split; [exact E|].
  intros d Hlen. unfold effective_k. rewrite Hlen, E. lia.
Qed.

(** C2, an instance: twelve points, the double nearest to 1/3 as span,
    degree 2. *)
Lemma neighborhood_size_formula_example :
  neighborhood_size 2 (f64 (1 # 3)) 12
  = Z.min (Z.max (Z.max (2 + 1)
                        (Qfloor (f64 (f64 (f64 (1 # 3))
                                      * inject_Z (Z.of_nat 12))))) 2)
          (Z.of_nat 12 - 1)
  /\ forall d_nonzero : list Q,
       length d_nonzero = (12 - 1)%nat ->
       effective_k (neighborhood_size 2 (f64 (1 # 3)) 12) d_nonzero
       = neighborhood_size 2 (f64 (1 # 3)) 12.
Proof.
  apply (neighborhood_size_formula 2 (f64 (1 # 3)) 12);
    [lia | right; reflexivity | vm_compute; reflexivity
     | vm_compute; discriminate].
Defined.

End LoessSizeFacts.

Lemma Val_inj {A} (a b : A) : Val a = Val b -> a = b.
Proof. intro H; injection H; auto. Qed.

(** ** Sorting helpers *)

Lemma In_insert_by {A} (before : A -> A -> bool) (a x : A) (l : list A) :
  In x (insert_by before a l) <-> x = a \/ In x l.
Proof.
  induction l as [|b r IH]; simpl.
  - intuition.
  - destruct (before a b); simpl; rewrite ?IH; intuition.
Qed.

Lemma In_sort_by {A} (before : A -> A -> bool) (x : A) (l : list A) :
  In x (sort_by before l) <-> In x l.
Proof.
  unfold sort_by. induction l as [|a r IH]; simpl; [reflexivity|].
  rewrite In_insert_by, IH. intuition.
Qed.

Lemma length_insert_by {A} (before : A -> A -> bool) (a : A) (l : list A) :
  length (insert_by before a l) = S (length l).
Proof.
  induction l as [|b r IH]; simpl; [reflexivity|].
  destruct (before a b); simpl; rewrite ?IH; reflexivity.
Qed.

Lemma length_sort_by {A} (before : A -> A -> bool) (l : list A) :
  length (sort_by before l) = length l.
Proof.
  unfold sort_by. induction l as [|a r IH]; simpl; [reflexivity|].
  rewrite length_insert_by, IH. reflexivity.
Qed.

(** ** Preprocessor *)

Module PreprocFacts.
Import Preproc.

Definition unit_interval (v : Q) : Prop := 0 <= v <= 1.

(** Every element of the array, at whatever index, lies in [[0, 1]]. *)
Definition bounded (X : farray) : Prop := forall idx, unit_interval (item X idx).

Lemma nth_unit (l : list Q) (i : nat) :
  (forall x, In x l -> unit_interval x) -> unit_interval (nth i l 0).
Proof.
  intro H. destruct (nth_in_or_default i l 0) as [Hin|Hd].
  - apply H; exact Hin.
  - rewrite Hd. unfold unit_interval. lra.
Qed.

Lemma sorted_nth_unit (l : list Q) (i : nat) :
  (forall x, In x l -> unit_interval x) -> unit_interval (nth i (sortQ l) 0).
Proof.
  intro H. apply nth_unit. intros x Hx. apply H.
  unfold sortQ in Hx. apply In_sort_by in Hx. exact Hx.
Qed.

Lemma median_unit (a : list Q) :
  (forall x, In x a -> unit_interval x) -> unit_interval (median a).
Proof.
  intro H. unfold median.
  pose proof (sorted_nth_unit a (length a / 2 - 1) H) as [H1 H2].
  pose proof (sorted_nth_unit a (length a / 2) H) as [H3 H4].
  destruct (Nat.even (length a)); unfold unit_interval.
  - split.
    + apply Qle_shift_div_l; lra.
    + apply Qle_shift_div_r; lra.
  - split; assumption.
Qed.

Lemma clip_unit (v : Q) : unit_interval (Qmin (Qmax v 0) 1).
Proof.
  unfold unit_interval.
  destruct (Q.max_spec v 0) as [[Ha Hb]|[Ha Hb]];
    destruct (Q.min_spec (Qmax v 0) 1) as [[Hc Hd]|[Hc Hd]];
    rewrite ?Hd; rewrite ?Hb in *; lra.
Qed.

(** Every element of the array, at whatever index, is non-negative. *)
Definition nonneg (X : farray) : Prop := forall idx, 0 <= item X idx.

Lemma bounded_nonneg (X : farray) : bounded X -> nonneg X.
Proof. intros H idx. apply H. Qed.

Lemma sorted_nth_nonneg (l : list Q) (i : nat) :
  (forall x, In x l -> 0 <= x) -> 0 <= nth i (sortQ l) 0.
Proof.
  intro H. destruct (nth_in_or_default i (sortQ l) 0) as [Hin|Hd].
  - apply H. unfold sortQ in Hin. apply In_sort_by in Hin. exact Hin.
  - rewrite Hd. apply Qle_refl.
Qed.

Lemma weighted_sum_nonneg (w : list Q) :
  Forall (Qle 0) w ->
  forall g : nat -> Q,
    (forall j, 0 <= g j) ->
    0 <= qsum (map (fun j => nth j w 0 * g j) (seq 0 (length w))).
Proof.
  induction 1 as [|a w Ha Hw IH]; intros g Hg.
  - simpl. lra.
  - cbn [length seq map qsum nth].
    rewrite <- seq_shift, map_map.
    specialize (IH (fun j => g (S j)) (fun j => Hg (S j))).
    cbn beta in IH. pose proof (Hg 0%nat) as G0.
    assert (0 <= a * g 0%nat) by (apply Qmult_le_0_compat; assumption).
    lra.
Qed.

Lemma sum_f32_nonneg (l : list Q) : Forall (Qle 0) l -> 0 <= sum_f32 l.
Proof.
  intros H. unfold sum_f32. destruct H as [|p r Hp Hr]; [apply Qle_refl|].
  revert p Hp. induction Hr as [|v r Hv Hr IH]; intros p Hp; simpl.
  - exact Hp.
  - apply IH. apply round_float_nonneg. lra.
Qed.

Lemma normalize_step_bounded (p_lo p_hi : Q) (X Y : farray) :
  normalize_step p_lo p_hi X = Val Y -> bounded Y /\ shape Y = shape X.
Proof.
  unfold normalize_step. intro H.
  destruct (percentile (ravel X) p_lo) as [p1|]; [|discriminate].
  destruct (percentile (ravel X) p_hi) as [p99|]; [|discriminate].
  cbn [bind] in H. injection H as <-. split; [|reflexivity].
  intro idx. cbn [item pointwise]. apply clip_unit.
Qed.

Lemma median_filter_bounded (X Y : farray) :
  bounded X -> median_filter_133 X = Val Y ->
  bounded Y /\ shape Y = shape X.
Proof.
  intros HX H. unfold median_filter_133 in H.
  destruct (shape X) as [|T [|Hh [|W [|? ?]]]] eqn:Es; try discriminate.
  apply Val_inj in H. subst Y. split; [|reflexivity].
  intro idx.
  destruct idx as [|t [|h [|w [|? ?]]]]; cbv beta iota delta [item];
    try (unfold unit_interval; lra).
  apply sorted_nth_unit. intros x Hx.
  apply in_flat_map in Hx. destruct Hx as [dh [_ Hx]].
  apply in_map_iff in Hx. destruct Hx as [dw [<- _]]. apply HX.
Qed.

Lemma median_filter_nonneg (X Y : farray) :
  nonneg X -> median_filter_133 X = Val Y -> nonneg Y.
Proof.
  intros HX H. unfold median_filter_133 in H.
  destruct (shape X) as [|T [|Hh [|W [|? ?]]]] eqn:Es; try discriminate.
  apply Val_inj in H. subst Y.
  intro idx.
  destruct idx as [|t [|h [|w [|? ?]]]]; cbv beta iota delta [item];
    try apply Qle_refl.
  apply sorted_nth_nonneg. intros x Hx.
  apply in_flat_map in Hx. destruct Hx as [dh [_ Hx]].
  apply in_map_iff in Hx. destruct Hx as [dw [<- _]]. apply HX.
Qed.

Lemma subtract_baseline_bounded (N : nat) (X : farray) :
  bounded X -> bounded (subtract_baseline N X).
Proof.
  intros HX idx. unfold subtract_baseline. cbn [item].
  destruct idx as [|t rest]; [unfold unit_interval; lra|].
  match goal with |- unit_interval (Qmax (_ - median ?l) 0) =>
    assert (Hm : unit_interval (median l)) end.
  { apply median_unit. intros x Hx. apply in_map_iff in Hx.
    destruct Hx as [t' [<- _]]. apply HX. }
  destruct (HX (t :: rest)) as [Ha Hb]. destruct Hm as [Hc Hd].
  unfold unit_interval.
  match goal with |- 0 <= Qmax ?u 0 <= 1 =>
    destruct (Q.max_spec u 0) as [[He Hf]|[He Hf]]; rewrite Hf; lra end.
Qed.

Lemma subtract_baseline_nonneg (N : nat) (X : farray) :
  nonneg (subtract_baseline N X).
Proof.
  intros idx. unfold subtract_baseline. cbn [item].
  destruct idx as [|t rest]; [apply Qle_refl | apply Q.le_max_r].
Qed.

Lemma baseline_step_bounded (baseline_frames : option Z) (X : farray) :
  bounded X -> bounded (baseline_step baseline_frames X).
Proof.
  intro HX. unfold baseline_step.
  match goal with |- context [if ?c then _ else _] => destruct c end.
  - apply subtract_baseline_bounded, HX.
  - exact HX.
Qed.

Lemma baseline_step_nonneg (baseline_frames : option Z) (X : farray) :
  nonneg X -> nonneg (baseline_step baseline_frames X).
Proof.
  intro HX. unfold baseline_step.
  match goal with |- context [if ?c then _ else _] => destruct c end.
  - apply subtract_baseline_nonneg.
  - exact HX.
Qed.

Lemma temporal_mean_nonneg (t_win : Z) (X Y : farray) :
  nonneg X -> temporal_mean t_win X = Val Y -> nonneg Y.
Proof.
  intros HX H. unfold temporal_mean in H. cbv zeta in H.
  destruct (shape X) as [|T [|Hh [|W [|? ?]]]] eqn:Es; try discriminate.
  injection H as <-.
  intro idx. cbn [item].
  destruct idx as [|t rest]; [apply Qle_refl|].
  set (k0 := Z.max 1 t_win).
  set (k := if (k0 mod 2 =? 1)%Z then k0 else (k0 + 1)%Z).
  assert (Hk : (1 <= k)%Z) by (unfold k, k0; destruct (_ =? _)%Z; lia).
  assert (Hkq : 0 < inject_Z k).
  { change 0 with (inject_Z 0). rewrite <- Zlt_Qlt. lia. }
  assert (Hker : 0 <= f32 (1 / inject_Z k)).
  { apply round_float_nonneg. apply Qle_shift_div_l; lra. }
  apply sum_f32_nonneg. apply Forall_map. apply Forall_forall. intros j _.
  apply round_float_nonneg. apply Qmult_le_0_compat; [apply HX | exact Hker].
Qed.

Section Pipeline.

Variable log1p : Q -> Q.
Variable gaussian_kernel1d : Q -> nat -> list Q.

Hypothesis log1p_nonneg : forall a, 0 <= a -> 0 <= log1p a.
Hypothesis log1p_positive : 0 < log1p 20.
Hypothesis kernel_nonneg :
  forall sigma radius, Forall (Qle 0) (gaussian_kernel1d sigma radius).

Lemma log_step_nonneg (use_log : bool) (X : farray) :
  nonneg X -> nonneg (log_step log1p use_log X).
Proof.
  intro HX. unfold log_step. destruct use_log; [|exact HX].
  intro idx. cbn [item pointwise].
  apply Qle_shift_div_l; [exact log1p_positive|]. rewrite Qmult_0_l.
  apply log1p_nonneg. pose proof (HX idx). lra.
Qed.

Lemma correlate1d_nonneg (sigma : Q) (radius : nat)
    (bnd : nat -> Z -> nat) (axis : nat) (X : farray) :
  nonneg X ->
  nonneg (correlate1d (gaussian_kernel1d sigma radius) bnd axis X).
Proof.
  intros HX idx. unfold correlate1d. cbn [item].
  apply (weighted_sum_nonneg (gaussian_kernel1d sigma radius)
           (kernel_nonneg sigma radius)
           (fun j =>
              item X (replace_nth axis
                        (bnd (nth axis (shape X) 0%nat)
                           (Z.of_nat (nth axis idx 0%nat) + Z.of_nat j
                            - Z.of_nat (length (gaussian_kernel1d sigma radius) / 2))%Z)
                        idx))).
  intro j. apply HX.
Qed.

Lemma spatial_step_nonneg (spatial : option string) (X Y : farray) :
  nonneg X -> spatial_step gaussian_kernel1d spatial X = Val Y -> nonneg Y.
Proof.
  intros HX H. unfold spatial_step in H.
  destruct (str_is "median" spatial);
    [exact (median_filter_nonneg X Y HX H)|].
  destruct (str_is "gaussian" spatial).
  - unfold gaussian_filter_spatial in H.
    destruct (shape X) as [|T [|Hh [|W [|? ?]]]]; try discriminate.
    injection H as <-. apply correlate1d_nonneg, correlate1d_nonneg, HX.
  - injection H as <-. exact HX.
Qed.

Lemma spatial_step_bounded (spatial : option string) (X Y : farray) :
  bounded X -> str_is "gaussian" spatial = false ->
  spatial_step gaussian_kernel1d spatial X = Val Y -> bounded Y.
Proof.
  intros HX Hg H. unfold spatial_step in H. rewrite Hg in H.
  destruct (str_is "median" spatial);
    [exact (proj1 (median_filter_bounded X Y HX H))|].
  injection H as <-. exact HX.
Qed.

Lemma temporal_step_nonneg (temporal : option string) (t_win : Z)
    (X Y : farray) :
  nonneg X -> temporal_step gaussian_kernel1d temporal t_win X = Val Y ->
  nonneg Y.
Proof.
  intros HX H. unfold temporal_step in H.
  match type of H with (if ?c then _ else _) = _ => destruct c end.
  - injection H as <-. apply correlate1d_nonneg, HX.
  - match type of H with (if ?c then _ else _) = _ => destruct c end.
    + exact (temporal_mean_nonneg t_win X Y HX H).
    + injection H as <-. exact HX.
Qed.

Lemma temporal_step_inactive (temporal : option string) (t_win : Z)
    (X : farray) :
  str_is "gaussian" temporal = false -> str_is "mean" temporal = false ->
  temporal_step gaussian_kernel1d temporal t_win X = Val X.
Proof.
  intros Hg Hm. unfold temporal_step. rewrite Hg, Hm. reflexivity.
Qed.

(** Whenever the pipeline returns, its result is non-negative; it is
    bounded by 1 as well when it ends with the normalised, median-filtered
    or baseline-subtracted samples. *)
Lemma preprocess_ceus_returns (stack : farray) (use_log : bool)
    (p_lo p_hi : Q) (spatial temporal : option string) (t_win : Z)
    (baseline_frames : option Z) (Y : farray) :
  preprocess_ceus log1p gaussian_kernel1d stack use_log p_lo p_hi spatial
    temporal t_win baseline_frames = Val Y ->
  nonneg Y
  /\ (use_log = false ->
      str_is "gaussian" spatial = false ->
      str_is "gaussian" temporal = false ->
      str_is "mean" temporal = false ->
      bounded Y).
Proof.
  unfold preprocess_ceus. intro H.
  destruct (negb _); [discriminate|]. cbv zeta in H.
  destruct (normalize_step p_lo p_hi (grayscale_step stack)) as [X1|] eqn:E1;
    [|discriminate].
  cbn [bind] in H.
  destruct (normalize_step_bounded _ _ _ _ E1) as [B1 _].
  destruct (spatial_step gaussian_kernel1d spatial (log_step log1p use_log X1))
    as [X3|] eqn:E3; [|discriminate].
  cbn [bind] in H.
  split.
  - apply (temporal_step_nonneg _ _ _ _
             (baseline_step_nonneg baseline_frames X3
                (spatial_step_nonneg _ _ _
                   (log_step_nonneg use_log X1 (bounded_nonneg X1 B1)) E3)) H).
  - intros Hlog Hsp Htg Htm. subst use_log.
    rewrite (temporal_step_inactive temporal t_win _ Htg Htm) in H.
    injection H as <-.
    apply baseline_step_bounded.
    exact (spatial_step_bounded spatial X1 X3 B1 Hsp E3).
Qed.

End Pipeline.

Lemma indices_nonempty (sh : list nat) :
  Forall (fun n => (0 < n)%nat) sh -> indices sh <> [].
Proof.
  induction 1 as [|n r Hn Hr IH]; simpl; [discriminate|].
  destruct n as [|n]; [lia|].
  cbn [seq flat_map]. destruct (indices r) as [|i0 ir]; [congruence|].
  discriminate.
Qed.

Lemma percentile_returns (a : list Q) (q : Q) :
  a <> [] -> 0 <= q -> q <= 100 -> exists v, percentile a q = Val v.
Proof.
  intros Ha H0 H1. unfold percentile.
  assert (E0 : Qle_bool 0 q = true) by (apply Qle_bool_iff; exact H0).
  assert (E1 : Qle_bool q 100 = true) by (apply Qle_bool_iff; exact H1).
  rewrite E0, E1. cbn [andb].
  destruct a; [congruence|]. eexists; reflexivity.
Qed.

Section Shapes.

Variable log1p : Q -> Q.
Variable gaussian_kernel1d : Q -> nat -> list Q.

Lemma grayscale_step_shape (stack : farray) (T H W : nat) :
  shape stack = [T; H; W] \/ shape stack = [T; H; W; 3%nat] ->
  shape (grayscale_step stack) = [T; H; W].
Proof.
  unfold grayscale_step, ndim, to_gray_stack. intros [E|E]; rewrite E.
  - exact E.
  - reflexivity.
Qed.

Lemma normalize_step_returns (p_lo p_hi : Q) (X : farray) (T H W : nat) :
  shape X = [T; H; W] -> (0 < T)%nat -> (0 < H)%nat -> (0 < W)%nat ->
  0 <= p_lo <= 100 -> 0 <= p_hi <= 100 ->
  exists Y, normalize_step p_lo p_hi X = Val Y /\ shape Y = [T; H; W].
Proof.
  intros Es HT HH HW [L0 L1] [U0 U1]. unfold normalize_step.
  assert (Hr : ravel X <> []).
  { unfold ravel. rewrite Es. intro Hnil.
    apply map_eq_nil in Hnil. revert Hnil. apply indices_nonempty.
    repeat constructor; assumption. }
  destruct (percentile_returns (ravel X) p_lo Hr L0 L1) as [p1 E1].
  destruct (percentile_returns (ravel X) p_hi Hr U0 U1) as [p99 E99].
  rewrite E1, E99. cbn [bind]. eexists; split; [reflexivity | exact Es].
Qed.

Lemma log_step_shape (use_log : bool) (X : farray) :
  shape (log_step log1p use_log X) = shape X.
Proof. unfold log_step. destruct use_log; reflexivity. Qed.

Lemma spatial_step_returns (spatial : option string) (X : farray) (T H W : nat) :
  shape X = [T; H; W] ->
  exists Y, spatial_step gaussian_kernel1d spatial X = Val Y
            /\ shape Y = [T; H; W].
Proof.
  intro Es. unfold spatial_step, median_filter_133, gaussian_filter_spatial.
  rewrite Es.
  destruct (str_is "median" spatial);
    [eexists; split; [reflexivity | first [reflexivity | exact Es]]|].
  destruct (str_is "gaussian" spatial);
    eexists; (split; [reflexivity | first [reflexivity | exact Es]]).
Qed.

Lemma baseline_step_shape (baseline_frames : option Z) (X : farray) :
  shape (baseline_step baseline_frames X) = shape X.
Proof.
  unfold baseline_step.
  match goal with |- context [if ?c then _ else _] => destruct c end;
    reflexivity.
Qed.

Lemma temporal_step_returns (temporal : option string) (t_win : Z)
    (X : farray) (T H W : nat) :
  shape X = [T; H; W] ->
  exists Y, temporal_step gaussian_kernel1d temporal t_win X = Val Y
            /\ shape Y = [T; H; W].
Proof.
  intro Es. unfold temporal_step, temporal_mean. rewrite Es.
  match goal with |- context [if ?c then _ else _] => destruct c end;
    [eexists; split; [reflexivity | first [reflexivity | exact Es]]|].
  match goal with |- context [if ?c then _ else _] => destruct c end;
    eexists; (split; [reflexivity | first [reflexivity | exact Es]]).
Qed.

(** On a valid stack the pipeline returns, and its result has the shape
    of the luminance stack. *)
Lemma preprocess_ceus_total (stack : farray) (use_log : bool)
    (p_lo p_hi : Q) (spatial temporal : option string) (t_win : Z)
    (baseline_frames : option Z) (T H W : nat) :
  shape stack = [T; H; W] \/ shape stack = [T; H; W; 3%nat] ->
  (0 < T)%nat -> (0 < H)%nat -> (0 < W)%nat ->
  0 <= p_lo <= 100 -> 0 <= p_hi <= 100 ->
  exists Y,
    preprocess_ceus log1p gaussian_kernel1d stack use_log p_lo p_hi spatial
      temporal t_win baseline_frames = Val Y
    /\ shape Y = [T; H; W].
Proof.
  intros Es HT HH HW Hlo Hhi. unfold preprocess_ceus.
  assert (Hnd : negb (Nat.eqb (ndim stack) 3 || Nat.eqb (ndim stack) 4) = false)
    by (unfold ndim; destruct Es as [E|E]; rewrite E; reflexivity).
  rewrite Hnd. cbv zeta.
  pose proof (grayscale_step_shape stack T H W Es) as S0.
  destruct (normalize_step_returns p_lo p_hi _ T H W S0 HT HH HW Hlo Hhi)
    as [X1 [E1 S1]].
  rewrite E1. cbn [bind].
  assert (S2 : shape (log_step log1p use_log X1) = [T; H; W])
    by (rewrite log_step_shape; exact S1).
  destruct (spatial_step_returns spatial _ T H W S2) as [X3 [E3 S3]].
  rewrite E3. cbn [bind].
  assert (S4 : shape (baseline_step baseline_frames X3) = [T; H; W])
    by (rewrite baseline_step_shape; exact S3).
  exact (temporal_step_returns temporal t_win _ T H W S4).
Qed.

End Shapes.

(** A one-frame, one-pixel RGB stack, and a two-frame single-channel one. *)
Definition demo_rgb : farray :=
  mk_ndarray [1; 1; 1; 3]%nat
    (fun idx => match idx with [_; _; _; c] => inject_Z (Z.of_nat (10 * c)) | _ => 0 end).

Definition demo_gray : farray :=
  mk_ndarray [2; 1; 1]%nat
    (fun idx => match idx with [t; _; _] => inject_Z (Z.of_nat (3 + 4 * t)) | _ => 0 end).

(** Rational stand-ins for the float library: any [log1p] and any kernel
    will do for the shapes; for the sign of the values [log1p] must be
    non-negative on non-negative input and the kernel weights
    non-negative. *)
Definition demo_log1p (x : Q) : Q := x.
Definition demo_kernel (_ : Q) (_ : nat) : list Q := [1 # 4; 1 # 2; 1 # 4].

(** C5, counterexample.  With the default settings a (1, 1, 1, 3) stack is
    returned as a (1, 1, 1) stack: the channel axis is gone. *)
Lemma rgb_stack_loses_channel_axis :
  exists Y,
    preprocess_ceus demo_log1p demo_kernel demo_rgb true 1 99
      (Some "median"%string) (Some "gaussian"%string) 3 (Some 5%Z) = Val Y
    /\ shape demo_rgb = [1; 1; 1; 3]%nat
    /\ shape Y = [1; 1; 1]%nat
    /\ shape Y <> shape demo_rgb.
Proof.
  destruct (preprocess_ceus_total demo_log1p demo_kernel demo_rgb true 1 99
              (Some "median"%string) (Some "gaussian"%string) 3 (Some 5%Z)
              1 1 1) as [Y [E S]];
    [right; reflexivity | lia | lia | lia | split; discriminate
     | split; discriminate |].
  exists Y. rewrite S. repeat split; [exact E | discriminate].
Qed.

(** C5 (amended).  On every valid stack (single-channel (T, H, W) or
    three-channel (T, H, W, 3), non-empty, percentiles within [0, 100]) the
    preprocessor returns a stack of shape (T, H, W): the shape of a
    single-channel input, and the luminance shape, without the channel
    axis, of a three-channel input. *)
Theorem preprocess_output_shape :
  forall (log1p : Q -> Q) (gaussian_kernel1d : Q -> nat -> list Q)
         (stack : farray) (use_log : bool) (p_lo p_hi : Q)
         (spatial temporal : option string) (t_win : Z)
         (baseline_frames : option Z) (T H W : nat),
    shape stack = [T; H; W] \/ shape stack = [T; H; W; 3%nat] ->
    (0 < T)%nat -> (0 < H)%nat -> (0 < W)%nat ->
    0 <= p_lo <= 100 -> 0 <= p_hi <= 100 ->
    exists Y,
      preprocess_ceus log1p gaussian_kernel1d stack use_log p_lo p_hi spatial
        temporal t_win baseline_frames = Val Y
      /\ shape Y = [T; H; W]
      /\ (shape Y = shape stack <-> ndim stack = 3%nat).
Proof.
  intros log1p kernel stack use_log p_lo p_hi spatial temporal t_win bf T H W
         Es HT HH HW Hlo Hhi.
  destruct (preprocess_ceus_total log1p kernel stack use_log p_lo p_hi spatial
              temporal t_win bf T H W Es HT HH HW Hlo Hhi) as [Y [E S]].
  exists Y. split; [exact E|]. split; [exact S|].
  rewrite S. unfold ndim. destruct Es as [Es|Es]; rewrite Es; simpl.
  - split; reflexivity.
  - split; discriminate.
Qed.

(** C5, an instance: the two-frame single-channel stack keeps its shape. *)
Lemma preprocess_output_shape_example :
  exists Y,
    preprocess_ceus demo_log1p demo_kernel demo_gray true 1 99
      (Some "median"%string) (Some "gaussian"%string) 3 (Some 5%Z) = Val Y
    /\ shape Y = [2; 1; 1]%nat
    /\ (shape Y = shape demo_gray <-> ndim demo_gray = 3%nat).
Proof.
  apply (preprocess_output_shape demo_log1p demo_kernel demo_gray true 1 99
           (Some "median"%string) (Some "gaussian"%string) 3 (Some 5%Z) 2 1 1);
    [left; reflexivity | lia | lia | lia | split; discriminate
     | split; discriminate].
Defined.

(** A two-frame stack with two pixels per frame, the left one dark and
    the right one bright in both frames. *)
Definition demo_two_pixels : farray :=
  mk_ndarray [2; 1; 2]%nat
    (fun idx => match idx with [_; _; w] => inject_Z (Z.of_nat w) | _ => 0 end).

(** C10, counterexample.  With the moving average over 11 frames as the
    only filter, the bright pixel, which is 1 in every frame after
    normalisation, comes out as 1 + 2^-23: eleven times the float32 nearest
    to 1/11, added up in float32. *)
Lemma moving_average_exceeds_one :
  exists Y,
    preprocess_ceus demo_log1p demo_kernel demo_two_pixels false 1 99
      None (Some "mean"%string) 11 None = Val Y
    /\ item Y [0; 0; 1]%nat = 8388609 # 8388608
    /\ ~ Forall (fun v => 0 <= v <= 1) (ravel Y).
Proof.
  eexists. split; [reflexivity|]. split; [vm_compute; reflexivity|].
  intro H. rewrite Forall_forall in H.
  match type of H with
  | forall x, In x (ravel ?Y) -> _ =>
      assert (Hv : In (item Y [0; 0; 1]%nat) (ravel Y))
  end.
  { unfold ravel. apply in_map. vm_compute. right. left. reflexivity. }
  apply H in Hv. destruct Hv as [_ Hv]. vm_compute in Hv. apply Hv. reflexivity.
Qed.

(** C10 (amended).  On every valid stack (single-channel or three-channel,
    non-empty, percentiles within [0, 100]) the preprocessor returns a
    stack, whatever the settings; and every value of a stack that it
    returns is non-negative, for any [log1p] that is non-negative on
    non-negative input with [0 < log1p 20] and any Gaussian kernel with
    non-negative weights.  The values are at most 1 as well when
    log-compression, Gaussian spatial smoothing and temporal filtering are
    all off. *)
Theorem preprocess_values_are_nonnegative :
  forall (log1p : Q -> Q) (gaussian_kernel1d : Q -> nat -> list Q),
    (forall a, 0 <= a -> 0 <= log1p a) ->
    0 < log1p 20 ->
    (forall sigma radius, Forall (Qle 0) (gaussian_kernel1d sigma radius)) ->
    forall (stack : farray) (use_log : bool) (p_lo p_hi : Q)
           (spatial temporal : option string) (t_win : Z)
           (baseline_frames : option Z),
      (forall T H W : nat,
          shape stack = [T; H; W] \/ shape stack = [T; H; W; 3%nat] ->
          (0 < T)%nat -> (0 < H)%nat -> (0 < W)%nat ->
          0 <= p_lo <= 100 -> 0 <= p_hi <= 100 ->
          exists Y,
            preprocess_ceus log1p gaussian_kernel1d stack use_log p_lo p_hi
              spatial temporal t_win baseline_frames = Val Y
            /\ shape Y = [T; H; W])
      /\ (forall Y : farray,
            preprocess_ceus log1p gaussian_kernel1d stack use_log p_lo p_hi
              spatial temporal t_win baseline_frames = Val Y ->
            Forall (fun v => 0 <= v) (ravel Y)
            /\ (use_log = false ->
                str_is "gaussian" spatial = false ->
                str_is "gaussian" temporal = false ->
                str_is "mean" temporal = false ->
                Forall (fun v => v <= 1) (ravel Y))).
Proof.
  intros log1p kernel Ln Lp Kn stack use_log p_lo p_hi spatial temporal
         t_win bf.
  split.
  - intros T H W Es HT HH HW Hlo Hhi.
    exact (preprocess_ceus_total log1p kernel stack use_log p_lo p_hi spatial
             temporal t_win bf T H W Es HT HH HW Hlo Hhi).
  - intros Y E.
    destruct (preprocess_ceus_returns log1p kernel Ln Lp Kn _ _ _ _ _ _ _ _
                _ E) as [N B].
    split.
    + unfold ravel. apply Forall_forall. intros v Hv.
      apply in_map_iff in Hv. destruct Hv as [idx [<- _]]. apply N.
    + intros H1 H2 H3 H4. unfold ravel. apply Forall_forall. intros v Hv.
      apply in_map_iff in Hv. destruct Hv as [idx [<- _]].
      apply (B H1 H2 H3 H4).
Qed.

(** C10, an instance: the two-frame stack without log-compression, with
    the median filter, baseline subtraction and no temporal filter. *)
Lemma preprocess_values_are_nonnegative_example :
  (forall T H W : nat,
      shape demo_gray = [T; H; W] \/ shape demo_gray = [T; H; W; 3%nat] ->
      (0 < T)%nat -> (0 < H)%nat -> (0 < W)%nat ->
      0 <= 1 <= 100 -> 0 <= 99 <= 100 ->
      exists Y,
        preprocess_ceus demo_log1p demo_kernel demo_gray false 1 99
          (Some "median"%string) None 3 (Some 5%Z) = Val Y
        /\ shape Y = [T; H; W])
  /\ (forall Y : farray,
        preprocess_ceus demo_log1p demo_kernel demo_gray false 1 99
          (Some "median"%string) None 3 (Some 5%Z) = Val Y ->
        Forall (fun v => 0 <= v) (ravel Y)
        /\ (false = false ->
            str_is "gaussian" (Some "median"%string) = false ->
            str_is "gaussian" None = false ->
            str_is "mean" None = false ->
            Forall (fun v => v <= 1) (ravel Y))).
Proof.
  apply (preprocess_values_are_nonnegative demo_log1p demo_kernel).
  - intros a Ha. exact Ha.
  - reflexivity.
  - intros sigma radius. unfold demo_kernel. repeat constructor; lra.
Defined.

End PreprocFacts.

(** * Further properties of the code *)

(** ** MetricsEngine: peak, area, peak by magnitude *)

Module MetricsMoreFacts.
Import Metrics.

Lemma argmax_from_spec (L : list Q) :
  forall l pre bi best,
    L = pre ++ l ->
    (bi < length pre)%nat ->
    best = nth bi L 0 ->
    (forall j, (j < length pre)%nat -> nth j L 0 <= best) ->
    (forall j, (j < bi)%nat -> nth j L 0 < best) ->
    let k := argmax_from bi best (length pre) l in
    (k < length L)%nat
    /\ (forall j, (j < length L)%nat -> nth j L 0 <= nth k L 0)
    /\ (forall j, (j < k)%nat -> nth j L 0 < nth k L 0).
Proof.
  induction l as [|x r IH]; intros pre bi best HL Hbi Hbest Hle Hlt.
  - simpl. rewrite app_nil_r in HL. subst L. rewrite <- Hbest.
    split; [lia|]. split; assumption.
  - assert (HL' : L = (pre ++ [x]) ++ r) by (rewrite <- app_assoc; exact HL).
    assert (Hx : nth (length pre) L 0 = x) by (rewrite HL; apply nth_middle).
    assert (Hlen : length (pre ++ [x]) = S (length pre))
      by (rewrite length_app; simpl; lia).
    simpl. destruct (Qlt_bool best x) eqn:E.
    + apply Qlt_bool_iff in E.
      rewrite <- Hlen. apply IH.
      * exact HL'.
      * lia.
      * symmetry; exact Hx.
      * intros j Hj.
        destruct (Nat.eq_dec j (length pre)) as [->|Hne].
        -- rewrite Hx. apply Qle_refl.
        -- apply Qlt_le_weak. apply Qle_lt_trans with best; [|exact E].
           apply Hle. lia.
      * intros j Hj.
        apply Qle_lt_trans with best; [|exact E]. apply Hle. exact Hj.
    + apply Qlt_bool_false in E.
      rewrite <- Hlen. apply IH.
      * exact HL'.
      * lia.
      * exact Hbest.
      * intros j Hj.
        destruct (Nat.eq_dec j (length pre)) as [->|Hne].
        -- rewrite Hx. exact E.
        -- apply Hle. lia.
      * exact Hlt.
Qed.

Lemma getitem_in_range (a : list Q) (i : nat) :
  (i < length a)%nat -> getitem a i = Val (nth i a 0).
Proof.
  intro H. unfold getitem.
  destruct (nth_error a i) as [v|] eqn:E.
  - rewrite (nth_error_nth a i 0 E). reflexivity.
  - apply nth_error_None in E. lia.
Qed.

Lemma compute_peak_ttp_spec (t y : list Q) :
  y <> [] -> length t = length y ->
  exists i,
    compute_peak_ttp t y = (num (nth i y 0), num (nth i t 0))
    /\ (i < length y)%nat
    /\ (forall j, (j < length y)%nat -> nth j y 0 <= nth i y 0)
    /\ (forall j, (j < i)%nat -> nth j y 0 < nth i y 0).
Proof.
  intros Hy Hlen. destruct y as [|y0 r]; [congruence|].
  destruct (argmax_from_spec (y0 :: r) r [y0] 0%nat y0) as [Hk [Hmax Hfirst]];
    simpl; auto.
  - intros j Hj. assert (j = 0%nat) by lia. subst. apply Qle_refl.
  - intros j Hj. lia.
  - exists (argmax_from 0 y0 1 r). split; [|repeat split; assumption].
    unfold compute_peak_ttp. cbn [argmax bind].
    rewrite getitem_in_range by exact Hk. cbn [bind].
    rewrite getitem_in_range by (rewrite Hlen; exact Hk). reflexivity.
Qed.

(** X1.  On a curve with as many times as values (at least one), Peak is
    the maximum of the values and TTP is the time of its first occurrence. *)
Theorem peak_is_first_maximum :
  forall polyfit_slope (t y : list Q),
    y <> [] -> length t = length y ->
    exists d i,
      _metrics_from_curve polyfit_slope (numeric t) (numeric y) = Val d
      /\ lookup "Peak" d = Some (num (nth i y 0))
      /\ lookup "TTP" d = Some (num (nth i t 0))
      /\ (i < length y)%nat
      /\ (forall j, (j < length y)%nat -> nth j y 0 <= nth i y 0)
      /\ (forall j, (j < i)%nat -> nth j y 0 < nth i y 0).
Proof.
  intros pf t y Hy Hlen.
  destruct (compute_peak_ttp_spec t y Hy Hlen) as [i [E [Hi [Hmax Hfirst]]]].
  unfold _metrics_from_curve. cbn [asarray_float bind].
  destruct t as [|t0 t']; [destruct y; [congruence | discriminate]|].
  destruct y as [|y0 y']; [congruence|].
  cbn [length Nat.eqb orb]. rewrite E.
  eexists; exists i. split; [reflexivity|].
  repeat split; try assumption; reflexivity.
Qed.

Lemma peak_is_first_maximum_example :
  exists d i,
    _metrics_from_curve (fun _ _ => Raised) (numeric [0; 1; 2; 3])
      (numeric [1; 4; 4; 2]) = Val d
    /\ lookup "Peak" d = Some (num (nth i [1; 4; 4; 2] 0))
    /\ lookup "TTP" d = Some (num (nth i [0; 1; 2; 3] 0))
    /\ (i < length [1; 4; 4; 2])%nat
    /\ (forall j, (j < length [1; 4; 4; 2])%nat ->
                  nth j [1; 4; 4; 2] 0 <= nth i [1; 4; 4; 2] 0)
    /\ (forall j, (j < i)%nat -> nth j [1; 4; 4; 2] 0 < nth i [1; 4; 4; 2] 0).
Proof.
  apply (peak_is_first_maximum (fun _ _ => Raised) [0; 1; 2; 3] [1; 4; 4; 2]);
    [discriminate | reflexivity].
Defined.









Lemma Qmax_choice (a b : Q) : Qmax a b = a \/ Qmax a b = b.
Proof.
  unfold Qmax, GenericMinMax.gmax. destruct (a ?= b); auto.
Qed.

Lemma Qmin_choice (a b : Q) : Qmin a b = a \/ Qmin a b = b.
Proof.
  unfold Qmin, GenericMinMax.gmin. destruct (a ?= b); auto.
Qed.

Lemma fold_max_spec (r : list Q) :
  forall x,
    In (fold_left Qmax r x) (x :: r)
    /\ forall v, In v (x :: r) -> v <= fold_left Qmax r x.
Proof.
  induction r as [|a r IH]; intro x; simpl.
  - split; [left; reflexivity|]. intros v [<-|[]]. apply Qle_refl.
  - destruct (IH (Qmax x a)) as [Hin Hle]. split.
    + destruct Hin as [Hin|Hin]; [|right; right; exact Hin].
      destruct (Qmax_choice x a) as [E|E]; [left | right; left];
        (transitivity (Qmax x a); [symmetry; exact E | exact Hin]).
    + intros v [<-|[<-|Hv]].
      * eapply Qle_trans; [apply Q.le_max_l | apply Hle; left; reflexivity].
      * eapply Qle_trans; [apply Q.le_max_r | apply Hle; left; reflexivity].
      * apply Hle. right; exact Hv.
Qed.

Lemma fold_min_spec (r : list Q) :
  forall x,
    In (fold_left Qmin r x) (x :: r)
    /\ forall v, In v (x :: r) -> fold_left Qmin r x <= v.
Proof.
  induction r as [|a r IH]; intro x; simpl.
  - split; [left; reflexivity|]. intros v [<-|[]]. apply Qle_refl.
  - destruct (IH (Qmin x a)) as [Hin Hle]. split.
    + destruct Hin as [Hin|Hin]; [|right; right; exact Hin].
      destruct (Qmin_choice x a) as [E|E]; [left | right; left];
        (transitivity (Qmin x a); [symmetry; exact E | exact Hin]).
    + intros v [<-|[<-|Hv]].
      * eapply Qle_trans; [apply Hle; left; reflexivity | apply Q.le_min_l].
      * eapply Qle_trans; [apply Hle; left; reflexivity | apply Q.le_min_r].
      * apply Hle. right; exact Hv.
Qed.

Lemma Qabs_between (lo hi x : Q) :
  lo <= x -> x <= hi ->
  Qabs x <= (if Qle_bool (Qabs lo) (Qabs hi) then Qabs hi else Qabs lo).
Proof.
  intros Hlo Hhi.
  assert (H1 : hi <= Qabs hi) by apply Qle_Qabs.
  assert (H2 : - lo <= Qabs lo) by (rewrite <- Qabs_opp; apply Qle_Qabs).
  assert (Hx : Qabs x <= Qabs hi \/ Qabs x <= Qabs lo).
  { apply Qabs_case; intro Hs; [left | right]; lra. }
  destruct (Qle_bool (Qabs lo) (Qabs hi)) eqn:E.
  - apply Qle_bool_iff in E. destruct Hx; lra.
  - assert (Qabs hi <= Qabs lo).
    { destruct (Qlt_le_dec (Qabs lo) (Qabs hi)) as [Hlt|Hge]; [|exact Hge].
      assert (Qle_bool (Qabs lo) (Qabs hi) = true)
        by (apply Qle_bool_iff; lra).
      congruence. }
    destruct Hx; lra.
Qed.

(** X3.  "Peak by magnitude" of the export path: on a non-empty series it
    is one of the samples, and no sample exceeds it in absolute value. *)
Theorem peak_by_magnitude_dominates :
  forall y_inc : list Q,
    y_inc <> [] ->
    exists v,
      peak_by_magnitude y_inc = num v
      /\ In v y_inc
      /\ forall x, In x y_inc -> Qabs x <= Qabs v.
Proof.
  intros y Hy. destruct y as [|y0 r]; [congruence|].
  destruct (fold_max_spec r y0) as [Hmax_in Hmax].
  destruct (fold_min_spec r y0) as [Hmin_in Hmin].
  unfold peak_by_magnitude. cbn [nanmax nanmin bind try_except].
  eexists; split; [reflexivity|]. split.
  - destruct (Qle_bool _ _); assumption.
  - intros x Hx.
    pose proof (Qabs_between _ _ x (Hmin x Hx) (Hmax x Hx)) as H.
    destruct (Qle_bool _ _); exact H.
Qed.

Lemma peak_by_magnitude_dominates_example :
  exists v,
    peak_by_magnitude [1; -5 # 1; 2] = num v
    /\ In v [1; -5 # 1; 2]
    /\ forall x, In x [1; -5 # 1; 2] -> Qabs x <= Qabs v.
Proof.
  apply (peak_by_magnitude_dominates [1; -5 # 1; 2]). discriminate.
Defined.

End MetricsMoreFacts.

(** ** MetricsEngine: what is NaN, and when *)

Module MetricsEdgeFacts.
Import Metrics MetricsFacts MetricsMoreFacts.




Section WithPolyfit.

Variable polyfit_slope : list Q -> list Q -> res metric.




End WithPolyfit.

End MetricsEdgeFacts.

(** ** EventDetector: short stacks and the manual override *)

Module FlashMoreFacts.
Import Flash FlashManual.

(** X4.  A stack of fewer than two frames has no first difference: the
    detector raises instead of returning indices. *)
Theorem detect_flash_raises_on_short_stack :
  forall (mean : frame -> Q) (rnd : Q -> Q)
         (ceus_stack : stack) (exclude_first_n search_window : Z),
    (length ceus_stack < 2)%nat ->
    detect_flash_ceus_refined mean rnd ceus_stack exclude_first_n search_window
    = Raised.
Proof.
  intros mean rnd stk e w H. unfold detect_flash_ceus_refined.
  assert (Hd : np_diff rnd (map mean stk) = []).
  { destruct stk as [|f0 [|f1 r]]; simpl in *; [reflexivity | reflexivity | lia]. }
  rewrite Hd. unfold slice_from. rewrite skipn_nil. reflexivity.
Qed.

Lemma detect_flash_raises_on_short_stack_example :
  detect_flash_ceus_refined FlashFacts.demo_mean f64 [[3; 4]] 5 20 = Raised.
Proof.
  apply (detect_flash_raises_on_short_stack FlashFacts.demo_mean f64
           [[3; 4]] 5 20).
  simpl. lia.
Defined.

(** X5.  The manual override re-derives the washout by the detector's own
    rule: set on the frame the detector found (with its default window of
    20), it yields the detector's washout index. *)
Theorem manual_override_agrees_with_detector :
  forall (mean : frame -> Q) (rnd : Q -> Q)
         (ceus_stack : stack) (exclude_first_n flash washout : Z)
         (intensities : list Q),
    detect_flash_ceus_refined mean rnd ceus_stack exclude_first_n 20
    = Val (flash, washout, intensities) ->
    set_flash_manual mean ceus_stack flash = Val (flash, washout).
Proof.
  intros mean rnd stk e f w I H. unfold detect_flash_ceus_refined in H.
  destruct (argmin (slice_from (np_diff rnd (map mean stk))
                      (Z.min e (Z.of_nat (length (map mean stk)) / 10))))
    as [k|]; [|discriminate].
  cbn [bind] in H.
  destruct (argmin (slice (map mean stk) _ _)) as [j|] eqn:E;
    [|discriminate].
  cbn [bind] in H. injection H as Hf Hw HI.
  unfold set_flash_manual. rewrite <- Hf. rewrite E. cbn [bind].
  rewrite Hw. reflexivity.
Qed.

Lemma manual_override_agrees_with_detector_example :
  set_flash_manual FlashFacts.demo_mean [[5]; [9]; [2]; [1]; [4]] 1
  = Val (1%Z, 3%Z).
Proof.
  apply (manual_override_agrees_with_detector FlashFacts.demo_mean f64
           [[5]; [9]; [2]; [1]; [4]] 0 1 3 [5; 9; 2; 1; 4]).
  vm_compute. reflexivity.
Defined.

End FlashMoreFacts.

(** ** RegionClassifier: precedence, geometry, colour conversion *)

Module RegionsMoreFacts.
Import Regions.

Section ClassifierMore.

Variable sqrt : Q -> Q.

(** X6.  An explicitly tagged contrast region takes precedence over every
    vendor heuristic: the first type-2 region becomes CEUS and the first
    type-1 region, if there is one, B-mode, whatever the manufacturer. *)
Theorem explicit_contrast_region_wins :
  forall (ds : dataset) (all_regions : list region_entry) (st : loader)
         (e2 : region_entry) (rest2 : list region_entry),
    type2_regions all_regions = e2 :: rest2 ->
    exists st',
      _classify_regions sqrt ds all_regions st = Val st'
      /\ ceus_stack st' = Some (_convert_colorspace ds (entry_stack e2))
      /\ ceus_region_idx st' = Some (entry_idx e2)
      /\ match type1_regions all_regions with
         | e1 :: _ =>
             bmode_stack st' = Some (_convert_colorspace ds (entry_stack e1))
             /\ bmode_region_idx st' = Some (entry_idx e1)
         | [] =>
             bmode_stack st' = bmode_stack st
             /\ bmode_region_idx st' = bmode_region_idx st
         end.
Proof.
  intros ds all_regions st e2 rest2 H2.
  unfold _classify_regions. rewrite H2.
  destruct (type1_regions all_regions) as [|e1 rest1];
    eexists; (split; [reflexivity|]); repeat split; reflexivity.
Qed.

Lemma sort_x0_pair (a b : region_entry) :
  (entry_x0 a < entry_x0 b)%Z ->
  sort_by (fun x y : region_entry => (entry_x0 x <=? entry_x0 y)%Z) [a; b]
  = [a; b]
  /\ sort_by (fun x y : region_entry => (entry_x0 x <=? entry_x0 y)%Z) [b; a]
     = [a; b].
Proof.
  intro H. unfold sort_by. simpl.
  destruct (Z.leb_spec (entry_x0 a) (entry_x0 b)); [|lia].
  destruct (Z.leb_spec (entry_x0 b) (entry_x0 a)); [lia|].
  split; reflexivity.
Qed.

(** X7.  For the split-screen vendor (a manufacturer name containing "ge",
    in any letter case) two ambiguous regions are told apart by position
    alone: the one further left is B-mode, the other CEUS, in whichever
    order they are listed and whatever their colours. *)
Theorem split_screen_vendor_left_is_bmode :
  forall (ds : dataset) (all_regions : list region_entry) (st : loader)
         (a b : region_entry),
    contains "ge" (manufacturer_lower ds) = true ->
    type2_regions all_regions = [] ->
    type1_regions all_regions = [a; b] \/ type1_regions all_regions = [b; a] ->
    (entry_x0 a < entry_x0 b)%Z ->
    exists st',
      _classify_regions sqrt ds all_regions st = Val st'
      /\ bmode_stack st' = Some (_convert_colorspace ds (entry_stack a))
      /\ bmode_region_idx st' = Some (entry_idx a)
      /\ ceus_stack st' = Some (_convert_colorspace ds (entry_stack b))
      /\ ceus_region_idx st' = Some (entry_idx b).
Proof.
  intros ds all_regions st a b Hge H2 H1 Hlt.
  destruct (sort_x0_pair a b Hlt) as [S1 S2].
  unfold _classify_regions. rewrite H2, Hge.
  destruct H1 as [H1|H1]; rewrite H1; cbn [length Nat.leb];
    [rewrite S1 | rewrite S2];
    eexists; (split; [reflexivity|]); repeat split; reflexivity.
Qed.

End ClassifierMore.

Lemma explicit_contrast_region_wins_example :
  let arr := RegionsFacts.demo_volume in
  let e1 := (0%nat, Some 1%Z, @None Z, 0%Z, crop arr 0 1 0 1) in
  let e2 := (1%nat, Some 2%Z, @None Z, 2%Z, crop arr 0 1 2 3) in
  let ds := mk_dataset None (Some "GE Healthcare"%string) None in
  exists st',
    _classify_regions (fun q => q) ds [e1; e2] init_loader = Val st'
    /\ ceus_stack st' = Some (_convert_colorspace ds (entry_stack e2))
    /\ ceus_region_idx st' = Some (entry_idx e2)
    /\ match type1_regions [e1; e2] with
       | e :: _ =>
           bmode_stack st' = Some (_convert_colorspace ds (entry_stack e))
           /\ bmode_region_idx st' = Some (entry_idx e)
       | [] =>
           bmode_stack st' = bmode_stack init_loader
           /\ bmode_region_idx st' = bmode_region_idx init_loader
       end.
Proof.
  intros arr e1 e2 ds.
  apply (explicit_contrast_region_wins (fun q => q) ds [e1; e2] init_loader
           e2 []).
  reflexivity.
Defined.

Lemma split_screen_vendor_left_is_bmode_example :
  let arr := RegionsFacts.demo_volume in
  let left := (1%nat, Some 1%Z, @None Z, 0%Z, crop arr 0 1 0 1) in
  let right := (0%nat, Some 1%Z, @None Z, 2%Z, crop arr 0 1 2 3) in
  let ds := mk_dataset None (Some "GE Healthcare"%string) None in
  exists st',
    _classify_regions (fun q => q) ds [right; left] init_loader = Val st'
    /\ bmode_stack st' = Some (_convert_colorspace ds (entry_stack left))
    /\ bmode_region_idx st' = Some (entry_idx left)
    /\ ceus_stack st' = Some (_convert_colorspace ds (entry_stack right))
    /\ ceus_region_idx st' = Some (entry_idx right).
Proof.
  intros arr left right ds.
  apply (split_screen_vendor_left_is_bmode (fun q => q) ds [right; left]
           init_loader left right);
    [reflexivity | reflexivity | right; reflexivity | reflexivity].
Defined.

(** X8.  Every region that survives parsing lies inside the image and is
    at least two pixels wide and high: its left edge is a valid column, and
    its stack keeps the frame count (and the channel axis) of the volume. *)
Theorem parsed_region_lies_inside_image :
  forall (arr : pixels) (i : nat) (reg : region_desc) (e : region_entry)
         (T H W : nat) (rest : list nat),
    shape arr = T :: H :: W :: rest ->
    parse_region arr i reg = Some e ->
    entry_idx e = i
    /\ entry_dtype e = RegionDataType reg
    /\ (0 <= entry_x0 e)%Z
    /\ exists h w,
         shape (entry_stack e) = T :: h :: w :: rest
         /\ (2 <= h <= H)%nat /\ (2 <= w <= W)%nat
         /\ (Z.to_nat (entry_x0 e) + w <= W)%nat.
Proof.
  intros arr i reg e T H W rest Hs Hp. unfold parse_region in Hp.
  destruct (RegionLocationMinX0 reg) as [x0|]; [|discriminate].
  destruct (RegionLocationMinY0 reg) as [y0|]; [|discriminate].
  destruct (RegionLocationMaxX1 reg) as [x1|]; [|discriminate].
  destruct (RegionLocationMaxY1 reg) as [y1|]; [|discriminate].
  rewrite Hs in Hp. cbn [nth] in Hp.
  destruct ((clip_coord x1 W <=? clip_coord x0 W)
            || (clip_coord y1 H <=? clip_coord y0 H))%Z eqn:E; [discriminate|].
  apply orb_false_iff in E. destruct E as [Ex Ey].
  apply Z.leb_gt in Ex. apply Z.leb_gt in Ey.
  injection Hp as <-. unfold clip_coord in *.
  cbn [entry_idx entry_dtype entry_x0 entry_stack crop shape].
  rewrite Hs.
  split; [reflexivity|]. split; [reflexivity|]. split; [lia|].
  eexists; eexists. split; [reflexivity|]. lia.
Qed.

Lemma parsed_region_lies_inside_image_example :
  let reg := mk_region (Some 1%Z) None (Some (-3)%Z) (Some 0%Z) (Some 9%Z)
               (Some 1%Z) in
  exists e,
    parse_region RegionsFacts.demo_volume 0 reg = Some e
    /\ entry_idx e = 0%nat
    /\ (0 <= entry_x0 e)%Z
    /\ exists h w,
         shape (entry_stack e) = [1; h; w; 3]%nat
         /\ (2 <= h <= 2)%nat /\ (2 <= w <= 4)%nat
         /\ (Z.to_nat (entry_x0 e) + w <= 4)%nat.
Proof.
  intro reg. eexists. split; [reflexivity|].
  destruct (parsed_region_lies_inside_image RegionsFacts.demo_volume 0 reg _
              1 2 4 [3%nat] eq_refl eq_refl) as [H1 [_ [H3 H4]]].
  split; [exact H1|]. split; [exact H3 | exact H4].
Defined.

Lemma clipQ_range (v lo hi : Q) : lo <= hi -> lo <= clipQ v lo hi <= hi.
Proof.
  intro H. unfold clipQ.
  destruct (Q.max_spec v lo) as [[Ha Hb]|[Ha Hb]];
    destruct (Q.min_spec (Qmax v lo) hi) as [[Hc Hd]|[Hc Hd]];
    rewrite ?Hd; rewrite ?Hb in *; lra.
Qed.

Lemma clipQ_inside (v lo hi : Q) : lo <= v -> v <= hi -> clipQ v lo hi == v.
Proof.
  intros H1 H2. unfold clipQ.
  destruct (Q.max_spec v lo) as [[Ha Hb]|[Ha Hb]];
    destruct (Q.min_spec (Qmax v lo) hi) as [[Hc Hd]|[Hc Hd]];
    rewrite ?Hd; rewrite ?Hb in *; lra.
Qed.

Lemma floor_clip_byte (v : Q) : (0 <= Qfloor (clipQ v 0 255) <= 255)%Z.
Proof.
  destruct (clipQ_range v 0 255) as [H0 H1]; [lra|].
  split.
  - change 0%Z with (Qfloor 0). apply Qfloor_resp_le. exact H0.
  - change 255%Z with (Qfloor 255). apply Qfloor_resp_le. exact H1.
Qed.

(** X9.  The colour conversion never leaves the byte range: every sample
    of the converted frame is an integer between 0 and 255, because the
    values are clipped before the cast. *)
Theorem ycbcr_to_rgb_stays_in_byte_range :
  forall (f : pixels) (idx : list nat),
    (0 <= item (ycbcr_to_rgb f) idx <= 255)%Z.
Proof.
  intros f idx. unfold ycbcr_to_rgb. cbn [item].
  destruct idx as [|h [|w [|c [|? ?]]]]; try lia.
  destruct c as [|[|c]]; apply floor_clip_byte.
Qed.

(** The bytes are binary64 numbers: rounding leaves them as they are. *)
Lemma f64_byte (y : Z) : (0 <= y <= 255)%Z -> f64 (inject_Z y) = inject_Z y.
Proof.
  intros Hy.
  assert (Hall : forallb (fun n => Qeq_bool (f64 (inject_Z (Z.of_nat n)))
                                            (inject_Z (Z.of_nat n))
                                   && Pos.eqb (Qden (f64 (inject_Z (Z.of_nat n)))) 1)
                         (seq 0 256) = true)
    by (vm_compute; reflexivity).
  rewrite forallb_forall in Hall.
  assert (Hin : In (Z.to_nat y) (seq 0 256)) by (apply in_seq; lia).
  specialize (Hall (Z.to_nat y) Hin).
  rewrite Z2Nat.id in Hall by lia.
  apply andb_prop in Hall. destruct Hall as [Hq Hd].
  apply Qeq_bool_iff in Hq. apply Pos.eqb_eq in Hd.
  destruct (f64 (inject_Z y)) as [n d]. simpl in Hd. subst d.
  unfold Qeq in Hq. simpl in Hq. unfold inject_Z. f_equal. lia.
Qed.

(** X10.  A pixel with neutral chroma (Cb = Cr = 128) and luma between 0
    and 255 is converted to the grey of that luma: R = G = B = Y. *)
Theorem ycbcr_neutral_chroma_is_grey :
  forall (f : pixels) (h w : nat) (y : Z),
    item f [h; w; 0%nat] = y ->
    item f [h; w; 1%nat] = 128%Z ->
    item f [h; w; 2%nat] = 128%Z ->
    (0 <= y <= 255)%Z ->
    forall c, item (ycbcr_to_rgb f) [h; w; c] = y.
Proof.
  intros f h w y Hy Hcb Hcr Hr c.
  assert (Hq : 0 <= inject_Z y <= 255).
  { split.
    - change 0 with (inject_Z 0). rewrite <- Zle_Qle. lia.
    - change 255 with (inject_Z 255). rewrite <- Zle_Qle. lia. }
  unfold ycbcr_to_rgb. cbn [item]. rewrite Hy, Hcb, Hcr.
  assert (Hz : f64 (inject_Z 128 - 128) = 0) by reflexivity.
  rewrite Hz.
  assert (Hp : forall k, f64 (f64 k * 0) = 0)
    by (intro k; apply round_float_zero; ring).
  rewrite !Hp.
  assert (Ha : f64 (inject_Z y + 0) = inject_Z y)
    by (rewrite (round_float_comp 53 _ (inject_Z y)) by ring;
        apply f64_byte; exact Hr).
  assert (Hs : f64 (inject_Z y - 0) = inject_Z y)
    by (rewrite (round_float_comp 53 _ (inject_Z y)) by ring;
        apply f64_byte; exact Hr).
  rewrite Ha, Hs, Hs.
  assert (E : Qfloor (clipQ (inject_Z y) 0 255) = y).
  { rewrite <- (Qfloor_Z y) at 2. apply Qfloor_comp.
    apply clipQ_inside; lra. }
  destruct c as [|[|c]]; exact E.
Qed.

(** Rounding decides the green sample of (Y, Cb, Cr) = (222, 28, 228): the
    exact value of the expression is 185, the binary64 value is
    184.99999999999997, and the cast gives 184. *)
Lemma ycbcr_to_rgb_truncates_the_rounded_value :
  item (ycbcr_to_rgb
          (mk_ndarray [1; 1; 3]%nat
             (fun idx => match idx with
                         | [_; _; 0%nat] => 222%Z
                         | [_; _; 1%nat] => 28%Z
                         | _ => 228%Z
                         end))) [0; 0; 1]%nat = 184%Z
  /\ 222 - (344136 # 1000000) * (28 - 128) - (714136 # 1000000) * (228 - 128)
     == 185.
Proof. split; vm_compute; reflexivity. Qed.

Definition demo_ycbcr_frame : pixels :=
  mk_ndarray [1; 1; 3]%nat
    (fun idx => match idx with
                | [_; _; 0%nat] => 90%Z
                | _ => 128%Z
                end).

Lemma ycbcr_neutral_chroma_is_grey_example :
  item (ycbcr_to_rgb demo_ycbcr_frame) [0; 0; 0]%nat = 90%Z
  /\ item (ycbcr_to_rgb demo_ycbcr_frame) [0; 0; 1]%nat = 90%Z
  /\ item (ycbcr_to_rgb demo_ycbcr_frame) [0; 0; 2]%nat = 90%Z.
Proof.
  split; [|split];
    apply (ycbcr_neutral_chroma_is_grey demo_ycbcr_frame 0 0 90);
    first [reflexivity | lia].
Defined.

End RegionsMoreFacts.

(** ** Frame rate, ROI validation, goodness of fit *)

Module UtilityFacts.

(** X11.  The frame rate is positive whenever every timing attribute that
    is present is positive and, when none is present, the CEUS stack that
    serves as fallback is not empty.  Its value is decided by the first
    source present: 1000 / FrameTime (a binary64 quotient), CineRate,
    RecommendedDisplayFrameRate, the frame count over 60 (a binary64
    quotient), and without any of them the default 10. *)
Theorem get_fps_is_positive :
  forall (md : Timing.metadata) (ceus_len : option nat),
    (forall v, Timing.FrameTime md = Some v -> 0 < v) ->
    (forall v, Timing.CineRate md = Some v -> 0 < v) ->
    (forall v, Timing.RecommendedDisplayFrameRate md = Some v -> 0 < v) ->
    (forall n, ceus_len = Some n -> (0 < n)%nat) ->
    exists fps,
      Timing.get_fps md ceus_len = Val fps
      /\ 0 < fps
      /\ match Timing.FrameTime md, Timing.CineRate md,
               Timing.RecommendedDisplayFrameRate md, ceus_len with
         | Some ft, _, _, _ => fps = f64 (1000 / f64 ft)
         | None, Some r, _, _ => fps = r
         | None, None, Some r, _ => fps = r
         | None, None, None, Some n => fps = f64 (inject_Z (Z.of_nat n) / 60)
         | None, None, None, None => fps = 10
         end.
Proof.
  intros md n Hft Hcr Hrr Hn. unfold Timing.get_fps.
  destruct (Timing.FrameTime md) as [ft|].
  - specialize (Hft ft eq_refl).
    destruct (Qeq_bool ft 0) eqn:E.
    + apply Qeq_bool_iff in E. lra.
    + eexists; split; [reflexivity|]. split; [|reflexivity].
      apply round_float_pos; [lia|].
      pose proof (round_float_pos 53 ft ltac:(lia) Hft) as Hp.
      apply Qlt_shift_div_l; [exact Hp | lra].
  - destruct (Timing.CineRate md) as [cr|];
      [eexists; split; [reflexivity|];
       split; [apply Hcr; reflexivity | reflexivity]|].
    destruct (Timing.RecommendedDisplayFrameRate md) as [rr|];
      [eexists; split; [reflexivity|];
       split; [apply Hrr; reflexivity | reflexivity]|].
    destruct n as [k|];
      [|eexists; split; [reflexivity|]; split; reflexivity].
    specialize (Hn k eq_refl).
    eexists; split; [reflexivity|]. split; [|reflexivity].
    apply round_float_pos; [lia|].
    apply Qlt_shift_div_l; [reflexivity|]. rewrite Qmult_0_l.
    change 0 with (inject_Z 0). rewrite <- Zlt_Qlt. lia.
Qed.

Lemma get_fps_is_positive_example :
  exists fps,
    Timing.get_fps (Timing.mk_metadata (Some 40) (Some 13) None) (Some 300%nat)
    = Val fps
    /\ 0 < fps
    /\ fps = f64 (1000 / f64 40).
Proof.
  apply (get_fps_is_positive
           (Timing.mk_metadata (Some 40) (Some 13) None) (Some 300%nat)).
  - intros v H. injection H as <-. reflexivity.
  - intros v H. injection H as <-. reflexivity.
  - intros v H. discriminate.
  - intros n H. injection H as <-. lia.
Defined.

(** X12.  A zero frame time makes [get_fps] raise, even when a cine rate is
    available: the first attribute present decides, and there is no fall
    back to the next one. *)
Theorem get_fps_raises_on_zero_frame_time :
  forall (md : Timing.metadata) (ceus_len : option nat) (ft : Q),
    Timing.FrameTime md = Some ft -> ft == 0 ->
    Timing.get_fps md ceus_len = Raised.
Proof.
  intros md n ft H H0. unfold Timing.get_fps. rewrite H.
  apply Qeq_bool_iff in H0. rewrite H0. reflexivity.
Qed.

Lemma get_fps_raises_on_zero_frame_time_example :
  Timing.get_fps (Timing.mk_metadata (Some 0) (Some 13) (Some 25)) (Some 300%nat)
  = Raised.
Proof.
  apply (get_fps_raises_on_zero_frame_time
           (Timing.mk_metadata (Some 0) (Some 13) (Some 25)) (Some 300%nat) 0);
    reflexivity.
Defined.

Lemma validate_roi_inv (a b c d H W x0 y0 x1 y1 : Z) :
  Validators.validate_roi (a, b, c, d) H W = Some (x0, y0, x1, y1) ->
  x0 = Z.max 0 (Z.min a (W - 1)) /\ y0 = Z.max 0 (Z.min b (H - 1))
  /\ x1 = Z.max 0 (Z.min c (W - 1)) /\ y1 = Z.max 0 (Z.min d (H - 1))
  /\ (5 <= x1 - x0 + 1)%Z /\ (5 <= y1 - y0 + 1)%Z.
Proof.
  intros Hv. unfold Validators.validate_roi in Hv.
  destruct ((_ <? 5) || (_ <? 5))%Z eqn:E; [discriminate|].
  apply orb_false_iff in E. destruct E as [Ew Eh].
  apply Z.ltb_ge in Ew. apply Z.ltb_ge in Eh.
  injection Hv as <- <- <- <-. repeat split; assumption.
Qed.

(** X13.  An accepted ROI lies inside the image and spans at least five
    pixels in each direction. *)
Theorem validated_roi_inside_image :
  forall (r : Validators.roi) (H W x0 y0 x1 y1 : Z),
    Validators.validate_roi r H W = Some (x0, y0, x1, y1) ->
    (0 <= x0 /\ x0 + 4 <= x1 /\ x1 <= W - 1)%Z
    /\ (0 <= y0 /\ y0 + 4 <= y1 /\ y1 <= H - 1)%Z.
Proof.
  intros [[[a b] c] d] H W x0 y0 x1 y1 Hv.
  apply validate_roi_inv in Hv. lia.
Qed.

Lemma validated_roi_inside_image_example :
  (0 <= 0 /\ 0 + 4 <= 63 /\ 63 <= 64 - 1)%Z
  /\ (0 <= 10 /\ 10 + 4 <= 47 /\ 47 <= 48 - 1)%Z.
Proof.
  apply (validated_roi_inside_image ((-7)%Z, 10%Z, 200%Z, 90%Z) 48 64 0 10 63 47).
  reflexivity.
Defined.

(** X14.  Validation is idempotent: an accepted (clipped) ROI is accepted
    again, unchanged. *)
Theorem validate_roi_idempotent :
  forall (r r' : Validators.roi) (H W : Z),
    Validators.validate_roi r H W = Some r' ->
    Validators.validate_roi r' H W = Some r'.
Proof.
  intros [[[a b] c] d] [[[x0 y0] x1] y1] H W Hv.
  apply validate_roi_inv in Hv.
  unfold Validators.validate_roi.
  rewrite !Z.min_l by lia. rewrite !Z.max_r by lia.
  destruct (Z.ltb_spec (x1 - x0 + 1) 5); [lia|].
  destruct (Z.ltb_spec (y1 - y0 + 1) 5); [lia|].
  reflexivity.
Qed.

Lemma validate_roi_idempotent_example :
  Validators.validate_roi (0%Z, 10%Z, 63%Z, 47%Z) 48 64
  = Some (0%Z, 10%Z, 63%Z, 47%Z).
Proof.
  apply (validate_roi_idempotent ((-7)%Z, 10%Z, 200%Z, 90%Z)
           (0%Z, 10%Z, 63%Z, 47%Z) 48 64).
  reflexivity.
Defined.

End UtilityFacts.

(** ** Time-intensity curves *)

Module TicFacts.
Import Tic.

Definition demo_stack : ndarray Q :=
  mk_ndarray [3; 8; 8]%nat
    (fun idx => match idx with
                | [t; h; w] => inject_Z (Z.of_nat (10 * t + h + w))
                | _ => 0
                end).

Definition demo_stack' : ndarray Q :=
  mk_ndarray [3; 8; 8]%nat
    (fun idx => match idx with
                | [t; h; w] =>
                    if (w <? 6)%nat then inject_Z (Z.of_nat (10 * t + h + w))
                    else 1000
                | _ => 0
                end).

(** A float32 mean for the examples: the exact mean, rounded once. *)
Definition demo_mean (l : list Q) : Q :=
  f32 (qsum l / inject_Z (Z.of_nat (length l))).

Lemma gray_stack_frames (stack : ndarray Q) :
  hd 0%nat (shape (gray_stack stack)) = hd 0%nat (shape stack).
Proof.
  unfold gray_stack, Preproc.to_gray_stack, ndim.
  destruct (shape stack) as [|T [|H [|W [|c [|e s]]]]] eqn:E; cbn; try now rewrite E.
  destruct (Nat.eqb c 3); cbn; [reflexivity | now rewrite E].
Qed.

Section WithMean.

Variable mean : list Q -> Q.

Lemma extract_tic_unfold (stack : ndarray Q) (r : Validators.roi) (fps : Q)
    (x0 y0 x1 y1 : Z) :
  Validators.validate_roi r (Z.of_nat (nth 1 (shape stack) 0%nat))
                            (Z.of_nat (nth 2 (shape stack) 0%nat))
  = Some (x0, y0, x1, y1) ->
  extract_tic_from_roi mean stack r fps =
  let T := hd 0%nat (shape stack) in
  if Nat.eqb T 0 then Raised
  else
    let roi_series :=
      map (fun t => mean (roi_samples (gray_stack stack) x0 y0 x1 y1 t))
          (seq 0 T) in
    let time :=
      map (fun k => if Qeq_bool fps 0 then None
                    else Some (f32 (inject_Z (Z.of_nat k) / f32 fps)))
          (seq 0 T) in
    do baseline <- getitem roi_series 0;
    Val (time, roi_series, map (fun v => f32 (v - baseline)) roi_series).
Proof.
  intros Hv. unfold extract_tic_from_roi. rewrite Hv.
  cbv zeta. rewrite gray_stack_frames. reflexivity.
Qed.


(** X16.  Frames narrower or lower than five pixels cannot be analysed:
    whatever the ROI, the extraction raises. *)
Theorem tic_raises_on_small_frames :
  forall (stack : ndarray Q) (r : Validators.roi) (fps : Q),
    (nth 1 (shape stack) 0 < 5)%nat \/ (nth 2 (shape stack) 0 < 5)%nat ->
    extract_tic_from_roi mean stack r fps = Raised.
Proof.
  intros stack [[[x0 y0] x1] y1] fps Hs. unfold extract_tic_from_roi.
  destruct (Validators.validate_roi _ _ _) as [[[[a b] c] d]|] eqn:E;
    [|reflexivity].
  apply UtilityFacts.validate_roi_inv in E. lia.
Qed.

(** X17.  A stack without frames raises, whatever the ROI: either the ROI
    is refused, or there is no frame to stack or to reshape. *)
Theorem tic_raises_on_empty_stack :
  forall (stack : ndarray Q) (r : Validators.roi) (fps : Q),
    hd 0%nat (shape stack) = 0%nat ->
    extract_tic_from_roi mean stack r fps = Raised.
Proof.
  intros stack r fps HT.
  destruct (Validators.validate_roi r (Z.of_nat (nth 1 (shape stack) 0%nat))
              (Z.of_nat (nth 2 (shape stack) 0%nat)))
    as [[[[x0 y0] x1] y1]|] eqn:E.
  - rewrite (extract_tic_unfold stack r fps x0 y0 x1 y1 E). rewrite HT.
    reflexivity.
  - unfold extract_tic_from_roi. rewrite E. reflexivity.
Qed.

Lemma flat_map_ext_in {A B} (f g : A -> list B) (l : list A) :
  (forall a, In a l -> f a = g a) -> flat_map f l = flat_map g l.
Proof.
  induction l as [|a l IH]; intros H; [reflexivity|].
  cbn. rewrite (H a (or_introl eq_refl)), IH; [reflexivity|].
  intros b Hb. apply H. right. exact Hb.
Qed.

(** X18.  The curves of a grey stack depend only on the pixels inside the
    clipped ROI: two stacks of the same shape that agree there give the
    same result. *)
Theorem tic_ignores_pixels_outside_roi :
  forall (X X' : ndarray Q) (r : Validators.roi) (fps : Q) (x0 y0 x1 y1 : Z),
    shape X = shape X' ->
    ndim X = 3%nat ->
    Validators.validate_roi r (Z.of_nat (nth 1 (shape X) 0%nat))
                              (Z.of_nat (nth 2 (shape X) 0%nat))
    = Some (x0, y0, x1, y1) ->
    (forall t h w,
        (Z.to_nat y0 <= h <= Z.to_nat y1)%nat ->
        (Z.to_nat x0 <= w <= Z.to_nat x1)%nat ->
        item X [t; h; w] = item X' [t; h; w]) ->
    extract_tic_from_roi mean X r fps = extract_tic_from_roi mean X' r fps.
Proof.
  intros X X' [[[a b] c] d] fps x0 y0 x1 y1 Hs Hn Hv Hag.
  assert (Hv' := Hv). rewrite Hs in Hv'.
  rewrite (extract_tic_unfold X _ fps x0 y0 x1 y1 Hv).
  rewrite (extract_tic_unfold X' _ fps x0 y0 x1 y1 Hv').
  apply UtilityFacts.validate_roi_inv in Hv.
  assert (HgX : gray_stack X = X) by (unfold gray_stack; rewrite Hn; reflexivity).
  assert (HgX' : gray_stack X' = X').
  { unfold gray_stack, ndim in *. rewrite <- Hs, Hn. reflexivity. }
  rewrite HgX, HgX', <- Hs. cbv zeta.
  assert (E : map (fun t => mean (roi_samples X x0 y0 x1 y1 t))
                  (seq 0 (hd 0%nat (shape X)))
              = map (fun t => mean (roi_samples X' x0 y0 x1 y1 t))
                    (seq 0 (hd 0%nat (shape X)))).
  { apply map_ext. intros t. f_equal. unfold roi_samples.
    apply flat_map_ext_in. intros dy Hdy. apply in_seq in Hdy.
    apply map_ext_in. intros dx Hdx. apply in_seq in Hdx.
    apply Hag; lia. }
  rewrite E. reflexivity.
Qed.

End WithMean.


Lemma tic_raises_on_small_frames_example :
  extract_tic_from_roi demo_mean (mk_ndarray [3; 8; 4]%nat (fun _ => 1))
                       (0%Z, 0%Z, 7%Z, 7%Z) 10 = Raised.
Proof.
  apply (tic_raises_on_small_frames demo_mean
           (mk_ndarray [3; 8; 4]%nat (fun _ => 1)) (0%Z, 0%Z, 7%Z, 7%Z) 10).
  right. cbn. lia.
Defined.

Lemma tic_raises_on_empty_stack_example :
  extract_tic_from_roi demo_mean (mk_ndarray [0; 8; 8]%nat (fun _ => 1))
                       (0%Z, 0%Z, 7%Z, 7%Z) 10 = Raised.
Proof.
  apply (tic_raises_on_empty_stack demo_mean
           (mk_ndarray [0; 8; 8]%nat (fun _ => 1)) (0%Z, 0%Z, 7%Z, 7%Z) 10).
  reflexivity.
Defined.

Lemma tic_ignores_pixels_outside_roi_example :
  extract_tic_from_roi demo_mean demo_stack (1%Z, 1%Z, 5%Z, 6%Z) 10
  = extract_tic_from_roi demo_mean demo_stack' (1%Z, 1%Z, 5%Z, 6%Z) 10.
Proof.
  apply (tic_ignores_pixels_outside_roi demo_mean demo_stack demo_stack'
           (1%Z, 1%Z, 5%Z, 6%Z) 10 1 1 5 6).
  - reflexivity.
  - reflexivity.
  - reflexivity.
  - intros t h w Hh Hw. cbn in Hw. cbn [demo_stack demo_stack' item].
    destruct (Nat.ltb_spec w 6); [reflexivity | lia].
Defined.

End TicFacts.

(** ** Goodness of fit *)

Module FitMetricsFacts.
Import FitMetrics.

Lemma sq_nonneg (v : Q) : 0 <= v ^ 2.
Proof. simpl. nra. Qed.

Lemma qsum_squares_nonneg (f : Q -> Q) (l : list Q) :
  0 <= qsum (map (fun v => f v ^ 2) l).
Proof.
  induction l as [|x l IH]; cbn [map qsum]; [lra|].
  pose proof (sq_nonneg (f x)) as H. lra.
Qed.

Lemma ss_tot_positive (m : Q) (l : list Q) :
  0 < qsum (map (fun v => (v - m) ^ 2) l) + (1 # 1000000000000).
Proof.
  pose proof (qsum_squares_nonneg (fun v => v - m) l) as H. cbv beta in H.
  assert (0 < 1 # 1000000000000) by reflexivity. lra.
Qed.

Lemma qsum_zip_self_zero (a b : list Q) :
  Forall2 Qeq a b -> qsum (map (fun v => v ^ 2) (zip_with Qminus a b)) == 0.
Proof.
  induction 1 as [|x y a b Hxy _ IH]; cbn [zip_with map qsum]; [reflexivity|].
  rewrite IH, Hxy. simpl. ring.
Qed.

(** X19.  A prediction that equals the data scores exactly 1: the residual
    sum vanishes and the guarded denominator is never zero, also for a
    constant curve. *)
Theorem r2_of_perfect_prediction_is_one :
  forall y_true y_pred : list Q,
    Forall2 Qeq y_true y_pred ->
    exists v, r2_score y_true y_pred = Val v /\ v == 1.
Proof.
  intros yt yp H. unfold r2_score, broadcast2.
  rewrite (Forall2_length H), Nat.eqb_refl. cbn [bind].
  eexists; split; [reflexivity|].
  rewrite (qsum_zip_self_zero yt yp H).
  pose proof (ss_tot_positive (mean yt) yt) as Hp.
  field. lra.
Qed.

Lemma r2_of_perfect_prediction_is_one_example :
  exists v, r2_score [3; 3; 3] [3; 6 # 2; 3] = Val v /\ v == 1.
Proof.
  apply (r2_of_perfect_prediction_is_one [3; 3; 3] [3; 6 # 2; 3]).
  repeat constructor.
Defined.

(** X20.  For curves of equal length the score is defined and never
    exceeds 1. *)
Theorem r2_is_at_most_one :
  forall y_true y_pred : list Q,
    length y_true = length y_pred ->
    exists v, r2_score y_true y_pred = Val v /\ v <= 1.
Proof.
  intros yt yp H. unfold r2_score, broadcast2.
  rewrite H, Nat.eqb_refl. cbn [bind].
  eexists; split; [reflexivity|].
  pose proof (ss_tot_positive (mean yt) yt) as Hp.
  pose proof (qsum_squares_nonneg (fun v => v) (zip_with Qminus yt yp)) as Hr.
  cbv beta in Hr.
  set (num := qsum (map (fun v => v ^ 2) (zip_with Qminus yt yp))) in *.
  set (den := qsum (map (fun v => (v - mean yt) ^ 2) yt) + (1 # 1000000000000)) in *.
  assert (0 <= num / den) by (apply Qle_shift_div_l; lra).
  lra.
Qed.

Lemma r2_is_at_most_one_example :
  exists v, r2_score [1; 2; 4] [1; 3; 3] = Val v /\ v <= 1.
Proof.
  apply (r2_is_at_most_one [1; 2; 4] [1; 3; 3]). reflexivity.
Defined.

End FitMetricsFacts.

(** ** Multi-start fitting: the loop over the starts *)

Module FitterMoreFacts.
Import Fitter FitterSteps.

(** [a <= b] on extended residuals: the test [b < a] of the loop fails. *)
Definition ext_le (a b : ext) : Prop := ext_lt b a = false.

Lemma ext_le_trans (a b c : ext) : ext_le a b -> ext_le b c -> ext_le a c.
Proof.
  unfold ext_le. destruct a as [a|], b as [b|], c as [c|]; simpl;
    try congruence; try reflexivity.
  intros H1 H2. apply Qlt_bool_false in H1. apply Qlt_bool_false in H2.
  apply Qlt_bool_false. lra.
Qed.

Lemma ext_le_refl (a : ext) : ext_le a a.
Proof.
  unfold ext_le. destruct a as [a|]; simpl; [|reflexivity].
  apply Qlt_bool_false. lra.
Qed.

Lemma nth_error_set_nth_same {A} (i : nat) (v : A) (a : list A) :
  (i < length a)%nat -> nth_error (set_nth i v a) i = Some v.
Proof.
  revert i; induction a as [|x r IH]; intros [|i] H; simpl in *;
    try lia; [reflexivity|]. apply IH. lia.
Qed.

Lemma nth_error_set_nth_other {A} (i j : nat) (v : A) (a : list A) :
  i <> j -> nth_error (set_nth i v a) j = nth_error a j.
Proof.
  revert i j; induction a as [|x r IH]; intros [|i] [|j] H; simpl;
    try reflexivity; try congruence. apply IH. congruence.
Qed.

Lemma clip_ext_range (v l u : Q) :
  l <= u -> l <= clip_ext v (fin l) (fin u) <= u.
Proof.
  intros H. unfold clip_ext.
  destruct (Q.min_spec (Qmax v l) u) as [[_ E]|[_ E]]; rewrite E.
  - split; [apply Q.le_max_r|].
    destruct (Q.min_spec (Qmax v l) u) as [[H1 _]|[H1 E1]]; [lra|].
    rewrite E in E1. rewrite <- E1. lra.
  - split; [exact H | lra].
Qed.

Lemma clip_ext_upper (v l u : Q) : clip_ext v (fin l) (fin u) <= u.
Proof. unfold clip_ext. apply Q.le_min_r. Qed.

Lemma dict_get_set_same {V} (k : string) (v : V) (d : dict V) :
  dict_get k (dict_set k v d) = Some v.
Proof.
  induction d as [|[k' v'] r IH]; simpl.
  - rewrite String.eqb_refl. reflexivity.
  - destruct (String.eqb k' k) eqn:E; simpl; rewrite E; [reflexivity | exact IH].
Qed.

Lemma dict_get_set_other {V} (k k' : string) (v : V) (d : dict V) :
  k' <> k -> dict_get k' (dict_set k v d) = dict_get k' d.
Proof.
  intros Hne. induction d as [|[k0 v0] r IH]; simpl.
  - destruct (String.eqb_spec k k'); [congruence | reflexivity].
  - destruct (String.eqb_spec k0 k) as [E|E]; simpl.
    + subst k0. destruct (String.eqb_spec k k'); [congruence | reflexivity].
    + destruct (String.eqb k0 k'); [reflexivity | exact IH].
Qed.

Lemma dict_keys_set {V} (k : string) (v : V) (d : dict V) (x : string) :
  In x (dict_keys (dict_set k v d)) <-> x = k \/ In x (dict_keys d).
Proof.
  unfold dict_keys. induction d as [|[k0 v0] r IH]; simpl.
  - intuition.
  - destruct (String.eqb_spec k0 k) as [E|E]; simpl.
    + subst k0. intuition.
    + rewrite IH. intuition.
Qed.

Lemma dict_set_nodup {V} (k : string) (v : V) (d : dict V) :
  NoDup (dict_keys d) -> NoDup (dict_keys (dict_set k v d)).
Proof.
  unfold dict_keys. induction d as [|[k0 v0] r IH]; simpl; intros Hn.
  - constructor; [intros [] | constructor].
  - inversion Hn as [|a b Ha Hb]; subst.
    destruct (String.eqb_spec k0 k) as [E|E]; simpl.
    + constructor; assumption.
    + constructor; [|apply IH; exact Hb].
      intros Hin. apply (dict_keys_set k v r k0) in Hin.
      destruct Hin as [Hin|Hin]; [congruence | exact (Ha Hin)].
Qed.

Section FoldDict.

Context {V : Type} (f : string -> V).

Let step := fun (out : dict V) (k : string) => dict_set k (f k) out.

Lemma fold_dict_set_other (ms : list string) (d : dict V) (k : string) :
  ~ In k ms -> dict_get k (fold_left step ms d) = dict_get k d.
Proof.
  revert d. induction ms as [|a ms IH]; intros d Hk; simpl; [reflexivity|].
  rewrite IH by (intros H; apply Hk; right; exact H).
  unfold step. apply dict_get_set_other. intros ->. apply Hk. left. reflexivity.
Qed.

Lemma fold_dict_set_get (ms : list string) (d : dict V) (k : string) :
  In k ms -> dict_get k (fold_left step ms d) = Some (f k).
Proof.
  revert d. induction ms as [|a ms IH]; intros d Hk; [destruct Hk|].
  simpl. destruct (in_dec string_dec k ms) as [Hin|Hnin].
  - apply IH. exact Hin.
  - destruct Hk as [->|Hk]; [|contradiction].
    rewrite fold_dict_set_other by exact Hnin.
    unfold step. apply dict_get_set_same.
Qed.

Lemma fold_dict_set_keys (ms : list string) (d : dict V) (x : string) :
  In x (dict_keys (fold_left step ms d)) <-> In x (dict_keys d) \/ In x ms.
Proof.
  revert d. induction ms as [|a ms IH]; intros d; simpl; [tauto|].
  rewrite IH. unfold step. rewrite dict_keys_set. intuition.
Qed.

Lemma fold_dict_set_nodup (ms : list string) (d : dict V) :
  NoDup (dict_keys d) -> NoDup (dict_keys (fold_left step ms d)).
Proof.
  revert d. induction ms as [|a ms IH]; intros d Hn; simpl; [exact Hn|].
  apply IH. unfold step. apply dict_set_nodup. exact Hn.
Qed.

End FoldDict.

Section Loop.

Variable MODEL_FUNCS : string -> option model_func.
Variable _initial_guesses : string -> list Q -> list Q -> Q -> Q -> list Q.
Variable percentile10 : list Q -> Q.
Variable uniform_draws : nat -> list Q.
Variable curve_fit :
  option (model_func -> list Q -> list Q -> list Q -> list ext * list ext
          -> res (list Q)).

Lemma try_start_attempt (func : model_func) (t y : list Q)
    (bounds : list ext * list ext) (best : fit) (guess : list Q) :
  try_start curve_fit func t y bounds best guess =
  match attempt curve_fit func t y bounds guess with
  | Val (popt, yhat, r) =>
      if ext_lt (fin r) (rss best) then mk_fit popt (fin r) yhat else best
  | Raised => best
  end.
Proof.
  unfold try_start, attempt, try_except.
  destruct curve_fit as [cf|].
  - destruct (cf func t y guess bounds) as [popt|]; cbn [bind]; [|reflexivity].
    destruct (func t popt) as [yhat|]; cbn [bind]; [|reflexivity].
    destruct (residual_sum_squares y yhat); reflexivity.
  - destruct (func t guess) as [yhat|]; cbn [bind]; [|reflexivity].
    destruct (residual_sum_squares y yhat); reflexivity.
Qed.

Lemma attempt_consistent (func : model_func) (t y : list Q)
    (bounds : list ext * list ext) (guess popt yhat : list Q) (r : Q) :
  attempt curve_fit func t y bounds guess = Val (popt, yhat, r) ->
  func t popt = Val yhat /\ residual_sum_squares y yhat = Val r.
Proof.
  unfold attempt. destruct curve_fit as [cf|].
  - destruct (cf func t y guess bounds) as [p|]; cbn [bind]; [|discriminate].
    destruct (func t p) as [yh|] eqn:E; cbn [bind]; [|discriminate].
    destruct (residual_sum_squares y yh) eqn:E2; cbn [bind]; [|discriminate].
    intros H. injection H as <- <- <-. split; assumption.
  - destruct (func t guess) as [yh|] eqn:E; cbn [bind]; [|discriminate].
    destruct (residual_sum_squares y yh) eqn:E2; cbn [bind]; [|discriminate].
    intros H. injection H as <- <- <-. split; assumption.
Qed.

(** The record kept by the loop is coherent: its curve is the model at its
    parameters, and a finite residual is the residual of that curve. *)
Definition coherent (func : model_func) (t y : list Q) (f : fit) : Prop :=
  func t (params f) = Val (y_fit f)
  /\ (rss f = inf
      \/ exists r, rss f = fin r /\ residual_sum_squares y (y_fit f) = Val r).

Lemma try_start_coherent (func : model_func) (t y : list Q)
    (bounds : list ext * list ext) (best : fit) (guess : list Q) :
  coherent func t y best ->
  coherent func t y (try_start curve_fit func t y bounds best guess).
Proof.
  intros Hb. rewrite try_start_attempt.
  destruct (attempt curve_fit func t y bounds guess) as [[[popt yhat] r]|] eqn:E;
    [|exact Hb].
  destruct (ext_lt (fin r) (rss best)); [|exact Hb].
  apply attempt_consistent in E. destruct E as [E1 E2].
  split; [exact E1|]. right. exists r. split; [reflexivity | exact E2].
Qed.

Lemma fold_try_start_coherent (func : model_func) (t y : list Q)
    (bounds : list ext * list ext) (starts : list (list Q)) (best : fit) :
  coherent func t y best ->
  coherent func t y (fold_left (try_start curve_fit func t y bounds) starts best).
Proof.
  revert best. induction starts as [|g r IH]; intros best Hb; simpl;
    [exact Hb|].
  apply IH. apply try_start_coherent. exact Hb.
Qed.

Lemma try_start_decreases (func : model_func) (t y : list Q)
    (bounds : list ext * list ext) (best : fit) (guess : list Q) :
  ext_le (rss (try_start curve_fit func t y bounds best guess)) (rss best)
  /\ forall popt yhat r,
       attempt curve_fit func t y bounds guess = Val (popt, yhat, r) ->
       ext_le (rss (try_start curve_fit func t y bounds best guess)) (fin r).
Proof.
  rewrite try_start_attempt.
  destruct (attempt curve_fit func t y bounds guess) as [[[popt yhat] r]|] eqn:E.
  - destruct (ext_lt (fin r) (rss best)) eqn:L.
    + split.
      * unfold ext_le. cbn [rss].
        destruct (rss best) as [b|]; simpl in *; [|reflexivity].
        apply Qlt_bool_iff in L. apply Qlt_bool_false. lra.
      * intros p yh r' H. injection H as <- <- <-. apply ext_le_refl.
    + split; [apply ext_le_refl|].
      intros p yh r' H. injection H as <- <- <-. exact L.
  - split; [apply ext_le_refl | discriminate].
Qed.

Lemma fold_try_start_minimal (func : model_func) (t y : list Q)
    (bounds : list ext * list ext) (starts : list (list Q)) (best : fit) :
  let result := fold_left (try_start curve_fit func t y bounds) starts best in
  ext_le (rss result) (rss best)
  /\ forall guess popt yhat r,
       In guess starts ->
       attempt curve_fit func t y bounds guess = Val (popt, yhat, r) ->
       ext_le (rss result) (fin r).
Proof.
  revert best. induction starts as [|g s IH]; intros best; cbn zeta.
  - split; [apply ext_le_refl|]. intros ? ? ? ? [].
  - cbn [fold_left].
    destruct (IH (try_start curve_fit func t y bounds best g)) as [I1 I2].
    destruct (try_start_decreases func t y bounds best g) as [D1 D2].
    split; [eapply ext_le_trans; eassumption|].
    intros guess popt yhat r [<-|Hin] Ha.
    + eapply ext_le_trans; [exact I1|]. eapply D2. exact Ha.
    + eapply I2; eassumption.
Qed.

Lemma fit_model_unfold (model : string) (func : model_func) (t y : list Q)
    (t0_hint C_hint : option Q) (n_starts : Z) (best : fit) :
  MODEL_FUNCS model = Some func ->
  fit_model MODEL_FUNCS _initial_guesses percentile10 uniform_draws curve_fit
    model t y t0_hint C_hint n_starts = Val best ->
  exists p0 y0 jitters,
    func t p0 = Val y0
    /\ starts_of _initial_guesses percentile10 uniform_draws model t y t0_hint C_hint n_starts = Val (p0 :: jitters)
    /\ best = fold_left (try_start curve_fit func t y (_bounds model t y))
                (p0 :: jitters) (mk_fit p0 inf y0).
Proof.
  intros Hm. unfold fit_model, starts_of. rewrite Hm.
  destruct (_bounds model t y) as [lb ub].
  match goal with
  | |- context [func t ?p] => set (p0 := p)
  end.
  destruct (func t p0) as [y0|] eqn:E0; cbn [bind]; [|discriminate].
  destruct (jittered_starts uniform_draws p0 lb ub 0 _) as [js|];
    cbn [bind]; [|discriminate].
  intros H. injection H as <-.
  exists p0, y0, js. repeat split; first [exact E0 | reflexivity].
Qed.

(** X21.  Whatever [fit_model] returns is coherent: the fitted curve is the
    model evaluated at the returned parameters, and a finite residual is the
    residual sum of squares of exactly that curve. *)
Theorem fit_model_result_is_coherent :
  forall (model : string) (func : model_func) (t y : list Q)
         (t0_hint C_hint : option Q) (n_starts : Z) (best : fit),
    MODEL_FUNCS model = Some func ->
    fit_model MODEL_FUNCS _initial_guesses percentile10 uniform_draws curve_fit
      model t y t0_hint C_hint n_starts = Val best ->
    func t (params best) = Val (y_fit best)
    /\ (rss best = inf
        \/ exists r, rss best = fin r
                     /\ residual_sum_squares y (y_fit best) = Val r).
Proof.
  intros model func t y h1 h2 n best Hm Hf.
  destruct (fit_model_unfold model func t y h1 h2 n best Hm Hf)
    as [p0 [y0 [js [E0 [_ ->]]]]].
  apply fold_try_start_coherent. split; [exact E0 | left; reflexivity].
Qed.

(** X22.  The loop keeps the lowest residual: no start whose optimisation
    and evaluation succeed has a residual sum of squares below the one
    returned. *)
Theorem fit_model_keeps_lowest_rss :
  forall (model : string) (func : model_func) (t y : list Q)
         (t0_hint C_hint : option Q) (n_starts : Z) (best : fit)
         (starts : list (list Q)) (guess popt yhat : list Q) (r : Q),
    MODEL_FUNCS model = Some func ->
    fit_model MODEL_FUNCS _initial_guesses percentile10 uniform_draws curve_fit
      model t y t0_hint C_hint n_starts = Val best ->
    starts_of _initial_guesses percentile10 uniform_draws model t y t0_hint C_hint n_starts = Val starts ->
    In guess starts ->
    attempt curve_fit func t y (_bounds model t y) guess = Val (popt, yhat, r) ->
    exists rb, rss best = fin rb /\ rb <= r.
Proof.
  intros model func t y h1 h2 n best starts guess popt yhat r Hm Hf Hs Hin Ha.
  destruct (fit_model_unfold model func t y h1 h2 n best Hm Hf)
    as [p0 [y0 [js [E0 [Es ->]]]]].
  rewrite Es in Hs. injection Hs as <-.
  destruct (fold_try_start_minimal func t y (_bounds model t y) (p0 :: js)
              (mk_fit p0 inf y0)) as [_ Hmin].
  specialize (Hmin guess popt yhat r Hin Ha). unfold ext_le in Hmin.
  destruct (rss _) as [rb|]; simpl in Hmin; [|discriminate].
  exists rb. split; [reflexivity|]. apply Qlt_bool_false in Hmin. exact Hmin.
Qed.

(** X23.  A requested model name that is not in [MODEL_FUNCS] gets the
    entry [None].  The dict has one entry per distinct requested name, and
    every requested name has the entry it gets when it is requested alone
    (with the same [random_state], which fixes the draws of every call of
    [fit_model]): a model that fails does not affect the others. *)
Theorem fit_models_isolates_unknown_model :
  forall (t y : list Q) (models : list string) (m : string)
         (t0_hint C_hint : option Q) (n_starts : Z),
    In m models ->
    MODEL_FUNCS m = None ->
    let fit_all := fun ms =>
      fit_models MODEL_FUNCS _initial_guesses percentile10 uniform_draws
        curve_fit t y ms t0_hint C_hint n_starts in
    dict_get m (fit_all models) = Some None
    /\ NoDup (dict_keys (fit_all models))
    /\ (forall m', In m' (dict_keys (fit_all models)) <-> In m' models)
    /\ (forall m', In m' models ->
                   dict_get m' (fit_all models) = dict_get m' (fit_all [m'])).
Proof.
  intros t y models m h1 h2 n Hin Hm fit_all.
  set (f := fit_entry MODEL_FUNCS _initial_guesses percentile10 uniform_draws
              curve_fit t y h1 h2 n).
  assert (Hall : forall ms, fit_all ms
                            = fold_left (fun out k => dict_set k (f k) out) ms [])
    by reflexivity.
  assert (Hget : forall m', In m' models ->
                            dict_get m' (fit_all models) = Some (f m')).
  { intros m' Hm'. rewrite Hall. apply fold_dict_set_get. exact Hm'. }
  split; [|split; [|split]].
  - rewrite (Hget m Hin). unfold f, fit_entry, fit_model. rewrite Hm.
    reflexivity.
  - rewrite Hall. apply fold_dict_set_nodup. constructor.
  - intros m'. rewrite Hall, fold_dict_set_keys. simpl. tauto.
  - intros m' Hm'. rewrite (Hget m' Hm'). rewrite Hall.
    cbn [fold_left dict_set dict_get]. rewrite String.eqb_refl. reflexivity.
Qed.

End Loop.

Section Jitter.

Variable uniform_draws : nat -> list Q.

Lemma length5 {A} (l : list A) :
  length l = 5%nat -> exists a b c d e, l = [a; b; c; d; e].
Proof.
  destruct l as [|a [|b [|c [|d [|e [|f l]]]]]]; try discriminate.
  intros _. exists a, b, c, d, e. reflexivity.
Qed.

(** What lines 102-103 guarantee for a start [j] under bounds [(lb, ub)]. *)
Definition t0_and_C_clipped (lb ub : list ext) (j : list Q) : Prop :=
  length j = 5%nat
  /\ ext_le (nth 4 lb inf) (fin (nth 4 j 0))
  /\ ext_le (fin (nth 4 j 0)) (nth 4 ub inf)
  /\ ext_le (fin (nth 3 j 0)) (nth 3 ub inf)
  /\ (ext_le (nth 3 lb inf) (nth 3 ub inf) ->
      ext_le (nth 3 lb inf) (fin (nth 3 j 0))).

Lemma clipped_start (p0 draws : list Q) (l1 l2 l3 u1 u2 u3 : ext)
    (tmax Cmax : Q) :
  length p0 = 5%nat -> length draws = 5%nat -> 0 <= Cmax ->
  let lb := [l1; l2; l3; fin 0; fin 0] in
  let ub := [u1; u2; u3; fin tmax; fin Cmax] in
  exists j,
    (do j2 <- clip_from_end 2 (zip_with Qmult p0 draws) lb ub;
     clip_from_end 1 j2 lb ub) = Val j
    /\ t0_and_C_clipped lb ub j.
Proof.
  intros Hp Hd HC lb ub.
  destruct (length5 p0 Hp) as [a [b [c [d [e ->]]]]].
  destruct (length5 draws Hd) as [a' [b' [c' [d' [e' ->]]]]].
  eexists. split; [reflexivity|].
  unfold t0_and_C_clipped, ext_le, lb, ub. cbn [length nth ext_lt].
  pose proof (clip_ext_range (e * e') 0 Cmax HC) as [C1 C2].
  pose proof (clip_ext_upper (d * d') 0 tmax) as T2.
  repeat split; try (apply Qlt_bool_false; assumption).
  intros Ht. apply Qlt_bool_false in Ht. apply Qlt_bool_false.
  apply (clip_ext_range (d * d') 0 tmax Ht).
Qed.

Lemma bounds_shape (model : string) (t y : list Q) :
  exists l1 l2 l3 u1 u2 u3 tmax Cmax,
    _bounds model t y
    = ([l1; l2; l3; fin 0; fin 0], [u1; u2; u3; fin tmax; fin Cmax])
    /\ 0 <= Cmax.
Proof.
  unfold _bounds.
  set (tmax := match t with [] => 1 | _ => qmax_list t end).
  set (Cmax := Qmax (match y with [] => 1 | _ => qmax_list y end) 1).
  assert (HC : 0 <= Cmax).
  { apply Qle_trans with 1; [discriminate | apply Q.le_max_r]. }
  destruct (String.eqb model "lognormal");
    [|destruct (String.eqb model "gamma")];
    do 8 eexists; (split; [reflexivity | exact HC]).
Qed.

(** X24.  With five-entry guesses and draws, every jittered start is
    produced without error, and its baseline [C] lies within the bounds of
    the model; its delay [t0] does not exceed the upper bound, and is not
    below the lower bound either whenever the bounds are ordered (the last
    sample time is not negative).  *)
Theorem jittered_starts_keep_t0_and_C_in_bounds :
  forall (model : string) (t y p0 : list Q) (count first : nat),
    length p0 = 5%nat ->
    (forall k, length (uniform_draws k) = 5%nat) ->
    exists js,
      jittered_starts uniform_draws p0
        (fst (_bounds model t y)) (snd (_bounds model t y)) first count
      = Val js
      /\ length js = count
      /\ Forall (t0_and_C_clipped (fst (_bounds model t y))
                                  (snd (_bounds model t y))) js.
Proof.
  intros model t y p0 count first Hp Hd.
  destruct (bounds_shape model t y)
    as [l1 [l2 [l3 [u1 [u2 [u3 [tmax [Cmax [-> HC]]]]]]]]].
  cbn [fst snd]. revert first.
  induction count as [|c IH]; intro first.
  - exists []. repeat split. constructor.
  - destruct (clipped_start p0 (uniform_draws first) l1 l2 l3 u1 u2 u3
                tmax Cmax Hp (Hd first) HC) as [j [Ej Hj]].
    destruct (IH (S first)) as [js [Ejs [Hl Hall]]].
    exists (j :: js). split; [|split].
    + cbn [jittered_starts].
      destruct (clip_from_end 2 _ _ _) as [j2|]; cbn [bind] in *;
        [|discriminate].
      rewrite Ej. cbn [bind]. rewrite Ejs. reflexivity.
    + simpl. congruence.
    + constructor; assumption.
Qed.

End Jitter.

(** A stand-in library for the examples: one known model (the constant
    baseline), a fixed initial guess, two different draws and an optimiser
    that returns its start. *)
Definition demo_funcs : string -> option model_func :=
  fun m => if String.eqb m "ldrw"
           then Some (fun (t p : list Q) => Val (map (fun _ => last p 0) t))
           else None.

Definition demo_guesses : string -> list Q -> list Q -> Q -> Q -> list Q :=
  fun _ _ _ t0 C => [1; 300; 2; t0; C].

Definition demo_draws : nat -> list Q :=
  fun k => [1; 1; 1; 1; if Nat.eqb k 0 then 1 # 2 else 11 # 10].

Definition demo_cf : option (model_func -> list Q -> list Q -> list Q
                             -> list ext * list ext -> res (list Q)) :=
  Some (fun _ _ _ guess _ => Val guess).

Definition demo_t : list Q := [0; 150; 300; 450; 600].
Definition demo_y : list Q := [0; 2; 5; 3; 1].

Definition demo_best : fit :=
  Eval vm_compute in
    match fit_model demo_funcs demo_guesses (fun _ => 2) demo_draws demo_cf
            "ldrw" demo_t demo_y (Some 0) (Some 2) 3 with
    | Val f => f
    | Raised => mk_fit [] inf []
    end.

Definition demo_starts : list (list Q) :=
  Eval vm_compute in
    match starts_of demo_guesses (fun _ => 2) demo_draws
            "ldrw" demo_t demo_y (Some 0) (Some 2) 3 with
    | Val l => l
    | Raised => []
    end.

Definition demo_func : model_func :=
  fun (t p : list Q) => Val (map (fun _ => last p 0) t).

Lemma fit_model_result_is_coherent_example :
  demo_func demo_t (params demo_best) = Val (y_fit demo_best)
  /\ (rss demo_best = inf
      \/ exists r, rss demo_best = fin r
                   /\ residual_sum_squares demo_y (y_fit demo_best) = Val r).
Proof.
  apply (fit_model_result_is_coherent demo_funcs demo_guesses (fun _ => 2)
           demo_draws demo_cf "ldrw" demo_func demo_t demo_y
           (Some 0) (Some 2) 3 demo_best).
  - reflexivity.
  - vm_compute. reflexivity.
Defined.

Lemma fit_model_keeps_lowest_rss_example :
  exists rb, rss demo_best = fin rb /\ rb <= 15.
Proof.
  apply (fit_model_keeps_lowest_rss demo_funcs demo_guesses (fun _ => 2)
           demo_draws demo_cf "ldrw" demo_func demo_t demo_y
           (Some 0) (Some 2) 3 demo_best
           demo_starts
           [1; 300; 2; 0; 2] [1; 300; 2; 0; 2] [2; 2; 2; 2; 2] 15).
  - reflexivity.
  - vm_compute. reflexivity.
  - vm_compute. reflexivity.
  - left. reflexivity.
  - vm_compute. reflexivity.
Defined.

Lemma fit_models_isolates_unknown_model_example :
  let fit_all := fun ms =>
    fit_models demo_funcs demo_guesses (fun _ => 2) demo_draws demo_cf
      demo_t demo_y ms (Some 0) (Some 2) 3 in
  let models := ["ldrw"; "spline"; "ldrw"]%string in
  dict_get "spline" (fit_all models) = Some None
  /\ NoDup (dict_keys (fit_all models))
  /\ (forall m', In m' (dict_keys (fit_all models)) <-> In m' models)
  /\ (forall m', In m' models ->
                 dict_get m' (fit_all models) = dict_get m' (fit_all [m'])).
Proof.
  apply (fit_models_isolates_unknown_model demo_funcs demo_guesses
           (fun _ => 2) demo_draws demo_cf demo_t demo_y
           ["ldrw"; "spline"; "ldrw"]%string "spline" (Some 0) (Some 2) 3).
  - right. left. reflexivity.
  - reflexivity.
Defined.

(** The same request, run: the repeated name has one entry. *)
Lemma fit_models_repeated_name :
  dict_keys (fit_models demo_funcs demo_guesses (fun _ => 2) demo_draws
               demo_cf demo_t demo_y ["ldrw"; "spline"; "ldrw"]%string
               (Some 0) (Some 2) 3)
  = ["ldrw"; "spline"]%string.
Proof. vm_compute. reflexivity. Qed.

Lemma jittered_starts_keep_t0_and_C_in_bounds_example :
  exists js,
    jittered_starts demo_draws [1; 300; 2; 0; 2]
      (fst (_bounds "ldrw" demo_t demo_y)) (snd (_bounds "ldrw" demo_t demo_y))
      0 2
    = Val js
    /\ length js = 2%nat
    /\ Forall (t0_and_C_clipped (fst (_bounds "ldrw" demo_t demo_y))
                                (snd (_bounds "ldrw" demo_t demo_y))) js.
Proof.
  apply (jittered_starts_keep_t0_and_C_in_bounds demo_draws "ldrw"
           demo_t demo_y [1; 300; 2; 0; 2] 2 0).
  - reflexivity.
  - intros k. reflexivity.
Defined.

End FitterMoreFacts.

(** ** The smoother: weights, bandwidth, totality *)

Module LoessMoreFacts.
Import Loess.

Lemma tricube_clip_range (v : Q) : 0 <= clip v 0 1 <= 1.
Proof.
  unfold clip. split; [|apply Q.le_min_r].
  apply Q.min_glb; [apply Q.le_max_r | discriminate].
Qed.

Lemma clip_unit_inside (v : Q) : 0 <= v -> v < 1 -> clip v 0 1 == v.
Proof.
  intros H0 H1. unfold clip.
  rewrite (Q.max_l v 0) by exact H0. apply Q.min_l. lra.
Qed.

Lemma clip_unit_above (v : Q) : 1 <= v -> clip v 0 1 == 1.
Proof.
  intros H. unfold clip. apply Q.min_r.
  apply Qle_trans with v; [exact H | apply Q.le_max_l].
Qed.

Lemma cube_unit (c : Q) : 0 <= c <= 1 -> 0 <= c ^ 3 <= 1.
Proof.
  intros [H0 H1]. simpl.
  assert (0 <= c * c <= 1) by nra. nra.
Qed.

Lemma cube_below_one (c : Q) : 0 <= c -> c < 1 -> c ^ 3 < 1.
Proof.
  intros H0 H1. simpl.
  assert (0 <= c * c <= 1) by nra. nra.
Qed.

Lemma cube_positive (c : Q) : 0 < c -> 0 < c ^ 3.
Proof.
  intros H. simpl. assert (0 < c * c) by nra. nra.
Qed.

Lemma tricube_unit (u : Q) : 0 <= _tricube u <= 1.
Proof.
  unfold _tricube. cbv zeta.
  pose proof (cube_unit _ (tricube_clip_range (Qabs u))) as Hc3.
  apply cube_unit. lra.
Qed.

Lemma tricube_zero_outside (u : Q) : 1 <= Qabs u -> _tricube u == 0.
Proof.
  intros H. unfold _tricube. cbv zeta.
  rewrite (clip_unit_above _ H). reflexivity.
Qed.

Lemma tricube_positive_inside (u : Q) : Qabs u < 1 -> 0 < _tricube u.
Proof.
  intros H. unfold _tricube. cbv zeta.
  pose proof (tricube_clip_range (Qabs u)) as Hc.
  assert (E : clip (Qabs u) 0 1 == Qabs u)
    by (apply clip_unit_inside; [apply Qabs_nonneg | exact H]).
  apply cube_positive.
  assert (clip (Qabs u) 0 1 ^ 3 < 1); [|lra].
  apply cube_below_one; [apply Hc | rewrite E; exact H].
Qed.

(** X25.  The tri-cube weight lies in [0, 1]; it vanishes from distance 1
    on and is positive strictly inside. *)
Theorem tricube_weight_range :
  forall u : Q,
    0 <= _tricube u <= 1
    /\ (1 <= Qabs u -> _tricube u == 0)
    /\ (Qabs u < 1 -> 0 < _tricube u).
Proof.
  intros u. split; [apply tricube_unit|].
  split; [apply tricube_zero_outside | apply tricube_positive_inside].
Qed.

Lemma filter_positive (l : list Q) :
  Forall (Qlt 0) (filter (fun v => Qlt_bool 0 v) l).
Proof.
  apply Forall_forall. intros v Hv. apply filter_In in Hv.
  apply Qlt_bool_iff. apply Hv.
Qed.

Lemma bandwidth_pos (k : Z) (d : list Q) : 0 < bandwidth k d.
Proof.
  unfold bandwidth.
  destruct (filter (fun v => Qlt_bool 0 v) d) as [|a r]; [reflexivity|].
  destruct (Qle_bool _ 0) eqn:E.
  - destruct (Qlt_bool 0 (list_max (a :: r))) eqn:E2; [|reflexivity].
    apply Qlt_bool_iff. exact E2.
  - apply Qlt_bool_iff. unfold Qlt_bool. rewrite E. reflexivity.
Qed.

(** X26.  For a neighbourhood size of at least one, the bandwidth is
    positive.  It is 1 when no point lies at a positive distance.
    Otherwise it is the distance of rank min(k, m) among the m positive
    distances, the test [dk <= 0] of line 58 fails, and the fallback to the
    largest distance is not taken. *)
Theorem bandwidth_is_a_positive_distance :
  forall (k : Z) (d : list Q),
    (1 <= k)%Z ->
    let d_nonzero := filter (fun v => Qlt_bool 0 v) d in
    let dk := partition_at d_nonzero (Z.to_nat (effective_k k d_nonzero - 1)) in
    0 < bandwidth k d
    /\ (d_nonzero = [] -> bandwidth k d = 1)
    /\ (d_nonzero <> [] ->
        bandwidth k d = dk /\ Qle_bool dk 0 = false /\ In dk d).
Proof.
  intros k d Hk dn dk. split; [apply bandwidth_pos|]. unfold bandwidth.
  pose proof (filter_positive d) as Hpos.
  assert (Hsub : forall v, In v dn -> In v d)
    by (intros v Hv; apply filter_In in Hv; apply Hv).
  fold dn in Hpos |- *. fold dk.
  split; [intros ->; reflexivity|].
  intros Hne.
  assert (Hi : (Z.to_nat (effective_k k dn - 1) < length (sortQ dn))%nat).
  { unfold sortQ. rewrite length_sort_by. unfold effective_k.
    destruct dn as [|a r]; [congruence|]. cbn [length]. lia. }
  assert (Hdk : In dk dn).
  { unfold dk, partition_at. apply (In_sort_by Qle_bool).
    apply nth_In. exact Hi. }
  assert (H0 : 0 < dk) by (apply (proj1 (Forall_forall _ _) Hpos); exact Hdk).
  assert (E : Qle_bool dk 0 = false).
  { destruct (Qle_bool dk 0) eqn:E; [|reflexivity].
    apply Qle_bool_iff in E. lra. }
  destruct dn as [|a r] eqn:Edn; [congruence|].
  rewrite E. split; [reflexivity|]. split; [reflexivity|].
  apply Hsub. exact Hdk.
Qed.

Lemma bandwidth_is_a_positive_distance_example :
  let d_nonzero := filter (fun v => Qlt_bool 0 v) [3; 0; 1; 2] in
  let dk := partition_at d_nonzero (Z.to_nat (effective_k 2 d_nonzero - 1)) in
  0 < bandwidth 2 [3; 0; 1; 2]
  /\ (d_nonzero = [] -> bandwidth 2 [3; 0; 1; 2] = 1)
  /\ (d_nonzero <> [] ->
      bandwidth 2 [3; 0; 1; 2] = dk /\ Qle_bool dk 0 = false
      /\ In dk [3; 0; 1; 2]).
Proof.
  apply (bandwidth_is_a_positive_distance 2 [3; 0; 1; 2]). lia.
Defined.

Lemma compress_map_filter {A} (p : A -> bool) (l : list A) :
  compress (map p l) l = filter p l.
Proof.
  induction l as [|a l IH]; simpl; [reflexivity|].
  destruct (p a); rewrite IH; reflexivity.
Qed.

Lemma qsum_positive (l : list Q) : l <> [] -> Forall (Qlt 0) l -> 0 < qsum l.
Proof.
  intros Hne H. induction H as [|a l Ha Hl IH]; [congruence|].
  simpl. destruct l as [|b l]; [simpl; lra|].
  assert (0 < qsum (b :: l)) by (apply IH; discriminate). lra.
Qed.

Lemma average_defined (ys ws : vec) :
  0 < qsum ws -> exists v, average ys ws = Val v.
Proof.
  intros H. unfold average.
  destruct (Qeq_bool (qsum ws) 0) eqn:E;
    [apply Qeq_bool_iff in E; lra | eexists; reflexivity].
Qed.

Lemma map_res_total {A B} (f : A -> res B) (l : list A) :
  (forall a, In a l -> exists b, f a = Val b) ->
  exists bs, map_res f l = Val bs /\ length bs = length l.
Proof.
  induction l as [|a l IH]; intros H; simpl.
  - exists []. split; reflexivity.
  - destruct (H a (or_introl eq_refl)) as [b Eb]. rewrite Eb. cbn [bind].
    destruct IH as [bs [Ebs Hl]]; [intros c Hc; apply H; right; exact Hc|].
    rewrite Ebs. cbn [bind]. exists (b :: bs). split; [reflexivity|].
    simpl. congruence.
Qed.

Section Totality.

Variable lstsq : matrix -> vec -> res vec.
Variable np_argsort : vec -> list nat.

(** At a point of the (deduplicated) abscissae the point itself carries
    weight 1, so the weighted average of the fallback is defined. *)
Lemma local_fit_total (degree k : Z) (x_sorted y_sorted : vec) (xi : Q) :
  In xi x_sorted ->
  exists v, local_fit lstsq degree k x_sorted y_sorted xi = Val v.
Proof.
  intros Hin. unfold local_fit. cbv zeta.
  set (d := map (fun v => Qabs (v - xi)) x_sorted).
  pose proof (bandwidth_pos k d) as Hdk.
  set (dk := bandwidth k d) in *.
  set (w := map _tricube (map (fun v => v / dk) d)).
  destruct (do beta <- lstsq _ _; getitem beta 0) as [v|];
    [eexists; reflexivity|].
  apply average_defined. rewrite compress_map_filter.
  assert (Hw : In (_tricube (Qabs (xi - xi) / dk)) w).
  { unfold w, d. apply in_map. apply (in_map (fun v => v / dk)).
    apply (in_map (fun v => Qabs (v - xi))). exact Hin. }
  assert (Hp : 0 < _tricube (Qabs (xi - xi) / dk)).
  { apply tricube_positive_inside.
    assert (E : Qabs (xi - xi) / dk == 0).
    { assert (E0 : xi - xi == 0) by ring. rewrite E0.
      unfold Qdiv. apply Qmult_0_l. }
    rewrite E. reflexivity. }
  apply qsum_positive; [|apply filter_positive].
  intros Hnil.
  assert (Hf : In (_tricube (Qabs (xi - xi) / dk))
                  (filter (fun v => Qlt_bool 0 v) w))
    by (apply filter_In; split; [exact Hw | apply Qlt_bool_iff; exact Hp]).
  rewrite Hnil in Hf. destruct Hf.
Qed.

(** X27.  The smoother never raises, whatever the least-squares solver
    does and whatever order [np.argsort] gives to equal abscissae: on
    arrays of equal length it returns one value per input abscissa. *)
Theorem loess_smooth_never_raises :
  forall (x y : vec) (span : Q) (degree : Z),
    length x = length y ->
    exists v, loess_smooth lstsq np_argsort x y span degree = Val v
              /\ length v = length x.
Proof.
  intros x y span degree Hl. unfold loess_smooth. cbv zeta.
  destruct (Nat.eqb (length x) 0); [exists y; split; [reflexivity | congruence]|].
  destruct (Nat.eqb (length x) 1 || Qle_bool span 0)%bool;
    [exists y; split; [reflexivity | congruence]|].
  destruct (np_unique (take x (np_argsort x))) as [xs ui].
  destruct (map_res_total
              (local_fit lstsq degree (neighborhood_size degree span (length xs))
                 xs (take (take y (np_argsort x)) ui)) xs) as [bs [Ebs _]].
  { intros xi Hxi. apply local_fit_total. exact Hxi. }
  rewrite Ebs. cbn [bind]. eexists. split; [reflexivity|].
  apply length_map.
Qed.

End Totality.

Lemma loess_smooth_never_raises_example :
  exists v, loess_smooth (fun _ _ => Raised) argsort
              [0; 1; 2; 3] [1; 2; 4; 3] (1 # 2) 2
            = Val v
            /\ length v = length [0; 1; 2; 3].
Proof.
  apply (loess_smooth_never_raises (fun _ _ => Raised) argsort
           [0; 1; 2; 3] [1; 2; 4; 3] (1 # 2) 2).
  reflexivity.
Defined.

End LoessMoreFacts.

(** ** ROI bookkeeping *)

Module RoiManagerFacts.
Import RoiManager.

Definition lookup (lbl : string) (l : list ROI) : option ROI :=
  find (fun r => String.eqb (label r) lbl) l.

Lemma lookup_none (lbl : string) (l : list ROI) :
  ~ In lbl (map label l) -> lookup lbl l = None.
Proof.
  induction l as [|r l IH]; simpl; intros H; [reflexivity|].
  destruct (String.eqb_spec (label r) lbl) as [E|E]; [tauto|].
  apply IH. tauto.
Qed.

Lemma existsb_label_false (lbl : string) (l : list ROI) :
  ~ In lbl (map label l) ->
  existsb (fun r => String.eqb (label r) lbl) l = false.
Proof.
  induction l as [|r l IH]; simpl; intros H; [reflexivity|].
  destruct (String.eqb_spec (label r) lbl) as [E|E]; [tauto|].
  apply IH. tauto.
Qed.

Lemma lookup_some (lbl : string) (l : list ROI) :
  In lbl (map label l) -> exists r, lookup lbl l = Some r /\ label r = lbl.
Proof.
  induction l as [|r l IH]; simpl; intros H; [destruct H|].
  destruct (String.eqb_spec (label r) lbl) as [E|E].
  - exists r. split; [reflexivity | exact E].
  - apply IH. tauto.
Qed.

Lemma relabel_labels (old new x : string) (l : list ROI) :
  In x (map label (relabel_first old new l)) ->
  x = new \/ In x (map label l).
Proof.
  induction l as [|r l IH]; simpl; [tauto|].
  destruct (String.eqb (label r) old); simpl; intuition.
Qed.

Lemma relabel_length (old new : string) (l : list ROI) :
  length (relabel_first old new l) = length l.
Proof.
  induction l as [|r l IH]; simpl; [reflexivity|].
  destruct (String.eqb (label r) old); simpl; congruence.
Qed.

Lemma relabel_nodup (old new : string) (l : list ROI) :
  NoDup (map label l) -> ~ In new (map label l) ->
  NoDup (map label (relabel_first old new l)).
Proof.
  induction l as [|r l IH]; simpl; intros Hn Hnew; [constructor|].
  inversion Hn as [|a b Ha Hb]; subst.
  destruct (String.eqb (label r) old); simpl.
  - constructor; [tauto | exact Hb].
  - constructor; [|apply IH; tauto].
    intros Hin. apply relabel_labels in Hin. destruct Hin as [E|Hin]; tauto.
Qed.

Lemma relabel_lookup_old (old new : string) (l : list ROI) :
  NoDup (map label l) -> old <> new ->
  lookup old (relabel_first old new l) = None.
Proof.
  induction l as [|r l IH]; simpl; intros Hn Hne; [reflexivity|].
  inversion Hn as [|a b Ha Hb]; subst.
  destruct (String.eqb_spec (label r) old) as [E|E]; simpl.
  - destruct (String.eqb_spec new old) as [E'|E']; [congruence|].
    apply lookup_none. rewrite <- E. exact Ha.
  - destruct (String.eqb_spec (label r) old) as [E'|E']; [congruence|].
    apply IH; assumption.
Qed.

Lemma relabel_lookup_new (old new : string) (l : list ROI) (r : ROI) :
  ~ In new (map label l) -> lookup old l = Some r ->
  lookup new (relabel_first old new l) = Some (set_label r new).
Proof.
  induction l as [|a l IH]; simpl; intros Hnew Hl; [discriminate|].
  destruct (String.eqb_spec (label a) old) as [E|E]; simpl.
  - injection Hl as <-. rewrite String.eqb_refl. reflexivity.
  - destruct (String.eqb_spec (label a) new) as [E'|E']; [tauto|].
    apply IH; tauto.
Qed.

Lemma relabel_lookup_other (old new x : string) (l : list ROI) :
  x <> old -> x <> new ->
  lookup x (relabel_first old new l) = lookup x l.
Proof.
  intros Ho Hn. induction l as [|a l IH]; simpl; [reflexivity|].
  destruct (String.eqb_spec (label a) old) as [E|E]; simpl.
  - destruct (String.eqb_spec new x) as [E1|E1]; [congruence|].
    destruct (String.eqb_spec (label a) x) as [E2|E2]; [congruence|].
    reflexivity.
  - destruct (String.eqb (label a) x); [reflexivity | exact IH].
Qed.

Definition demo_manager : manager :=
  let m := init_manager in
  let m := fst (add_roi m [(0, 0); (4, 0); (4, 3)] None None) in
  let m := fst (add_roi m [(1, 1); (2, 5); (6, 2)] (Some "liver"%string) None) in
  fst (add_roi m [(0, 0); (9, 0); (9, 9); (0, 9)] None None).

(** X28.  Renaming an existing ROI to an unused label succeeds and keeps
    the labels distinct: the ROI count and the id counter are unchanged, the
    old label is free afterwards, the new label finds the renamed ROI, and
    every other label finds what it found before. *)
Theorem rename_roi_keeps_labels_distinct :
  forall (m : manager) (old_label new_label : string),
    NoDup (labels m) ->
    In old_label (labels m) ->
    ~ In new_label (labels m) ->
    exists m',
      rename_roi m old_label new_label = (m', true)
      /\ NoDup (labels m')
      /\ length (rois m') = length (rois m)
      /\ _next_id m' = _next_id m
      /\ get_roi m' old_label = None
      /\ (exists r, get_roi m old_label = Some r
                    /\ get_roi m' new_label = Some (set_label r new_label))
      /\ (forall l, l <> old_label -> l <> new_label ->
                    get_roi m' l = get_roi m l).
Proof.
  intros [l n] old new Hn Hold Hnew. unfold labels in *. cbn [rois] in *.
  destruct (lookup_some old l Hold) as [r [Er _]].
  assert (Hne : old <> new) by (intros ->; tauto).
  exists (mk_manager (relabel_first old new l) n).
  unfold rename_roi, get_roi. cbn [rois _next_id].
  rewrite (existsb_label_false new l Hnew).
  fold (lookup old l). rewrite Er.
  split; [reflexivity|].
  split; [apply relabel_nodup; assumption|].
  split; [apply relabel_length|].
  split; [reflexivity|].
  split; [apply relabel_lookup_old; assumption|].
  split.
  - exists r. split; [reflexivity|]. apply relabel_lookup_new; assumption.
  - intros x Hx1 Hx2. apply relabel_lookup_other; assumption.
Qed.

Lemma rename_roi_keeps_labels_distinct_example :
  exists m',
    rename_roi demo_manager "ROI_2" "kidney" = (m', true)
    /\ NoDup (labels m')
    /\ length (rois m') = length (rois demo_manager)
    /\ _next_id m' = _next_id demo_manager
    /\ get_roi m' "ROI_2" = None
    /\ (exists r, get_roi demo_manager "ROI_2" = Some r
                  /\ get_roi m' "kidney" = Some (set_label r "kidney"))
    /\ (forall l, l <> "ROI_2"%string -> l <> "kidney"%string ->
                  get_roi m' l = get_roi demo_manager l).
Proof.
  apply (rename_roi_keeps_labels_distinct demo_manager "ROI_2" "kidney").
  - vm_compute. repeat constructor; simpl; intuition discriminate.
  - vm_compute. right. right. left. reflexivity.
  - vm_compute. intuition discriminate.
Defined.

Lemma remove_first_spec (lbl : string) (l : list ROI) :
  In lbl (map label l) ->
  exists pre r post,
    l = pre ++ r :: post
    /\ label r = lbl
    /\ ~ In lbl (map label pre)
    /\ remove_first lbl l = Some (pre ++ post).
Proof.
  induction l as [|a l IH]; simpl; intros H; [destruct H|].
  destruct (String.eqb_spec (label a) lbl) as [E|E].
  - exists [], a, l. repeat split; [exact E | intros []].
  - destruct IH as [pre [r [post [E1 [E2 [E3 E4]]]]]]; [tauto|].
    exists (a :: pre), r, post. rewrite E4. subst l.
    repeat split; [exact E2|]. simpl. intros [Ha|Ha]; [congruence | tauto].
Qed.

Lemma lookup_app_skip (x : string) (pre l : list ROI) :
  ~ In x (map label pre) -> lookup x (pre ++ l) = lookup x l.
Proof.
  induction pre as [|a pre IH]; simpl; intros H; [reflexivity|].
  destruct (String.eqb_spec (label a) x) as [E|E]; [tauto|].
  apply IH. tauto.
Qed.

Lemma lookup_app_cons_other (x : string) (pre post : list ROI) (r : ROI) :
  label r <> x -> lookup x (pre ++ r :: post) = lookup x (pre ++ post).
Proof.
  intros Hne. induction pre as [|a pre IH]; simpl.
  - destruct (String.eqb_spec (label r) x); [congruence | reflexivity].
  - destruct (String.eqb (label a) x); [reflexivity | exact IH].
Qed.

(** X29.  Removing a label that is in use succeeds and takes out exactly
    the first ROI carrying the label: the ROIs before it and after it stay
    in place, the id counter and every other label's lookup are as they
    were, and with distinct labels the removed label is free afterwards. *)
Theorem remove_roi_removes_one :
  forall (m : manager) (lbl : string),
    In lbl (labels m) ->
    exists m' pre r post,
      remove_roi m lbl = (m', true)
      /\ rois m = pre ++ r :: post
      /\ label r = lbl
      /\ ~ In lbl (map label pre)
      /\ rois m' = pre ++ post
      /\ _next_id m' = _next_id m
      /\ (forall l, l <> lbl -> get_roi m' l = get_roi m l)
      /\ (NoDup (labels m) -> get_roi m' lbl = None).
Proof.
  intros [l n] lbl Hin. unfold labels in *. cbn [rois] in *.
  destruct (remove_first_spec lbl l Hin) as [pre [r [post [E1 [E2 [E3 E4]]]]]].
  exists (mk_manager (pre ++ post) n), pre, r, post.
  unfold remove_roi, get_roi. cbn [rois _next_id]. rewrite E4.
  split; [reflexivity|]. split; [exact E1|]. split; [exact E2|].
  split; [exact E3|]. split; [reflexivity|]. split; [reflexivity|].
  split.
  - intros x Hx. subst l. fold (lookup x (pre ++ post)).
    fold (lookup x (pre ++ r :: post)).
    symmetry. apply lookup_app_cons_other. congruence.
  - intros Hn. fold (lookup lbl (pre ++ post)).
    rewrite lookup_app_skip by exact E3.
    apply lookup_none. subst l. rewrite map_app in Hn. cbn [map] in Hn.
    apply NoDup_remove_2 in Hn. rewrite E2 in Hn.
    intros Hp. apply Hn. apply in_or_app. right. exact Hp.
Qed.

Lemma remove_roi_removes_one_example :
  exists m' pre r post,
    remove_roi demo_manager "liver" = (m', true)
    /\ rois demo_manager = pre ++ r :: post
    /\ label r = "liver"%string
    /\ ~ In "liver"%string (map label pre)
    /\ rois m' = pre ++ post
    /\ _next_id m' = _next_id demo_manager
    /\ (forall l, l <> "liver"%string -> get_roi m' l = get_roi demo_manager l)
    /\ (NoDup (labels demo_manager) -> get_roi m' "liver" = None).
Proof.
  apply (remove_roi_removes_one demo_manager "liver").
  vm_compute. right. left. reflexivity.
Defined.

End RoiManagerFacts.

(** ** Motion compensation: the reference image *)

Module MotionFacts.
Import Motion.

Lemma median_of_constant (c : Q) (l : list Q) :
  l <> [] -> (forall v, In v l -> v = c) -> Preproc.median l == c.
Proof.
  intros Hne Hc. unfold Preproc.median. cbv zeta.
  assert (Hlen : (0 < length l)%nat)
    by (destruct l; [congruence | simpl; lia]).
  assert (Hnth : forall i, (i < length l)%nat -> nth i (sortQ l) 0 = c).
  { intros i Hi. apply Hc. apply (In_sort_by Qle_bool).
    apply nth_In. unfold sortQ. rewrite length_sort_by. exact Hi. }
  assert (Hhalf : (length l / 2 < length l)%nat)
    by (apply Nat.div_lt; lia).
  destruct (Nat.even (length l)) eqn:E.
  - rewrite !Hnth by lia. field.
  - rewrite Hnth by lia. reflexivity.
Qed.

Definition demo_clip : ndarray Q :=
  mk_ndarray [6; 2; 2]%nat
    (fun idx => match idx with
                | [t; h; w] =>
                    if (w =? 0)%nat then inject_Z (Z.of_nat (7 + h))
                    else inject_Z (Z.of_nat (t * t + h))
                | _ => 0
                end).

(** X30.  On a stack with at least one frame the reference is built from a
    non-empty window [start, end) inside the stack, of at most
    max(1, ref_window) frames; and at every pixel where the frames of the
    window agree, the reference has that common value, so a static scene is
    its own reference. *)
Theorem reference_of_static_pixels :
  forall (stack : ndarray Q) (skip_first ref_window : Z),
    (1 <= hd 0 (shape stack))%nat ->
    exists ref_gray start end_,
      _compute_reference stack skip_first ref_window
      = Val (ref_gray, (start, end_))
      /\ (0 <= start < end_)%Z
      /\ (end_ <= Z.of_nat (hd 0%nat (shape stack)))%Z
      /\ (end_ - start <= Z.max 1 ref_window)%Z
      /\ shape ref_gray = tl (shape (gray_frames stack))
      /\ forall idx,
           (forall t, (Z.to_nat start <= t < Z.to_nat end_)%nat ->
                      item (gray_frames stack) (t :: idx)
                      = item (gray_frames stack) (Z.to_nat start :: idx)) ->
           item ref_gray idx
           == item (gray_frames stack) (Z.to_nat start :: idx).
Proof.
  intros stack skip win HT. unfold _compute_reference. cbv zeta.
  set (T := Z.of_nat (hd 0%nat (shape stack))).
  set (s := Z.min (Z.max 0 skip) (Z.max 0 (T - 1))).
  set (e := Z.min T (s + Z.max 1 win)).
  assert (Hs : (0 <= s < e)%Z) by (unfold e, s, T; lia).
  assert (He : (e <= T)%Z) by (unfold e; lia).
  assert (Hw : (e - s <= Z.max 1 win)%Z) by (unfold e; lia).
  unfold range.
  destruct (Z.to_nat (e - s)) as [|k] eqn:Ek; [lia|].
  cbn [seq].
  eexists _, s, e. split; [reflexivity|].
  repeat (split; [first [exact He | exact Hw | lia | reflexivity]|]).
  intros idx Hag. cbn [item].
  apply median_of_constant; [discriminate|].
  intros v Hv.
  change (Z.to_nat s :: seq (S (Z.to_nat s)) k)
    with (seq (Z.to_nat s) (S k)) in Hv.
  apply in_map_iff in Hv. destruct Hv as [t [<- Ht]].
  apply in_seq in Ht. apply Hag. lia.
Qed.

Lemma reference_of_static_pixels_example :
  exists ref_gray start end_,
    _compute_reference demo_clip 3 10 = Val (ref_gray, (start, end_))
    /\ (0 <= start < end_)%Z
    /\ (end_ <= Z.of_nat (hd 0%nat (shape demo_clip)))%Z
    /\ (end_ - start <= Z.max 1 10)%Z
    /\ shape ref_gray = tl (shape (gray_frames demo_clip))
    /\ forall idx,
         (forall t, (Z.to_nat start <= t < Z.to_nat end_)%nat ->
                    item (gray_frames demo_clip) (t :: idx)
                    = item (gray_frames demo_clip) (Z.to_nat start :: idx)) ->
         item ref_gray idx
         == item (gray_frames demo_clip) (Z.to_nat start :: idx).
Proof.
  apply (reference_of_static_pixels demo_clip 3 10). cbn. lia.
Defined.

End MotionFacts.
